(** * Sortition core of the pos33 consensus

    Shallow embedding of [plugin/consensus/pos33/sortition.go].  The file
    holds two revisions of the sortition code, one after the other: the
    first has [voterSort], [makerSort], a [verifySort] that reads the
    difficulty from the message and [getMakerSorts]; the second has [sort],
    [calcDiff], a [verifySort] that recomputes the difficulty and [bp].
    They are embedded as the modules [Rev1] and [Rev2]; what both share
    ([hash2], [vrfVerify], [calcuVrfHash], the threshold test) comes first.

    Go values are modelled as follows: [int], [int32] and [int64] as [Z]
    with the conversions written out, [float64] as the kernel's binary64
    floats, [[]byte] and [string] as [string] (a sequence of 8-bit
    characters), a nil-able pointer as [option], a Go map as a [gmap], and
    a [big.Float] as the exact dyadic rational it holds. *)

From Stdlib Require Import ZArith String Ascii List Floats Lia Bool.
From Stdlib Require Import DecimalString Permutation Sorted QArith Qpower.
From Stdlib Require DecimalZ DecimalPos.
From stdpp Require Import base option list gmap strings sorting.

Import ListNotations.
Local Open Scope Z_scope.

(** ** Go scalar conversions *)

(** Two's-complement wrap-around to [bits] bits. *)
Definition wrap (bits z : Z) : Z :=
  (z + 2 ^ (bits - 1)) mod 2 ^ bits - 2 ^ (bits - 1).

(** [int32(x)] and [int64(x)] of an integer [x]. *)
Definition int32 (z : Z) : Z := wrap 32 z.
Definition int64 (z : Z) : Z := wrap 64 z.

(** [float64(x)] of an integer [x]: the nearest binary64, ties to even. *)
Definition float64 (z : Z) : float := SF2Prim (binary_normalize 53 1024 z 0 false).

(** The value of one byte. *)
Definition byte_val (c : ascii) : Z := Z.of_N (N_of_ascii c).

(** ** Package [fmt]: the verbs the source uses *)

Module fmt.

Definition hexdigit (n : Z) : ascii :=
  ascii_of_N (Z.to_N (if n <? 10 then 48 + n else 87 + n)).

(** [%x] of a byte slice: two lowercase hexadecimal digits per byte. *)
Fixpoint verb_x (s : string) : string :=
  match s with
  | EmptyString => EmptyString
  | String c s' =>
      String (hexdigit (byte_val c / 16)) (String (hexdigit (byte_val c mod 16)) (verb_x s'))
  end.

(** [%d] of an integer: decimal digits, a leading [-] when negative. *)
Definition verb_d (z : Z) : string := NilZero.string_of_int (Z.to_int z).

(** [fmt.Sprintf("%x+%d+%d", h, i, num)] *)
Definition Sprintf_x_d_d (h : string) (i num : Z) : string :=
  verb_x h +:+ "+" +:+ verb_d i +:+ "+" +:+ verb_d num.

(** [fmt.Sprintf("%x+%d", h, i)] *)
Definition Sprintf_x_d (h : string) (i : Z) : string :=
  verb_x h +:+ "+" +:+ verb_d i.

End fmt.

(** ** SHA-256 (FIPS 180-4), the function behind [crypto.Sha256]

    The embedding of the sortition code takes the digest as a parameter;
    this executable definition instantiates it when the code is run on
    concrete inputs. *)

Module Sha256.

Definition w32 (x : Z) : Z := x mod 2 ^ 32.
Definition rotr (n x : Z) : Z := Z.lor (Z.shiftr x n) (w32 (Z.shiftl x (32 - n))).
Definition Ch (x y z : Z) : Z := Z.lxor (Z.land x y) (Z.land (Z.lxor x (2 ^ 32 - 1)) z).
Definition Maj (x y z : Z) : Z := Z.lxor (Z.lxor (Z.land x y) (Z.land x z)) (Z.land y z).
Definition bsig0 (x : Z) : Z := Z.lxor (Z.lxor (rotr 2 x) (rotr 13 x)) (rotr 22 x).
Definition bsig1 (x : Z) : Z := Z.lxor (Z.lxor (rotr 6 x) (rotr 11 x)) (rotr 25 x).
Definition ssig0 (x : Z) : Z := Z.lxor (Z.lxor (rotr 7 x) (rotr 18 x)) (Z.shiftr x 3).
Definition ssig1 (x : Z) : Z := Z.lxor (Z.lxor (rotr 17 x) (rotr 19 x)) (Z.shiftr x 10).

(** The constants are defined the way the standard derives them, from the
    first primes: [K] holds the first 32 bits of the fractional parts of
    the cube roots of the first 64 primes, [H0] those of the square roots
    of the first 8. *)
Definition is_prime (p : Z) : bool :=
  (1 <? p) && forallb (fun d => negb (p mod d =? 0)) (List.filter (fun d => d * d <=? p) (seqZ 2 18)).

Definition primes : list Z := List.filter is_prime (seqZ 2 310).

(** The integer cube root of [n], bit by bit from bit [bits - 1] down. *)
Fixpoint cube_root (bits : nat) (n r : Z) : Z :=
  match bits with
  | O => r
  | S b =>
      let r' := r + 2 ^ Z.of_nat b in
      cube_root b n (if r' * r' * r' <=? n then r' else r)
  end.

Definition K : list Z := map (fun p => w32 (cube_root 35 (p * 2 ^ 96) 0)) primes.

Definition H0 : list Z := map (fun p => w32 (Z.sqrt (p * 2 ^ 64))) (firstn 8 primes).

(** The [n] low bytes of [x], most significant first. *)
Fixpoint be_bytes (n : nat) (x : Z) : list Z :=
  match n with
  | O => []
  | S n' => be_bytes n' (Z.shiftr x 8) ++ [x mod 256]
  end.

Definition be_word (bs : list Z) : Z := fold_left (fun acc b => acc * 256 + b) bs 0.

(** Padding: a 1 bit, zeros, and the bit length in 64 bits. *)
Definition pad (msg : list Z) : list Z :=
  let l := Z.of_nat (length msg) in
  msg ++ [0x80] ++ repeat 0 (Z.to_nat ((55 - l) mod 64)) ++ be_bytes 8 (8 * l).

Fixpoint chunks (fuel n : nat) (bs : list Z) : list (list Z) :=
  match fuel with
  | O => []
  | S fuel' =>
      match bs with
      | [] => []
      | _ => firstn n bs :: chunks fuel' n (skipn n bs)
      end
  end.

Definition words (block : list Z) : list Z := map be_word (chunks 16 4 block).

(** The message schedule, newest word first. *)
Fixpoint schedule (n : nat) (rev_w : list Z) : list Z :=
  match n with
  | O => rev_w
  | S n' =>
      let w := w32 (ssig1 (nth 1 rev_w 0) + nth 6 rev_w 0 + ssig0 (nth 14 rev_w 0) + nth 15 rev_w 0) in
      schedule n' (w :: rev_w)
  end.

Definition round (st : list Z) (kw : Z * Z) : list Z :=
  match st with
  | [a; b; c; d; e; f; g; h] =>
      let t1 := h + bsig1 e + Ch e f g + fst kw + snd kw in
      let t2 := bsig0 a + Maj a b c in
      [w32 (t1 + t2); a; b; c; w32 (d + t1); e; f; g]
  | _ => st
  end.

Definition compress (h block : list Z) : list Z :=
  let w := rev (schedule 48 (rev (words block))) in
  let st := fold_left round (combine K w) h in
  map (fun p => w32 (fst p + snd p)) (combine h st).

Definition digest (msg : list Z) : list Z :=
  let p := pad msg in
  flat_map (be_bytes 4) (fold_left compress (chunks (S (length p)) 64 p) H0).

Definition bytes_of_string (s : string) : list Z := map byte_val (list_ascii_of_string s).

Definition string_of_bytes (bs : list Z) : string :=
  string_of_list_ascii (map (fun b => ascii_of_N (Z.to_N b)) bs).

Definition Sum256 (s : string) : string := string_of_bytes (digest (bytes_of_string s)).

End Sha256.

(** ** Package [math/big], as far as the threshold test uses it

    The threshold test is
    [new(big.Float).Quo(new(big.Float).SetInt(y), fmax).Cmp(big.NewFloat(diff)) > 0].
    [SetInt] gives the float the precision of [y] (at least 64 bits), so it
    holds [y] exactly; [fmax] is [2^256] held exactly; [Quo] into a fresh
    float takes the larger precision of its operands and divides by a power
    of two, so the quotient is exact; [NewFloat] holds the binary64 exactly.
    Every [big.Float] here is therefore [mant * 2^exp] or an infinity. *)

Module big.

Inductive Float : Type :=
  | Fin (mant exp : Z)
  | Inf (neg : bool).

(** [new(big.Int).SetBytes(b)]: [b] read as a big-endian unsigned integer. *)
Definition SetBytes (b : string) : Z :=
  fold_left (fun acc c => acc * 256 + byte_val c) (list_ascii_of_string b) 0.

Definition SetInt (y : Z) : Float := Fin y 0.

(** [max = 2^256] and [fmax], its [big.Float]. *)
Definition max : Z := 2 ^ 256.
Definition fmax : Float := SetInt max.

(** [new(big.Float).Quo(z, fmax)] *)
Definition Quo_fmax (z : Float) : Float :=
  match z with
  | Fin m e => Fin m (e - 256)
  | Inf s => Inf s
  end.

(** [big.NewFloat(x)]; it panics with [ErrNaN] on a NaN ([None]). *)
Definition NewFloat (x : float) : option Float :=
  match Prim2SF x with
  | S754_nan => None
  | S754_zero _ => Some (Fin 0 0)
  | S754_infinity s => Some (Inf s)
  | S754_finite s m e => Some (Fin (if s then Z.neg m else Z.pos m) e)
  end.

(** [x.Cmp(y)] *)
Definition Cmp (x y : Float) : comparison :=
  match x, y with
  | Fin m1 e1, Fin m2 e2 =>
      let e := Z.min e1 e2 in
      (m1 * 2 ^ (e1 - e) ?= m2 * 2 ^ (e2 - e))
  | Fin _ _, Inf s => if s then Gt else Lt
  | Inf s, Fin _ _ => if s then Lt else Gt
  | Inf s1, Inf s2 =>
      match s1, s2 with
      | true, false => Lt
      | false, true => Gt
      | _, _ => Eq
      end
  end.

End big.

(** The threshold test shared by every producer and verifier:
    [y := new(big.Int).SetBytes(hash); z := new(big.Float).SetInt(y);
     new(big.Float).Quo(z, fmax).Cmp(big.NewFloat(diff)) > 0].
    [Some true] when [hash / 2^256] exceeds [diff], [None] when
    [big.NewFloat] panics. *)
Definition exceeds (hash : string) (diff : float) : option bool :=
  match big.NewFloat diff with
  | None => None
  | Some d =>
      Some (match big.Cmp (big.Quo_fmax (big.SetInt (big.SetBytes hash))) d with
            | Gt => true
            | _ => false
            end)
  end.

(** ** Package [pt]: the messages *)

(** [pt.VrfInput] *)
Record VrfInput : Type := {
  Seed : string;
  Height : Z;
  Round : Z;
  Step : Z
}.

(** [pt.HashProof]; [Input] is a pointer. *)
Record HashProof : Type := {
  Input : option VrfInput;
  Diff : float;
  VrfHash : string;
  VrfProof : string;
  Pubkey : string
}.

(** [pt.SortHash] *)
Record SortHash : Type := {
  Hash : string;
  Index : Z;
  Num : Z
}.

(** [pt.Pos33SortMsg]: its fields [SortHash] and [Proof], both pointers. *)
Record Pos33SortMsg : Type := {
  MsgSortHash : option SortHash;
  MsgProof : option HashProof
}.

(** [pt.Pos33DepositMsg], the fields the verifier reads. *)
Record Pos33DepositMsg : Type := {
  Count : Z;
  PreCount : Z;
  CloseHeight : Z
}.

(** The constants of package [pt] and of the consensus package that the
    sortition code names; their declarations are not part of the file. *)
Class Consts : Type := {
  Pos33SortBlocks : Z;
  Pos33SortitionSize : Z;
  Pos33MakerSize : Z;
  Pos33VoterSize : Z;
  Pos33ProposerSize : Z;
  Pos33RewardVotes : Z;
  calcuDiffBlockN : Z
}.

(** The library functions the sortition code calls: the digest, the
    protobuf encoding, the secp256k1 VRF and the address derivation. *)
Class Externals : Type := {
  (** [crypto.PrivKey] *)
  PrivKey : Type;
  (** a parsed secp256k1 public key *)
  PubKey : Type;
  (** [crypto.Sha256] *)
  crypto_Sha256 : string -> string;
  (** [types.Encode] of a [pt.VrfInput] *)
  types_Encode : VrfInput -> string;
  (** [secp256k1.PrivKeyFromBytes(secp256k1.S256(), priv.Bytes())] followed
      by [vrfPriv.Evaluate(in)]: the VRF hash and its proof *)
  vrf_Evaluate : PrivKey -> string -> string * string;
  (** [priv.PubKey().Bytes()] *)
  PubKey_Bytes : PrivKey -> string;
  (** [secp256k1.ParsePubKey(pub, secp256k1.S256())], [None] on an error *)
  secp256k1_ParsePubKey : string -> option PubKey;
  (** [vrfPub.ProofToHash(input, proof)], [None] on an error *)
  vrf_ProofToHash : PubKey -> string -> string -> option string;
  (** [address.PubKeyToAddr] *)
  address_PubKeyToAddr : string -> string
}.

(** ** Errors and results *)

(** The errors [verifySort] returns: [pt.ErrVrfVerify], [errDiff], the
    four [fmt.Errorf] values (["verifySort error: sort msg is nil"],
    ["sort index %d > %d your count, ..."], ["sort number > 3"],
    ["sort hash error"]) and the error of the deposit query, passed on
    unchanged. *)
Inductive error : Type :=
  | ErrVrfVerify
  | errDiff
  | InvalidSortMsg
  | InvalidIndex
  | InvalidNum
  | HashMismatch
  | DepositLookup (e : string).

(** What a call of the verifier ends in. *)
Inductive outcome : Type :=
  | Ok
  | Err (e : error)
  | Panics.

(** A producer returns its value or panics: [big.NewFloat] does on a NaN,
    a slice expression out of range, a nil pointer dereferenced. *)
Inductive result (A : Type) : Type :=
  | Ret (a : A)
  | Panic.

Arguments Ret {A} a.
Arguments Panic {A}.

(** The calls out of [verifySort], in the order it makes them. *)
Inductive Call : Type :=
  | CallQueryDeposit (addr : string)
  | CallVrfVerify (pub input proof hash : string)
  | CallHash2 (data : string)
  | CallThreshold (hash : string) (diff : float).

Definition logged (c : Call) (r : list Call * outcome) : list Call * outcome :=
  (c :: fst r, snd r).

(** [string(a) > string(b)] on byte slices: unsigned lexicographic order. *)
Definition string_gt (a b : string) : bool :=
  match String.compare a b with
  | Gt => true
  | _ => false
  end.

(** ** What both revisions share *)

Section Shared.
Context {ext : Externals}.

(** [hash2] *)
Definition hash2 (data : string) : string := crypto_Sha256 (crypto_Sha256 data).

(** [calcuVrfHash] *)
Definition calcuVrfHash (input : VrfInput) (priv : PrivKey) : string * string :=
  let in_ := types_Encode input in
  vrf_Evaluate priv in_.

(** [vrfVerify]; [None] is the nil error. *)
Definition vrfVerify (pub input proof hash : string) : option error :=
  match secp256k1_ParsePubKey pub with
  | None => Some ErrVrfVerify
  | Some vrfPub =>
      match vrf_ProofToHash vrfPub input proof with
      | None => Some ErrVrfVerify
      | Some vrfHash =>
          if negb (String.eqb vrfHash hash) then Some ErrVrfVerify else None
      end
  end.

End Shared.

(** The ticket count both verifiers resolve from the deposit [d]:
    [count := d.Count; if d.CloseHeight >= height-delay { count = d.PreCount }],
    where [delay] is [pt.Pos33SortBlocks] in the first revision and
    [pt.Pos33SortitionSize] in the second. *)
Definition resolveCount (delay height : Z) (d : Pos33DepositMsg) : Z :=
  if CloseHeight d >=? int64 (height - delay) then PreCount d else Count d.

(** A [for] loop over [xs] that threads the state [s] and stops at a panic. *)
Fixpoint loop {S A : Type} (body : S -> A -> result S) (xs : list A) (s : S) : result S :=
  match xs with
  | [] => Ret s
  | x :: xs' =>
      match body s x with
      | Panic => Panic
      | Ret s' => loop body xs' s'
      end
  end.

(** The key [pt.Sorts] orders by, [m.SortHash.Hash]; every message the
    producers sort carries a [SortHash]. *)
Definition sortKey (m : Pos33SortMsg) : string :=
  match MsgSortHash m with
  | Some sh => Hash sh
  | None => EmptyString
  end.

(** Modelled from the spec: the declaration of [pt.Sorts] is not part of the
    file; "sort by [sort_hash] lexicographically ascending" makes its
    [Less] the unsigned byte order of [SortHash.Hash]. *)
Definition Sorts_le (a b : Pos33SortMsg) : Prop :=
  String.leb (sortKey a) (sortKey b) = true.

(** ** First revision: [voterSort], [makerSort], [verifySort], [getMakerSorts] *)

Module Rev1.
Section Defs.
Context {ext : Externals} {consts : Consts}.

(** [sort.Sort(pt.Sorts(msgs))]: [msgs] rearranged into ascending order.
    [sort.Sort] is not stable, so the embedding takes the sorting function
    as a parameter; the theorems that depend on it assume what the library
    promises, a sorted permutation. *)
Variable sort_Sort : list Pos33SortMsg -> list Pos33SortMsg.

(** The node, as far as the sortition code reads it.  [myCount],
    [getPriv], [getDiff], [getSortSeed] and [checkSort] are methods defined
    outside the file, [Query] stands for
    [n.GetAPI().Query(pt.Pos33TicketX, "Pos33Deposit", &types.ReqAddr{Addr: addr})]
    ([inl] its error), and [cms] is the table of candidate maker sorts by
    height, round and slot. *)
Record node : Type := {
  myCount : Z;
  getPriv : option PrivKey;
  getDiff : Z -> Z -> float;
  Query : string -> string + Pos33DepositMsg;
  getSortSeed : Z -> string + string;
  checkSort : Pos33SortMsg -> string -> Z -> option error;
  cms : gmap Z (gmap Z (gmap Z (list (option Pos33SortMsg))))
}.

(** [address.PubKeyToAddr(proof.Pubkey)[:16]], an argument of the
    [plog.Info] call that ends [voterSort] and [makerSort]: the slice
    expression panics when the address has fewer than 16 bytes. *)
Definition logAddr (proof : HashProof) : result string :=
  let addr := address_PubKeyToAddr (Pubkey proof) in
  if (String.length addr <? 16)%nat then Panic else Ret (substring 0 16 addr).

(** The body of the ticket loop of [voterSort], for ticket [i]. *)
Definition voterSort_body (vrfHash : string) (proof : HashProof) (num : Z) (diff : float)
    (msgs : list Pos33SortMsg) (i : Z) : result (list Pos33SortMsg) :=
  let data := fmt.Sprintf_x_d_d vrfHash i num in
  let hash := hash2 data in
  match exceeds hash diff with
  | None => Panic
  | Some true => Ret msgs
  | Some false =>
      let m := {| MsgSortHash := Some {| Hash := hash; Index := i; Num := int32 num |};
                  MsgProof := Some proof |} in
      Ret (msgs ++ [m])
  end.

(** [voterSort]; a nil slice is the empty list.  [msgs[:pt.Pos33RewardVotes]]
    needs a constant that is not negative to compile.  The log call before
    the last [return] evaluates [logAddr]. *)
Definition voterSort (n : node) (seed : string) (height round num : Z) (diff : float)
    : result (list (option Pos33SortMsg)) :=
  let count := myCount n in
  match getPriv n with
  | None => Ret []
  | Some priv =>
      let diff := (diff * (float64 Pos33VoterSize / float64 Pos33MakerSize))%float in
      let input := {| Seed := seed; Height := height; Round := int32 round; Step := int32 1 |} in
      let (vrfHash, vrfProof) := calcuVrfHash input priv in
      let proof := {| Input := Some input; Diff := diff; VrfHash := vrfHash;
                      VrfProof := vrfProof; Pubkey := PubKey_Bytes priv |} in
      match loop (voterSort_body vrfHash proof num diff) (seqZ 0 count) [] with
      | Panic => Panic
      | Ret msgs =>
          if Z.of_nat (length msgs) =? 0 then Ret []
          else
            let msgs := if Z.of_nat (length msgs) >? Pos33RewardVotes
                        then take (Z.to_nat Pos33RewardVotes) (sort_Sort msgs)
                        else msgs in
            match logAddr proof with
            | Panic => Panic
            | Ret _ => Ret (Some <$> msgs)
            end
      end
  end.

(** The body of the inner loop of [makerSort], for trial [j] and ticket [i]. *)
Definition makerSort_body (vrfHash : string) (proof : HashProof) (diff : float) (j : Z)
    (minSort : option Pos33SortMsg) (i : Z) : result (option Pos33SortMsg) :=
  let data := fmt.Sprintf_x_d_d vrfHash i j in
  let hash := hash2 data in
  match exceeds hash diff with
  | None => Panic
  | Some true => Ret minSort
  | Some false =>
      let m := {| MsgSortHash := Some {| Hash := hash; Index := i; Num := int32 j |};
                  MsgProof := Some proof |} in
      let minSort := match minSort with None => m | Some cur => cur end in
      match MsgSortHash minSort with
      | Some sh => Ret (Some (if string_gt (Hash sh) hash then m else minSort))
      | None => Panic
      end
  end.

(** [makerSort]: the slice it returns always has one element, [minSort].
    The log call before the [return] evaluates [logAddr]. *)
Definition makerSort (n : node) (seed : string) (height round : Z)
    : result (list (option Pos33SortMsg)) :=
  let count := myCount n in
  match getPriv n with
  | None => Ret []
  | Some priv =>
      let diff := getDiff n height round in
      let input := {| Seed := seed; Height := height; Round := int32 round; Step := int32 0 |} in
      let (vrfHash, vrfProof) := calcuVrfHash input priv in
      let proof := {| Input := Some input; Diff := diff; VrfHash := vrfHash;
                      VrfProof := vrfProof; Pubkey := PubKey_Bytes priv |} in
      match loop (fun minSort j => loop (makerSort_body vrfHash proof diff j) (seqZ 0 count) minSort)
                 (seqZ 0 3) None with
      | Panic => Panic
      | Ret minSort =>
          match logAddr proof with
          | Panic => Panic
          | Ret _ => Ret [minSort]
          end
      end
  end.

(** [queryDeposit] *)
Definition queryDeposit (n : node) (addr : string) : string + Pos33DepositMsg :=
  match Query n addr with
  | inl err => inl err
  | inr reply => inr reply
  end.

(** [verifySort], with the calls it makes on the way. *)
Definition verifySort_run (n : node) (height step : Z) (seed : string) (m : option Pos33SortMsg)
    : list Call * outcome :=
  if height <=? Pos33SortBlocks then ([], Ok)
  else
    match m with
    | Some {| MsgSortHash := Some sh; MsgProof := Some p |} =>
        match Input p with
        | None => ([], Err InvalidSortMsg)
        | Some inp =>
            let addr := address_PubKeyToAddr (Pubkey p) in
            logged (CallQueryDeposit addr)
              match queryDeposit n addr with
              | inl err => ([], Err (DepositLookup err))
              | inr d =>
                  let count := resolveCount Pos33SortBlocks height d in
                  if count <=? Index sh then ([], Err InvalidIndex)
                  else
                    let round := Round inp in
                    let input := {| Seed := seed; Height := height; Round := round;
                                    Step := int32 step |} in
                    let in_ := types_Encode input in
                    logged (CallVrfVerify (Pubkey p) in_ (VrfProof p) (VrfHash p))
                      match vrfVerify (Pubkey p) in_ (VrfProof p) (VrfHash p) with
                      | Some err => ([], Err err)
                      | None =>
                          if (Num sh >=? 3) || (Num sh <? 0) then ([], Err InvalidNum)
                          else
                            let data := fmt.Sprintf_x_d_d (VrfHash p) (Index sh) (Num sh) in
                            logged (CallHash2 data)
                              (let hash := hash2 data in
                               if negb (String.eqb hash (Hash sh)) then ([], Err HashMismatch)
                               else
                                 logged (CallThreshold hash (Diff p))
                                   match exceeds hash (Diff p) with
                                   | None => ([], Panics)
                                   | Some true => ([], Err errDiff)
                                   | Some false => ([], Ok)
                                   end)
                      end
              end
        end
    | _ => ([], Err InvalidSortMsg)
    end.

Definition verifySort (n : node) (height step : Z) (seed : string) (m : option Pos33SortMsg)
    : outcome :=
  snd (verifySort_run n height step seed m).

(** The body of the candidate loop of [getMakerSorts]. *)
Definition getMakerSorts_body (n : node) (seed : string)
    (minSort : option Pos33SortMsg) (s : option Pos33SortMsg) : result (option Pos33SortMsg) :=
  match s with
  | None => Ret minSort
  | Some s' =>
      match checkSort n s' seed 0 with
      | Some _ => Ret minSort
      | None =>
          let minSort := match minSort with None => s' | Some cur => cur end in
          match MsgSortHash minSort, MsgSortHash s' with
          | Some a, Some b => Ret (Some (if string_gt (Hash a) (Hash b) then s' else minSort))
          | _, _ => Panic
          end
      end
  end.

(** [getMakerSorts].  The loop over the three slots looks [n.cms[height]]
    and [n.cms[height][round]] up anew for every slot and returns nil when
    one is absent; nothing changes the table meanwhile, so the first slot
    decides.  A slot absent from the table has no candidate. *)
Definition getMakerSorts (n : node) (height round : Z) : result (list (option Pos33SortMsg)) :=
  let sortHeight := int64 (height - Pos33SortBlocks) in
  match getSortSeed n sortHeight with
  | inl _ => Ret []
  | inr seed =>
      match cms n !! height with
      | None => Ret []
      | Some rounds =>
          match rounds !! round with
          | None => Ret []
          | Some slots =>
              loop (fun pss i =>
                      match loop (getMakerSorts_body n seed) (default [] (slots !! i)) None with
                      | Panic => Panic
                      | Ret minSort => Ret (pss ++ [minSort])
                      end)
                   (seqZ 0 3) []
          end
      end
  end.

End Defs.
End Rev1.

(** ** Second revision: [sort], [calcDiff], [verifySort], [bp] *)

Module Rev2.
Section Defs.
Context {ext : Externals} {consts : Consts}.

(** [sort.Sort(pt.Sorts(msgs))], as in the first revision. *)
Variable sort_Sort : list Pos33SortMsg -> list Pos33SortMsg.

(** The order in which a [range] over the map [pss] of [bp] visits its
    entries: Go leaves it unspecified, the theorems assume only that every
    entry is visited once. *)
Variable range_pss : gmap string Pos33SortMsg -> list (string * Pos33SortMsg).

(** The node of this revision: [nvsMap] holds the votes seen at recent
    heights, [allCount], [getSortSeed] and [checkSort] are methods defined
    outside the file, and [cps] is the table of candidate proposers by
    height and round. *)
Record node : Type := {
  myCount : Z;
  getPriv : option PrivKey;
  nvsMap : gmap Z Z;
  Query : string -> string + Pos33DepositMsg;
  getSortSeed : Z -> string + string;
  allCount : Z -> Z;
  checkSort : option Pos33SortMsg -> string -> Z -> Z -> option error;
  cps : gmap Z (gmap Z (list (option Pos33SortMsg)))
}.

(** [changeDiff] *)
Definition changeDiff (size round : Z) : Z := size.

(** The sum [l] of the loop [for _, n := range n.nvsMap { l += n }]. *)
Definition sumVotes (m : gmap Z Z) : Z :=
  map_fold (fun _ v l => int64 (l + v)) 0 m.

(** [calcDiff] *)
Definition calcDiff (n : node) (step allw round : Z) : float :=
  let size := if step =? 0 then Pos33ProposerSize else Pos33VoterSize in
  let onlineR :=
    if Z.of_nat (base.size (nvsMap n)) >=? calcuDiffBlockN
    then
      let l := sumVotes (nvsMap n) in
      (float64 l / float64 (Z.of_nat (base.size (nvsMap n))) / float64 Pos33RewardVotes)%float
    else 1%float in
  (float64 size / float64 allw / onlineR)%float.

(** The state of the ticket loop of [sort]: [msgs], [minHash] (nil at
    first) and [index]. *)
Record sortState : Type := {
  msgs : list Pos33SortMsg;
  minHash : option string;
  index : Z
}.

(** The body of the ticket loop of [sort], for ticket [i]. *)
Definition sort_body (vrfHash : string) (proof : HashProof) (diff : float)
    (st : sortState) (i : Z) : result sortState :=
  let data := fmt.Sprintf_x_d vrfHash i in
  let hash := hash2 data in
  match exceeds hash diff with
  | None => Panic
  | Some true => Ret st
  | Some false =>
      let cur := match minHash st with None => hash | Some h => h end in
      let m := {| MsgSortHash := Some {| Hash := hash; Index := i; Num := 0 |};
                  MsgProof := Some proof |} in
      if string_gt cur hash
      then Ret {| msgs := msgs st ++ [m]; minHash := Some hash;
                  index := Z.of_nat (length (msgs st)) |}
      else Ret {| msgs := msgs st ++ [m]; minHash := Some cur; index := index st |}
  end.

(** [sort]; the proof it attaches leaves [Diff] at its zero value.
    [msgs[index]] is always within the slice: [index] is the position the
    message of the smallest hash is appended at. *)
Definition sort (n : node) (seed : string) (height round step allw : Z)
    : result (list (option Pos33SortMsg)) :=
  let count := myCount n in
  if allw <? count then Ret []
  else
    match getPriv n with
    | None => Ret []
    | Some priv =>
        let input := {| Seed := seed; Height := height; Round := int32 round;
                        Step := int32 step |} in
        let (vrfHash, vrfProof) := calcuVrfHash input priv in
        let proof := {| Input := Some input; Diff := 0%float; VrfHash := vrfHash;
                        VrfProof := vrfProof; Pubkey := PubKey_Bytes priv |} in
        let diff := calcDiff n step allw round in
        match loop (sort_body vrfHash proof diff) (seqZ 0 count)
                   {| msgs := []; minHash := None; index := 0 |} with
        | Panic => Panic
        | Ret st =>
            if Z.of_nat (length (msgs st)) =? 0 then Ret []
            else if step =? 0 then Ret [msgs st !! Z.to_nat (index st)]
            else
              let sorted := sort_Sort (msgs st) in
              let c := Pos33VoterSize in
              if Z.of_nat (length sorted) >? c then Ret (Some <$> take (Z.to_nat c) sorted)
              else Ret (Some <$> sorted)
        end
    end.

(** [queryDeposit] *)
Definition queryDeposit (n : node) (addr : string) : string + Pos33DepositMsg :=
  match Query n addr with
  | inl err => inl err
  | inr reply => inr reply
  end.

(** [verifySort] of this revision, with the calls it makes on the way. *)
Definition verifySort_run (n : node) (height step allw : Z) (seed : string)
    (m : option Pos33SortMsg) : list Call * outcome :=
  if height <=? Pos33SortitionSize then ([], Ok)
  else
    match m with
    | Some {| MsgSortHash := Some sh; MsgProof := Some p |} =>
        match Input p with
        | None => ([], Err InvalidSortMsg)
        | Some inp =>
            let round := Round inp in
            let diff := calcDiff n step allw round in
            let addr := address_PubKeyToAddr (Pubkey p) in
            logged (CallQueryDeposit addr)
              match queryDeposit n addr with
              | inl err => ([], Err (DepositLookup err))
              | inr d =>
                  let count := resolveCount Pos33SortitionSize height d in
                  if count <=? Index sh then ([], Err InvalidIndex)
                  else
                    let input := {| Seed := seed; Height := height; Round := round;
                                    Step := int32 step |} in
                    let in_ := types_Encode input in
                    logged (CallVrfVerify (Pubkey p) in_ (VrfProof p) (VrfHash p))
                      match vrfVerify (Pubkey p) in_ (VrfProof p) (VrfHash p) with
                      | Some err => ([], Err err)
                      | None =>
                          let data := fmt.Sprintf_x_d (VrfHash p) (Index sh) in
                          logged (CallHash2 data)
                            (let hash := hash2 data in
                             if negb (String.eqb hash (Hash sh)) then ([], Err HashMismatch)
                             else
                               logged (CallThreshold hash diff)
                                 match exceeds hash diff with
                                 | None => ([], Panics)
                                 | Some true => ([], Err errDiff)
                                 | Some false => ([], Ok)
                                 end)
                      end
              end
        end
    | _ => ([], Err InvalidSortMsg)
    end.

Definition verifySort (n : node) (height step allw : Z) (seed : string)
    (m : option Pos33SortMsg) : outcome :=
  snd (verifySort_run n height step allw seed m).

(** The body of the first loop of [bp]: a candidate that passes [checkSort]
    is stored under its sort hash, over any earlier one with that hash. *)
Definition bp_collect (n : node) (seed : string) (allw : Z)
    (pss : gmap string Pos33SortMsg) (s : option Pos33SortMsg)
    : result (gmap string Pos33SortMsg) :=
  match checkSort n s seed allw 0 with
  | Some _ => Ret pss
  | None =>
      match s with
      | Some s' =>
          match MsgSortHash s' with
          | Some sh => Ret (<[Hash sh := s']> pss)
          | None => Panic
          end
      | None => Panic
      end
  end.

(** The body of the second loop of [bp]: the empty string marks "no
    minimum yet". *)
Definition bp_min (acc : string * option Pos33SortMsg) (e : string * Pos33SortMsg)
    : string * option Pos33SortMsg :=
  if String.eqb (fst acc) "" then (fst e, Some (snd e))
  else if string_gt (fst acc) (fst e) then (fst e, Some (snd e))
  else acc.

(** [bp]: the winning sort hash and the public key of its message; both
    are empty when there is no winner. *)
Definition bp (n : node) (height round : Z) : result (string * string) :=
  let sortHeight := int64 (height - Pos33SortitionSize) in
  match getSortSeed n sortHeight with
  | inl _ => Ret ("", "")
  | inr seed =>
      let allw := allCount n sortHeight in
      let cands := default [] (default ∅ (cps n !! height) !! round) in
      match loop (bp_collect n seed allw) cands ∅ with
      | Panic => Panic
      | Ret pss =>
          if Z.of_nat (size pss) =? 0 then Ret ("", "")
          else
            match fold_left bp_min (range_pss pss) ("", None) with
            | (min, Some {| MsgProof := Some p |}) => Ret (min, Pubkey p)
            | _ => Panic
            end
      end
  end.

End Defs.
End Rev2.

(** ** A concrete setting to run the code in

    The digest is SHA-256 itself.  The VRF is a stand-in with the interface
    of the secp256k1 one (the proof of a key is the key, its hash the
    digest of key and input), the encoding of a [VrfInput] joins its
    fields with [|], and the address of a key is the key behind a prefix of
    17 bytes; they are only used to execute the code above. *)

Module Demo.

Definition ext : Externals := {|
  PrivKey := string;
  PubKey := string;
  crypto_Sha256 := Sha256.Sum256;
  types_Encode := fun i =>
    Seed i +:+ "|" +:+ fmt.verb_d (Height i) +:+ "|" +:+ fmt.verb_d (Round i)
           +:+ "|" +:+ fmt.verb_d (Step i);
  vrf_Evaluate := fun priv in_ => (Sha256.Sum256 (priv +:+ in_), priv);
  PubKey_Bytes := fun priv => priv;
  secp256k1_ParsePubKey := fun pub => Some pub;
  vrf_ProofToHash := fun pub in_ proof =>
    if String.eqb pub proof then Some (Sha256.Sum256 (proof +:+ in_)) else None;
  address_PubKeyToAddr := fun pub => "pos33 address of " +:+ pub
|}.

(** Constants: a delay of 10 blocks, a window of 5 heights, and the sizes
    given. *)
Definition consts (maker voter proposer reward : Z) : Consts := {|
  Pos33SortBlocks := 10;
  Pos33SortitionSize := 10;
  Pos33MakerSize := maker;
  Pos33VoterSize := voter;
  Pos33ProposerSize := proposer;
  Pos33RewardVotes := reward;
  calcuDiffBlockN := 5
|}.

(** Insertion sort by [SortHash.Hash], one of the orders [sort.Sort] may
    produce. *)
Fixpoint insert_msg (m : Pos33SortMsg) (l : list Pos33SortMsg) : list Pos33SortMsg :=
  match l with
  | [] => [m]
  | x :: l' =>
      if String.leb (sortKey m) (sortKey x) then m :: l else x :: insert_msg m l'
  end.

Definition insertion_sort (l : list Pos33SortMsg) : list Pos33SortMsg :=
  fold_right insert_msg [] l.

(** A deposit of [count] tickets that was never closed. *)
Definition deposit (count : Z) : Pos33DepositMsg :=
  {| Count := count; PreCount := 0; CloseHeight := 0 |}.

(** A node of the first revision holding the key ["k"] and [count]
    tickets, with difficulty [diff], whose deposit query answers
    [deposit count], whose [checkSort] accepts every message and whose
    table is [table]. *)
Definition node1 (count : Z) (diff : float)
    (table : gmap Z (gmap Z (gmap Z (list (option Pos33SortMsg))))) : @Rev1.node ext :=
  @Rev1.Build_node ext count (Some "k"%string) (fun _ _ => diff)
    (fun _ => inr (deposit count)) (fun _ => inr "seed"%string) (fun _ _ _ => None) table.

(** A node of the second revision, likewise, with the recent votes [votes]
    and the candidates [table]. *)
Definition node2 (count : Z) (votes : gmap Z Z)
    (table : gmap Z (gmap Z (list (option Pos33SortMsg)))) : @Rev2.node ext :=
  @Rev2.Build_node ext count (Some "k"%string) votes
    (fun _ => inr (deposit count)) (fun _ => inr "seed"%string) (fun _ => count)
    (fun _ _ _ _ => None) table.

(** Votes seen at five recent heights, three in all. *)
Definition votes : gmap Z Z := <[1:=1]> (<[2:=1]> (<[3:=1]> (<[4:=0]> (<[5:=0]> ∅)))).

(** A table of the first revision holding [cands] in slot 0 of height 100,
    round 0. *)
Definition table1 (cands : list (option Pos33SortMsg))
    : gmap Z (gmap Z (gmap Z (list (option Pos33SortMsg)))) :=
  {[ 100 := {[ 0 := {[ 0 := cands ]} ]} ]}.

(** The message [m] with the declared difficulty replaced by [diff]. *)
Definition redeclare (m : Pos33SortMsg) (diff : float) : Pos33SortMsg :=
  {| MsgSortHash := MsgSortHash m;
     MsgProof := match MsgProof m with
                 | Some p => Some {| Input := Input p; Diff := diff; VrfHash := VrfHash p;
                                     VrfProof := VrfProof p; Pubkey := Pubkey p |}
                 | None => None
                 end |}.

(** A candidate with the sort hash [h] for ticket [i], from the key [pub]. *)
Definition candidate (h : string) (i : Z) (pub : string) : Pos33SortMsg :=
  {| MsgSortHash := Some {| Hash := h; Index := i; Num := 0 |};
     MsgProof := Some {| Input := None; Diff := 0; VrfHash := ""; VrfProof := "";
                         Pubkey := pub |} |}.

(** A table of the second revision holding [cands] at height 100, round 0. *)
Definition table2 (cands : list (option Pos33SortMsg))
    : gmap Z (gmap Z (list (option Pos33SortMsg))) :=
  {[ 100 := {[ 0 := cands ]} ]}.

(** The concrete setting with the key itself as its address: an address of
    fewer than 16 bytes for a short key. *)
Definition bare : Externals := {|
  PrivKey := string;
  PubKey := string;
  crypto_Sha256 := @crypto_Sha256 Demo.ext;
  types_Encode := @types_Encode Demo.ext;
  vrf_Evaluate := @vrf_Evaluate Demo.ext;
  PubKey_Bytes := @PubKey_Bytes Demo.ext;
  secp256k1_ParsePubKey := @secp256k1_ParsePubKey Demo.ext;
  vrf_ProofToHash := @vrf_ProofToHash Demo.ext;
  address_PubKeyToAddr := fun pub => pub
|}.

End Demo.

(** ** Notions the properties are stated with *)

(** What the VRF library promises (property 1 of the specification): the
    proof [Evaluate] returns is accepted under the public key of the
    evaluating key and yields the same hash. *)
Definition vrf_correct {ext : Externals} : Prop :=
  forall (priv : PrivKey) (in_ : string),
    exists pub : PubKey,
      secp256k1_ParsePubKey (PubKey_Bytes priv) = Some pub /\
      vrf_ProofToHash pub in_ (snd (vrf_Evaluate priv in_)) = Some (fst (vrf_Evaluate priv in_)).

(** What [sort.Sort] promises of [pt.Sorts]: the same messages, in
    ascending order of their sort hash. *)
Definition sort_contract (sort_Sort : list Pos33SortMsg -> list Pos33SortMsg) : Prop :=
  forall l, sort_Sort l ≡ₚ l /\ Sorted Sorts_le (sort_Sort l).

(** A ticket whose hash is [hash] is selected under [diff]: the threshold
    test runs and does not exceed. *)
Definition selected (hash : string) (diff : float) : bool :=
  match exceeds hash diff with
  | Some false => true
  | _ => false
  end.

(** The range of [num] the specification gives for a step: [0,3) for a
    maker message (step 0), [0, K_reward) for a voter message. *)
Definition spec_legal_num {consts : Consts} (step num : Z) : bool :=
  (0 <=? num) && (num <? (if step =? 0 then 3 else Pos33RewardVotes)).

(** The running minimum both [makerSort] and [getMakerSorts] keep:
    [if minSort == nil { minSort = x }; if key(minSort) > key(x) { minSort = x }]. *)
Definition keep_min {X : Type} (key : X -> string) (minSort : option X) (x : X) : option X :=
  Some (match minSort with
        | None => x
        | Some cur => if string_gt (key cur) (key x) then x else cur
        end).

(** The message [voterSort] builds for ticket [i], and [makerSort] for
    trial [num] and ticket [i]. *)
Definition ticket_msg {ext : Externals} (vrfHash : string) (proof : HashProof) (num i : Z)
    : Pos33SortMsg :=
  {| MsgSortHash := Some {| Hash := hash2 (fmt.Sprintf_x_d_d vrfHash i num); Index := i;
                            Num := int32 num |};
     MsgProof := Some proof |}.

(** The proof envelope a producer attaches: the input, the difficulty it
    declares, and the VRF output of its key on the encoded input. *)
Definition producerProof {ext : Externals} (priv : PrivKey) (input : VrfInput) (diff : float)
    : HashProof :=
  {| Input := Some input; Diff := diff;
     VrfHash := fst (calcuVrfHash input priv); VrfProof := snd (calcuVrfHash input priv);
     Pubkey := PubKey_Bytes priv |}.

(** The tickets of [0, count) selected under [diff] for the slot or trial
    [num], in ticket order. *)
Definition selectedTickets {ext : Externals} (vrfHash : string) (num : Z) (diff : float)
    (count : Z) : list Z :=
  List.filter (fun i => selected (hash2 (fmt.Sprintf_x_d_d vrfHash i num)) diff) (seqZ 0 count).

(** The difficulty [voterSort] works with and declares:
    [diff *= float64(pt.Pos33VoterSize) / float64(pt.Pos33MakerSize)]. *)
Definition voterDiff {consts : Consts} (diff : float) : float :=
  (diff * (float64 Pos33VoterSize / float64 Pos33MakerSize))%float.

(** The messages of the second revision carry no [Num]: the message [sort]
    builds for ticket [i]. *)
Definition ticket_msg2 {ext : Externals} (vrfHash : string) (proof : HashProof) (i : Z)
    : Pos33SortMsg :=
  {| MsgSortHash := Some {| Hash := hash2 (fmt.Sprintf_x_d vrfHash i); Index := i; Num := 0 |};
     MsgProof := Some proof |}.

(** The tickets of [0, count) that [sort] selects under [diff]. *)
Definition selectedTickets2 {ext : Externals} (vrfHash : string) (diff : float) (count : Z)
    : list Z :=
  List.filter (fun i => selected (hash2 (fmt.Sprintf_x_d vrfHash i)) diff) (seqZ 0 count).

(** [out] holds exactly the [k] entries of [sel] with the smallest sort
    hashes, in ascending order. *)
Definition smallest_of (k : nat) (sel out : list Pos33SortMsg) : Prop :=
  length out = k /\ Sorted Sorts_le out /\
  exists rest, sel ≡ₚ out ++ rest /\ forall a b, a ∈ out -> b ∈ rest -> Sorts_le a b.

(** The sum of the vote counts a map of recent heights holds. *)
Definition total_votes (votes : gmap Z Z) : Z :=
  map_fold (fun _ v l => l + v) 0 votes.

(** The online rate as the specification writes it: 1.0 below the window,
    and (sum of vote counts) / (window size * K_reward) once the map holds
    [DiffWindow] entries. *)
Definition spec_online_rate {consts : Consts} (votes : gmap Z Z) : float :=
  if Z.of_nat (size votes) >=? calcuDiffBlockN
  then (float64 (total_votes votes) / float64 (Z.of_nat (size votes) * Pos33RewardVotes))%float
  else 1%float.

(** The difficulty as the specification writes it:
    target_size / total_weight / online_rate. *)
Definition spec_diff {consts : Consts} (step allw : Z) (votes : gmap Z Z) : float :=
  let target_size := if step =? 0 then Pos33ProposerSize else Pos33VoterSize in
  (float64 target_size / float64 allw / spec_online_rate votes)%float.

(** The canonical pre-image as the specification writes it:
    lowercase_hex(vrf_hash) + "+" + decimal(index) + "+" + decimal(num). *)
Definition hex_digits : string := "0123456789abcdef".

Definition hex_char (n : nat) : ascii :=
  match String.get n hex_digits with
  | Some c => c
  | None => "0"%char
  end.

Fixpoint lowercase_hex (b : string) : string :=
  match b with
  | EmptyString => EmptyString
  | String c b' =>
      String (hex_char (nat_of_ascii c / 16))
             (String (hex_char (nat_of_ascii c mod 16)) (lowercase_hex b'))
  end.

Definition decimal (z : Z) : string := NilZero.string_of_int (Z.to_int z).

Definition canonical_string (vrf_hash : string) (index num : Z) : string :=
  lowercase_hex vrf_hash +:+ "+" +:+ decimal index +:+ "+" +:+ decimal num.

(** The pre-image of the second revision: no [num]. *)
Definition canonical_string2 (vrf_hash : string) (index : Z) : string :=
  lowercase_hex vrf_hash +:+ "+" +:+ decimal index.

(** The fields of a string that [+] separates. *)
Fixpoint fields (s : string) : list string :=
  match s with
  | EmptyString => [EmptyString]
  | String c s' =>
      if Ascii.eqb c "+" then EmptyString :: fields s'
      else
        match fields s' with
        | f :: fs => String c f :: fs
        | [] => [String c EmptyString]
        end
  end.

(** No character of [s] is [+]. *)
Fixpoint no_plus (s : string) : bool :=
  match s with
  | EmptyString => true
  | String c s' => negb (Ascii.eqb c "+") && no_plus s'
  end.

(** The candidates of a slot that [getMakerSorts] compares: those that are
    not nil and that [checkSort] accepts, in the order of the slot. *)
Definition passing1 {ext : Externals} (n : Rev1.node) (seed : string)
    (cands : list (option Pos33SortMsg)) : list Pos33SortMsg :=
  omap (fun s => match s with
                 | Some s' => match Rev1.checkSort n s' seed 0 with
                              | None => Some s'
                              | Some _ => None
                              end
                 | None => None
                 end) cands.

(** The candidates [bp] stores: those [checkSort] accepts. *)
Definition passing2 {ext : Externals} (n : Rev2.node) (seed : string) (allw : Z)
    (cands : list (option Pos33SortMsg)) : list (option Pos33SortMsg) :=
  List.filter (fun s => match Rev2.checkSort n s seed allw 0 with
                        | None => true
                        | Some _ => false
                        end) cands.

(** The candidates of a height and round in the table of the second
    revision. *)
Definition candidates2 {ext : Externals} (n : Rev2.node) (height round : Z)
    : list (option Pos33SortMsg) :=
  default [] (default ∅ (Rev2.cps n !! height) !! round).

(** The public key of a message, empty when it has no proof. *)
Definition msgPubkey (m : Pos33SortMsg) : string :=
  match MsgProof m with
  | Some p => Pubkey p
  | None => EmptyString
  end.

(** A complete message reaches the threshold test of the first verifier:
    the height is past the genesis window and every check before the test
    passes. *)
Definition reaches_threshold1 {ext : Externals} {consts : Consts} (n : Rev1.node)
    (height step : Z) (seed : string) (sh : SortHash) (p : HashProof) : Prop :=
  Pos33SortBlocks < height /\
  exists inp d,
    Input p = Some inp /\
    Rev1.queryDeposit n (address_PubKeyToAddr (Pubkey p)) = inr d /\
    Index sh < resolveCount Pos33SortBlocks height d /\
    vrfVerify (Pubkey p)
      (types_Encode {| Seed := seed; Height := height; Round := Round inp; Step := int32 step |})
      (VrfProof p) (VrfHash p) = None /\
    0 <= Num sh < 3 /\
    Hash sh = hash2 (fmt.Sprintf_x_d_d (VrfHash p) (Index sh) (Num sh)).

(** The same for the second verifier, whose message has the input [inp]. *)
Definition reaches_threshold2 {ext : Externals} {consts : Consts} (n : Rev2.node)
    (height step : Z) (seed : string) (sh : SortHash) (p : HashProof) (inp : VrfInput) : Prop :=
  Pos33SortitionSize < height /\
  Input p = Some inp /\
  exists d,
    Rev2.queryDeposit n (address_PubKeyToAddr (Pubkey p)) = inr d /\
    Index sh < resolveCount Pos33SortitionSize height d /\
    vrfVerify (Pubkey p)
      (types_Encode {| Seed := seed; Height := height; Round := Round inp; Step := int32 step |})
      (VrfProof p) (VrfHash p) = None /\
    Hash sh = hash2 (fmt.Sprintf_x_d (VrfHash p) (Index sh)).

(** The first test of [verifySort] past the genesis window:
    [m == nil || m.Proof == nil || m.SortHash == nil || m.Proof.Input == nil]. *)
Definition incomplete (m : option Pos33SortMsg) : bool :=
  match m with
  | None => true
  | Some m' =>
      match MsgProof m' with
      | None => true
      | Some p =>
          match MsgSortHash m' with
          | None => true
          | Some _ => match Input p with None => true | Some _ => false end
          end
      end
  end.

(** A binary64 that is not a number. *)
Definition is_NaN (x : float) : Prop := Prim2SF x = S754_nan.

(** The ticket a returned entry stands for, [m.SortHash.Index]. *)
Definition msgIndex (m : option Pos33SortMsg) : option Z :=
  match m with
  | Some m' => match MsgSortHash m' with Some sh => Some (Index sh) | None => None end
  | None => None
  end.

(** The value of a hexadecimal digit [%x] writes. *)
Definition unhex (c : ascii) : Z :=
  let v := byte_val c in if v <? 58 then v - 48 else v - 87.

(** The rational a binary64 holds when it is zero or finite. *)
Definition float_value (x : float) : option Q :=
  match Prim2SF x with
  | S754_zero _ => Some 0%Q
  | S754_finite s m e => Some (inject_Z (if s then Z.neg m else Z.pos m) * 2 ^ e)%Q
  | _ => None
  end.

(** [hash / 2^256] for the hash read as a big-endian number, the quantity
    the comment of the source compares with the difficulty. *)
Definition hash_ratio (hash : string) : Q :=
  (inject_Z (big.SetBytes hash) / inject_Z (2 ^ 256))%Q.

(** * Properties *)

(** ** SHA-256 on the test vectors of the standard *)

Lemma Sum256_abc :
  fmt.verb_x (Sha256.Sum256 "abc")
  = "ba7816bf8f01cfea414140de5dae2223b00361a396177a9cb410ff61f20015ad"%string.
Proof. vm_compute. reflexivity. Qed.

Lemma Sum256_two_blocks :
  fmt.verb_x (Sha256.Sum256 "abcdbcdecdefdefgefghfghighijhijkijkljklmklmnlmnomnopnopq")
  = "248d6a61d20638b8e5c026930c3e6039a33ce45964ff2167f6ecedd419db06c1"%string.
Proof. vm_compute. reflexivity. Qed.

(** ** Order of byte strings *)

Lemma string_compare_refl (s : string) : String.compare s s = Eq.
Proof.
  induction s as [|c s IH]; simpl; [done|].
  unfold Ascii.compare. by rewrite N.compare_refl.
Qed.

Lemma string_leb_refl (s : string) : String.leb s s = true.
Proof. unfold String.leb. by rewrite string_compare_refl. Qed.

Lemma string_leb_trans (a b c : string) :
  String.leb a b = true -> String.leb b c = true -> String.leb a c = true.
Proof.
  unfold String.leb. revert b c.
  induction a as [|x a IH]; intros [|y b] [|z c]; simpl; try done.
  unfold Ascii.compare.
  destruct (N.compare_spec (N_of_ascii x) (N_of_ascii y)) as [Hxy|Hxy|Hxy];
    destruct (N.compare_spec (N_of_ascii y) (N_of_ascii z)) as [Hyz|Hyz|Hyz];
    destruct (N.compare_spec (N_of_ascii x) (N_of_ascii z)) as [Hxz|Hxz|Hxz];
    try done; try lia.
  apply IH.
Qed.

Lemma string_gt_false_leb (a b : string) : string_gt a b = false <-> String.leb a b = true.
Proof. unfold string_gt, String.leb. destruct (String.compare a b); intuition congruence. Qed.

Lemma string_gt_true_leb (a b : string) : string_gt a b = true -> String.leb b a = true.
Proof.
  unfold string_gt, String.leb. rewrite (String.compare_antisym b a).
  destruct (String.compare a b); simpl; congruence.
Qed.

Lemma string_gt_irrefl (a : string) : string_gt a a = false.
Proof. apply string_gt_false_leb, string_leb_refl. Qed.

(** ** The verifiers *)

Lemma int64_small (z : Z) : - 2 ^ 63 <= z < 2 ^ 63 -> int64 z = z.
Proof. intros Hz. unfold int64, wrap. rewrite Z.mod_small; lia. Qed.

Lemma int32_small (z : Z) : - 2 ^ 31 <= z < 2 ^ 31 -> int32 z = z.
Proof. intros Hz. unfold int32, wrap. rewrite Z.mod_small; lia. Qed.

Section Verifier.
Context {ext : Externals} {consts : Consts}.

Ltac run_verifier :=
  unfold Rev1.verifySort, Rev1.verifySort_run, Rev2.verifySort, Rev2.verifySort_run, logged;
  repeat (case_match; simpl in *; simplify_eq; try done).

(** C9.  Inside the genesis window the verifier of either revision accepts
    whatever it is given, a nil message or one with missing fields
    included, and makes no call on the way: no deposit query, no VRF
    verification, no hash recomputation, no threshold test. *)
Theorem genesis_window_accepts (n1 : Rev1.node) (n2 : Rev2.node) (h1 h2 step allw : Z)
    (seed : string) (m : option Pos33SortMsg) :
  h1 <= Pos33SortBlocks ->
  h2 <= Pos33SortitionSize ->
  Rev1.verifySort_run n1 h1 step seed m = ([], Ok) /\
  Rev2.verifySort_run n2 h2 step allw seed m = ([], Ok).
Proof.
  intros H1 H2. unfold Rev1.verifySort_run, Rev2.verifySort_run.
  apply Z.leb_le in H1, H2. by rewrite H1, H2.
Qed.

Lemma vrfVerify_error (pub input proof hash : string) (e : error) :
  vrfVerify pub input proof hash = Some e -> e = ErrVrfVerify.
Proof. unfold vrfVerify. repeat case_match; congruence. Qed.

(** C6.  Past the genesis window, for a message with all its parts whose
    deposit query answers [d], [verifySort] resolves the ticket count as
    [d.PreCount] when [d.CloseHeight >= height - Pos33SortBlocks] and as
    [d.Count] otherwise, returns the index error exactly when the index of
    the message is at or above that count, and goes on to the VRF
    verification otherwise.  [height] is an [int64] and the delay is not
    negative, so the subtraction does not wrap. *)
Theorem index_bound_against_snapshot (n : Rev1.node) (height step : Z) (seed : string)
    (sh : SortHash) (p : HashProof) (inp : VrfInput) (d : Pos33DepositMsg) :
  0 <= Pos33SortBlocks ->
  Pos33SortBlocks < height < 2 ^ 63 ->
  Input p = Some inp ->
  Rev1.queryDeposit n (address_PubKeyToAddr (Pubkey p)) = inr d ->
  let count := if CloseHeight d >=? height - Pos33SortBlocks then PreCount d else Count d in
  let m := Some {| MsgSortHash := Some sh; MsgProof := Some p |} in
  resolveCount Pos33SortBlocks height d = count /\
  (Rev1.verifySort n height step seed m = Err InvalidIndex <-> Index sh >= count) /\
  (Index sh < count ->
   exists rest,
     fst (Rev1.verifySort_run n height step seed m) =
     CallQueryDeposit (address_PubKeyToAddr (Pubkey p))
       :: CallVrfVerify (Pubkey p)
            (types_Encode {| Seed := seed; Height := height; Round := Round inp;
                             Step := int32 step |})
            (VrfProof p) (VrfHash p)
       :: rest).
Proof.
  intros Hdelay Hheight Hinp Hq count m.
  assert (Hcount : resolveCount Pos33SortBlocks height d = count).
  { unfold resolveCount, count. by rewrite int64_small by lia. }
  split; [done|].
  assert (Hgen : (height <=? Pos33SortBlocks) = false) by (apply Z.leb_gt; lia).
  unfold Rev1.verifySort, Rev1.verifySort_run, m, logged.
  rewrite Hgen, Hinp, Hq, Hcount. simpl.
  destruct (count <=? Index sh) eqn:Hle; simpl.
  - apply Z.leb_le in Hle. split; [split; [lia|done] | lia].
  - apply Z.leb_gt in Hle. split.
    + split; [|lia]. intros Hres.
      destruct (vrfVerify _ _ _ _) as [e|] eqn:Hv; simpl in Hres.
      { apply vrfVerify_error in Hv. congruence. }
      repeat (case_match; simpl in *; simplify_eq).
    + intros _. eexists. reflexivity.
Qed.
End Verifier.

(** ** Loops *)

Lemma loop_invariant {S A : Type} (P : S -> Prop) (body : S -> A -> result S)
    (xs : list A) (s r : S) :
  (forall s x s', x ∈ xs -> P s -> body s x = Ret s' -> P s') ->
  P s -> loop body xs s = Ret r -> P r.
Proof.
  revert s. induction xs as [|x xs IH]; simpl; intros s Hstep Hs Hrun.
  - congruence.
  - destruct (body s x) as [s'|] eqn:Hb; [|done].
    apply (IH s'); [|by eapply Hstep; [left| |]|done].
    intros s1 y s2 Hy. apply Hstep. by right.
Qed.

Lemma loop_app {S A : Type} (body : S -> A -> result S) (xs ys : list A) (s : S) :
  loop body (xs ++ ys) s =
  match loop body xs s with
  | Ret s' => loop body ys s'
  | Panic => Panic
  end.
Proof.
  revert s. induction xs as [|x xs IH]; simpl; intros s; [done|].
  destruct (body s x); [apply IH|done].
Qed.

Lemma elem_of_seqZ_bounds (i m n : Z) : i ∈ seqZ m n <-> m <= i < m + n.
Proof. apply elem_of_seqZ. Qed.

Section Producers.
Context {ext : Externals} {consts : Consts}.

(** The ticket loop of [voterSort] appends the messages of the selected
    tickets, in ticket order. *)
Lemma voterSort_loop (vrfHash : string) (proof : HashProof) (num : Z) (diff : float)
    (xs : list Z) (acc r : list Pos33SortMsg) :
  loop (Rev1.voterSort_body vrfHash proof num diff) xs acc = Ret r ->
  r = acc ++ map (ticket_msg vrfHash proof num)
               (List.filter (fun i => selected (hash2 (fmt.Sprintf_x_d_d vrfHash i num)) diff) xs).
Proof.
  revert acc. induction xs as [|i xs IH]; simpl; intros acc Hrun.
  - rewrite app_nil_r. congruence.
  - unfold Rev1.voterSort_body, selected in *.
    destruct (exceeds _ diff) as [[|]|] eqn:He; [| |done].
    + by apply IH.
    + apply IH in Hrun. rewrite Hrun. simpl. by rewrite <- app_assoc.
Qed.

End Producers.

(** ** The running minimum *)

Section KeepMin.
Context {X : Type} (key : X -> string).

Lemma keep_min_fold_is_Some (xs : list X) (st : option X) :
  xs <> [] \/ is_Some st -> is_Some (fold_left (keep_min key) xs st).
Proof.
  revert st. induction xs as [|x xs IH]; simpl; intros st [H|H]; try done.
  - apply IH. right. by eexists.
  - apply IH. right. by eexists.
Qed.

Lemma keep_min_fold_None (xs : list X) :
  fold_left (keep_min key) xs None = None <-> xs = [].
Proof.
  split; [|by intros ->].
  destruct xs as [|x xs]; [done|]. intros H.
  destruct (keep_min_fold_is_Some (x :: xs) None) as [r Hr]; [by left|congruence].
Qed.

(** The result is one of the elements, and no element has a smaller key. *)
Lemma keep_min_fold_min (xs : list X) (st : option X) (r : X) :
  fold_left (keep_min key) xs st = Some r ->
  (r ∈ xs \/ st = Some r) /\
  (forall x, x ∈ xs \/ st = Some x -> String.leb (key r) (key x) = true).
Proof.
  revert st. induction xs as [|x xs IH]; simpl; intros st Hr.
  - subst st. split; [by right|]. intros x [Hx|Hx]; [by apply elem_of_nil in Hx|].
    injection Hx as ->. apply string_leb_refl.
  - apply IH in Hr as [Hin Hmin]. split.
    + destruct Hin as [Hin|Hin]; [left; by right|].
      unfold keep_min in Hin. injection Hin as Hin.
      destruct st as [c|]; [|subst; left; by left].
      destruct (string_gt (key c) (key x)); subst; [left; by left|by right].
    + intros y [Hy|Hy].
      * apply elem_of_cons in Hy as [->|Hy]; [|apply Hmin; by left].
        unfold keep_min in Hmin.
        destruct st as [c|].
        -- destruct (string_gt (key c) (key x)) eqn:Hgt.
           ++ apply Hmin. by right.
           ++ eapply string_leb_trans; [apply Hmin; by right|].
              by apply string_gt_false_leb.
        -- apply Hmin. by right.
      * subst st. unfold keep_min in Hmin.
        destruct (string_gt (key y) (key x)) eqn:Hgt.
        -- eapply string_leb_trans; [apply Hmin; by right|].
           by apply string_gt_true_leb.
        -- apply Hmin. by right.
Qed.

(** Two runs over the same elements, in any order, end on the same key. *)
Lemma keep_min_fold_perm_key (xs ys : list X) (r1 r2 : X) :
  xs ≡ₚ ys ->
  fold_left (keep_min key) xs None = Some r1 ->
  fold_left (keep_min key) ys None = Some r2 ->
  key r1 = key r2.
Proof.
  intros Hp H1 H2.
  apply keep_min_fold_min in H1 as [[Hin1|?] Hmin1]; [|done].
  apply keep_min_fold_min in H2 as [[Hin2|?] Hmin2]; [|done].
  apply String.leb_antisym.
  - apply Hmin1. left. by rewrite Hp.
  - apply Hmin2. left. by rewrite <- Hp.
Qed.

(** When no two elements share a key, they end on the same element. *)
Lemma keep_min_fold_perm (xs ys : list X) :
  xs ≡ₚ ys ->
  (forall a b, a ∈ xs -> b ∈ xs -> key a = key b -> a = b) ->
  fold_left (keep_min key) xs None = fold_left (keep_min key) ys None.
Proof.
  intros Hp Hinj.
  destruct (fold_left (keep_min key) xs None) as [r1|] eqn:H1.
  - destruct (fold_left (keep_min key) ys None) as [r2|] eqn:H2.
    + f_equal. pose proof (keep_min_fold_perm_key _ _ _ _ Hp H1 H2) as Hk.
      apply keep_min_fold_min in H1 as [[Hin1|?] _]; [|done].
      apply keep_min_fold_min in H2 as [[Hin2|?] _]; [|done].
      apply Hinj; [done|by rewrite Hp|done].
    + apply keep_min_fold_None in H2. subst ys.
      apply Permutation_nil_r in Hp. by subst xs.
  - apply keep_min_fold_None in H1. subst xs.
    symmetry in Hp. apply Permutation_nil_r in Hp. by subst ys.
Qed.

End KeepMin.

(** ** The producers *)

Section ProducerResults.
Context {ext : Externals} {consts : Consts}.

(** What [voterSort] returns: the messages of the selected tickets, cut
    to the [Pos33RewardVotes] first of their sorted list when there are
    more. *)
Lemma voterSort_result (sort_Sort : list Pos33SortMsg -> list Pos33SortMsg) (n : Rev1.node)
    (seed : string) (height round num : Z) (diff : float) (out : list (option Pos33SortMsg)) :
  Rev1.voterSort sort_Sort n seed height round num diff = Ret out ->
  match Rev1.getPriv n with
  | None => out = []
  | Some priv =>
      let input := {| Seed := seed; Height := height; Round := int32 round; Step := int32 1 |} in
      let proof := producerProof priv input (voterDiff diff) in
      let sel := map (ticket_msg (VrfHash proof) proof num)
                     (selectedTickets (VrfHash proof) num (voterDiff diff) (Rev1.myCount n)) in
      out = Some <$> (if Z.of_nat (length sel) >? Pos33RewardVotes
                      then take (Z.to_nat Pos33RewardVotes) (sort_Sort sel) else sel)
  end.
Proof.
  unfold Rev1.voterSort. destruct (Rev1.getPriv n) as [priv|]; [|congruence].
  intros Hrun. simpl.
  unfold producerProof, voterDiff, selectedTickets in *. simpl.
  destruct (calcuVrfHash _ priv) as [vrfHash vrfProof] eqn:Hvrf. simpl.
  destruct (loop _ _ _) as [msgs|] eqn:Hloop; [|done].
  apply voterSort_loop in Hloop. simpl in Hloop. rewrite <- Hloop.
  destruct (Z.of_nat (length msgs) =? 0) eqn:Hlen.
  - apply Z.eqb_eq in Hlen. destruct msgs; [|simpl in Hlen; lia].
    injection Hrun as <-. simpl.
    change (Z.of_nat 0) with 0.
    destruct (Z.gtb_spec 0 Pos33RewardVotes); [|reflexivity].
    by replace (Z.to_nat Pos33RewardVotes) with 0%nat by lia.
  - destruct (Rev1.logAddr _); [|done].
    destruct (Z.of_nat (length msgs) >? Pos33RewardVotes); congruence.
Qed.

(** The inner loop of [makerSort] is the running minimum over the messages
    of the selected tickets. *)
Lemma makerSort_inner_loop (vrfHash : string) (proof : HashProof) (diff : float) (j : Z)
    (xs : list Z) (st r : option Pos33SortMsg) :
  (forall c, st = Some c -> is_Some (MsgSortHash c)) ->
  loop (Rev1.makerSort_body vrfHash proof diff j) xs st = Ret r ->
  r = fold_left (keep_min sortKey)
        (map (ticket_msg vrfHash proof j)
             (List.filter (fun i => selected (hash2 (fmt.Sprintf_x_d_d vrfHash i j)) diff) xs)) st
  /\ (forall c, r = Some c -> is_Some (MsgSortHash c)).
Proof.
  revert st. induction xs as [|i xs IH]; simpl; intros st Hst Hrun.
  - injection Hrun as <-. done.
  - unfold Rev1.makerSort_body, selected in *.
    destruct (exceeds _ diff) as [[|]|] eqn:He; [| |done].
    + by apply IH.
    + simpl. destruct st as [c|].
      * destruct (Hst c eq_refl) as [sh Hsh]. rewrite Hsh in Hrun.
        apply IH in Hrun; [|intros c' [= <-]; destruct (string_gt _ _); by eauto].
        destruct Hrun as [-> Hr]. split; [|done].
        f_equal. unfold keep_min, sortKey, ticket_msg. simpl. by rewrite Hsh.
      * simpl in Hrun. apply IH in Hrun; [|intros c' [= <-]; destruct (string_gt _ _); by eauto].
        destruct Hrun as [-> Hr]. split; [|done].
        f_equal. unfold keep_min. f_equal. by rewrite string_gt_irrefl.
Qed.


Lemma makerSort_outer_loop (vrfHash : string) (proof : HashProof) (diff : float) (count : Z)
    (js : list Z) (st r : option Pos33SortMsg) :
  (forall c, st = Some c -> is_Some (MsgSortHash c)) ->
  loop (fun minSort j => loop (Rev1.makerSort_body vrfHash proof diff j) (seqZ 0 count) minSort)
       js st = Ret r ->
  r = fold_left (keep_min sortKey)
        (flat_map (fun j => map (ticket_msg vrfHash proof j)
                               (selectedTickets vrfHash j diff count)) js) st.
Proof.
  revert st. induction js as [|j js IH]; simpl; intros st Hst Hrun.
  - congruence.
  - destruct (loop (Rev1.makerSort_body _ _ _ j) _ st) as [st'|] eqn:Hin; [|done].
    apply makerSort_inner_loop in Hin as [-> Hst']; [|done].
    apply IH in Hrun; [|done].
    by rewrite fold_left_app.
Qed.

(** What [makerSort] returns: a slice holding the running minimum over the
    messages of the selected (trial, ticket) pairs, nil when there is none. *)
Lemma makerSort_result (n : Rev1.node) (seed : string) (height round : Z)
    (out : list (option Pos33SortMsg)) :
  Rev1.makerSort n seed height round = Ret out ->
  match Rev1.getPriv n with
  | None => out = []
  | Some priv =>
      let input := {| Seed := seed; Height := height; Round := int32 round; Step := int32 0 |} in
      let diff := Rev1.getDiff n height round in
      let proof := producerProof priv input diff in
      out = [fold_left (keep_min sortKey)
               (flat_map (fun j => map (ticket_msg (VrfHash proof) proof j)
                                      (selectedTickets (VrfHash proof) j diff (Rev1.myCount n)))
                         (seqZ 0 3)) None]
  end.
Proof.
  unfold Rev1.makerSort. destruct (Rev1.getPriv n) as [priv|]; [|congruence].
  intros Hrun. cbv zeta. unfold producerProof.
  destruct (calcuVrfHash _ priv) as [vrfHash vrfProof] eqn:Hvrf. cbn [fst snd VrfHash].
  destruct (loop _ _ _) as [r|] eqn:Hloop; [|done].
  destruct (Rev1.logAddr _); [|done].
  apply makerSort_outer_loop in Hloop; [|done]. congruence.
Qed.

End ProducerResults.

Section RoundTrip.
Context {ext : Externals} {consts : Consts}.

Lemma selectedTickets_elem (vrfHash : string) (num : Z) (diff : float) (count i : Z) :
  i ∈ selectedTickets vrfHash num diff count <->
  0 <= i < count /\ selected (hash2 (fmt.Sprintf_x_d_d vrfHash i num)) diff = true.
Proof.
  unfold selectedTickets. rewrite list_elem_of_In, filter_In, <- list_elem_of_In, elem_of_seqZ.
  intuition lia.
Qed.

Lemma vrfVerify_evaluated (priv : PrivKey) (input : VrfInput) :
  vrf_correct ->
  vrfVerify (PubKey_Bytes priv) (types_Encode input)
            (snd (calcuVrfHash input priv)) (fst (calcuVrfHash input priv)) = None.
Proof.
  intros Hvrf. unfold vrfVerify, calcuVrfHash.
  destruct (Hvrf priv (types_Encode input)) as (pub & -> & ->).
  by rewrite String.eqb_refl.
Qed.

(** A selected ticket's message passes the verifier of the first revision
    when its trial or slot is below 3 and the snapshot covers the ticket. *)
Lemma ticket_msg_verifies (nv : Rev1.node) (priv : PrivKey) (seed : string)
    (height round step num i : Z) (diff : float) (d : Pos33DepositMsg) :
  vrf_correct ->
  Rev1.queryDeposit nv (address_PubKeyToAddr (PubKey_Bytes priv)) = inr d ->
  0 <= i < resolveCount Pos33SortBlocks height d ->
  0 <= num < 3 ->
  let input := {| Seed := seed; Height := height; Round := int32 round; Step := int32 step |} in
  let proof := producerProof priv input diff in
  selected (hash2 (fmt.Sprintf_x_d_d (VrfHash proof) i num)) diff = true ->
  Rev1.verifySort nv height step seed (Some (ticket_msg (VrfHash proof) proof num i)) = Ok.
Proof.
  intros Hvrf Hq Hi Hnum input proof Hsel.
  unfold Rev1.verifySort, Rev1.verifySort_run.
  destruct (height <=? Pos33SortBlocks); [done|].
  unfold ticket_msg, logged. cbn [MsgSortHash MsgProof proof producerProof Input Pubkey snd fst].
  rewrite Hq. cbn [Index Num Hash VrfProof VrfHash Round].
  destruct (Z.leb_spec (resolveCount Pos33SortBlocks height d) i); [lia|].
  fold input. rewrite vrfVerify_evaluated by done.
  rewrite (int32_small num) by lia.
  destruct (Z.geb_spec num 3); [lia|]. destruct (Z.ltb_spec num 0); [lia|].
  cbn [orb]. rewrite String.eqb_refl. cbn [negb].
  unfold selected in Hsel. cbn [proof producerProof VrfHash Diff] in *.
  by destruct (exceeds _ diff) as [[|]|].
Qed.

(** C1, amended.  With a VRF that verifies what it evaluates, a verifier
    whose deposit query resolves the producer's ticket count accepts every
    message [voterSort] returns for a slot [num] in [0,3), and every
    message other than nil that [makerSort] returns. *)
Theorem produced_messages_verify (sort_Sort : list Pos33SortMsg -> list Pos33SortMsg)
    (np nv : Rev1.node) (seed : string) (height round : Z) (d : Pos33DepositMsg) :
  vrf_correct ->
  (forall l, sort_Sort l ≡ₚ l) ->
  (forall priv, Rev1.getPriv np = Some priv ->
                Rev1.queryDeposit nv (address_PubKeyToAddr (PubKey_Bytes priv)) = inr d) ->
  resolveCount Pos33SortBlocks height d = Rev1.myCount np ->
  (forall num diff out m,
      0 <= num < 3 ->
      Rev1.voterSort sort_Sort np seed height round num diff = Ret out ->
      Some m ∈ out ->
      Rev1.verifySort nv height 1 seed (Some m) = Ok) /\
  (forall out m,
      Rev1.makerSort np seed height round = Ret out ->
      Some m ∈ out ->
      Rev1.verifySort nv height 0 seed (Some m) = Ok).
Proof.
  intros Hvrf Hperm Hq Hcount. split.
  - intros num diff out m Hnum Hrun Hm.
    apply voterSort_result in Hrun.
    destruct (Rev1.getPriv np) as [priv|] eqn:Hpriv; [|subst; by apply elem_of_nil in Hm].
    cbv zeta in Hrun. subst out.
    apply list_elem_of_fmap in Hm as (m' & [= <-] & Hm).
    assert (Hin : m ∈ map (ticket_msg
                (VrfHash (producerProof priv {| Seed := seed; Height := height;
                           Round := int32 round; Step := int32 1 |} (voterDiff diff)))
                (producerProof priv {| Seed := seed; Height := height;
                           Round := int32 round; Step := int32 1 |} (voterDiff diff)) num)
              (selectedTickets
                (VrfHash (producerProof priv {| Seed := seed; Height := height;
                           Round := int32 round; Step := int32 1 |} (voterDiff diff)))
                num (voterDiff diff) (Rev1.myCount np))).
    { destruct (_ >? _); [|done].
      apply (subseteq_take _ _ m) in Hm. by rewrite Hperm in Hm. }
    apply list_elem_of_In, in_map_iff in Hin as (i & <- & Hi).
    apply list_elem_of_In, selectedTickets_elem in Hi as [Hi Hsel].
    apply (ticket_msg_verifies nv priv seed height round 1 num i (voterDiff diff) d);
      [done|by apply Hq|lia|done|done].
  - intros out m Hrun Hm.
    apply makerSort_result in Hrun.
    destruct (Rev1.getPriv np) as [priv|] eqn:Hpriv; [|subst; by apply elem_of_nil in Hm].
    cbv zeta in Hrun. subst out.
    apply list_elem_of_singleton in Hm. symmetry in Hm.
    apply keep_min_fold_min in Hm as [[Hin|?] _]; [|done].
    apply list_elem_of_In, in_flat_map in Hin as (j & Hj & Hin).
    apply list_elem_of_In, elem_of_seqZ in Hj.
    apply in_map_iff in Hin as (i & <- & Hi).
    apply list_elem_of_In, selectedTickets_elem in Hi as [Hi Hsel].
    apply (ticket_msg_verifies nv priv seed height round 0 j i (Rev1.getDiff np height round) d);
      [done|by apply Hq|lia|lia|done].
Qed.

End RoundTrip.

(** ** The concrete setting *)

Lemma demo_vrf_correct : @vrf_correct Demo.ext.
Proof.
  intros priv in_. exists priv. simpl. split; [done|]. by rewrite String.eqb_refl.
Qed.

Lemma insert_msg_perm (m : Pos33SortMsg) (l : list Pos33SortMsg) :
  Demo.insert_msg m l ≡ₚ m :: l.
Proof.
  induction l as [|x l IH]; simpl; [done|].
  destruct (String.leb _ _); [done|]. rewrite IH. apply Permutation_swap.
Qed.

Lemma insertion_sort_perm (l : list Pos33SortMsg) : Demo.insertion_sort l ≡ₚ l.
Proof.
  induction l as [|x l IH]; simpl; [done|].
  rewrite insert_msg_perm. by rewrite IH.
Qed.

Lemma insert_msg_sorted (m : Pos33SortMsg) (l : list Pos33SortMsg) :
  Sorted Sorts_le l -> Sorted Sorts_le (Demo.insert_msg m l).
Proof.
  induction l as [|x l IH]; simpl; intros Hl.
  - by repeat constructor.
  - destruct (String.leb (sortKey m) (sortKey x)) eqn:Hle.
    + constructor; [done|]. by constructor.
    + apply Sorted_inv in Hl as [Hl Hx]. constructor; [by apply IH|].
      assert (Hxm : Sorts_le x m).
      { unfold Sorts_le. destruct (String.leb_total (sortKey x) (sortKey m)); congruence. }
      destruct l as [|y l]; simpl; [by constructor|].
      destruct (String.leb (sortKey m) (sortKey y)); constructor; [done|].
      by apply HdRel_inv in Hx.
Qed.

Lemma insertion_sort_contract : sort_contract Demo.insertion_sort.
Proof.
  intros l. split; [apply insertion_sort_perm|].
  induction l as [|x l IH]; simpl; [constructor|by apply insert_msg_sorted].
Qed.

(** C9 at height 10 (the delay itself) and height 3, on a nil message. *)
Lemma genesis_window_accepts_witness :
  @Rev1.verifySort_run Demo.ext (Demo.consts 1 2 1 5) (Demo.node1 1 1 ∅) 10 1 "seed" None
    = ([], Ok) /\
  @Rev2.verifySort_run Demo.ext (Demo.consts 1 2 1 5) (Demo.node2 1 ∅ ∅) 3 1 1 "seed" None
    = ([], Ok).
Proof.
  apply (@genesis_window_accepts Demo.ext (Demo.consts 1 2 1 5)); simpl; lia.
Defined.

(** C1 as stated fails: [voterSort] for slot 3 returns a message, the
    verifier resolves the producer's ticket count, and [verifySort]
    answers with the num error. *)
Lemma voter_num3_rejected :
  let c := Demo.consts 1 2 1 5 in
  let n := Demo.node1 1 1 ∅ in
  exists m,
    @Rev1.voterSort Demo.ext c Demo.insertion_sort n "seed" 100 0 3 1 = Ret [Some m] /\
    resolveCount Pos33SortBlocks 100 (Demo.deposit 1) = Rev1.myCount n /\
    @Rev1.verifySort Demo.ext c n 100 1 "seed" (Some m) = Err InvalidNum.
Proof.
  eexists. split; [vm_compute; reflexivity|]. split; vm_compute; reflexivity.
Qed.

(** C1, amended, on the message [makerSort] produces with two tickets. *)
Lemma produced_messages_verify_witness :
  let c := Demo.consts 1 2 1 5 in
  let n := Demo.node1 2 1 ∅ in
  exists m,
    @Rev1.makerSort Demo.ext n "seed" 100 0 = Ret [Some m] /\
    @Rev1.verifySort Demo.ext c n 100 0 "seed" (Some m) = Ok.
Proof.
  eexists. split; [vm_compute; reflexivity|].
  eapply (proj2 (@produced_messages_verify Demo.ext (Demo.consts 1 2 1 5) Demo.insertion_sort
                   (Demo.node1 2 1 ∅) (Demo.node1 2 1 ∅) "seed" 100 0 (Demo.deposit 2)
                   demo_vrf_correct insertion_sort_perm (fun _ _ => eq_refl) eq_refl)).
  - vm_compute. reflexivity.
  - apply list_elem_of_singleton. reflexivity.
Defined.

Section NumCheck.
Context {ext : Externals} {consts : Consts}.

(** C3, amended.  [verifySort] returns the num error exactly when the
    message is past the genesis window, has all its parts, passed the
    deposit, index and VRF checks, and its [num] is outside [0,3): the range
    is the same for every step, and [Pos33RewardVotes] plays no part. *)
Theorem num_check_same_for_every_step (n : Rev1.node) (height step : Z) (seed : string)
    (m : option Pos33SortMsg) :
  Rev1.verifySort n height step seed m = Err InvalidNum <->
  Pos33SortBlocks < height /\
  exists sh p inp d,
    m = Some {| MsgSortHash := Some sh; MsgProof := Some p |} /\
    Input p = Some inp /\
    Rev1.queryDeposit n (address_PubKeyToAddr (Pubkey p)) = inr d /\
    Index sh < resolveCount Pos33SortBlocks height d /\
    vrfVerify (Pubkey p)
      (types_Encode {| Seed := seed; Height := height; Round := Round inp; Step := int32 step |})
      (VrfProof p) (VrfHash p) = None /\
    ~ 0 <= Num sh < 3.
Proof.
  unfold Rev1.verifySort, Rev1.verifySort_run, logged. split.
  - destruct (Z.leb_spec height Pos33SortBlocks) as [|Hh]; [done|].
    destruct m as [[[sh|] [p|]]|]; try done.
    destruct (Input p) as [inp|] eqn:Hinp; [|done]. simpl.
    destruct (Rev1.queryDeposit _ _) as [e|d] eqn:Hq; [done|]. simpl.
    destruct (Z.leb_spec (resolveCount Pos33SortBlocks height d) (Index sh)); [done|]. simpl.
    destruct (vrfVerify _ _ _ _) as [e|] eqn:Hv; simpl.
    { intros [= ->]. by apply vrfVerify_error in Hv. }
    destruct (Z.geb_spec (Num sh) 3); destruct (Z.ltb_spec (Num sh) 0); simpl;
      try (intros _; split; [done|]; exists sh, p, inp, d; repeat split; try done; lia).
    repeat (case_match; simpl; try done).
  - intros [Hh (sh & p & inp & d & -> & Hinp & Hq & Hidx & Hv & Hnum)].
    destruct (Z.leb_spec height Pos33SortBlocks); [lia|].
    rewrite Hinp. simpl. rewrite Hq. simpl.
    destruct (Z.leb_spec (resolveCount Pos33SortBlocks height d) (Index sh)); [lia|]. simpl.
    rewrite Hv. simpl.
    destruct (Z.geb_spec (Num sh) 3); destruct (Z.ltb_spec (Num sh) 0); simpl; try done; lia.
Qed.

End NumCheck.

(** C3 as stated fails: with five reward votes, slot 3 is inside the range
    the claim gives a voter message, and [verifySort] of step 1 rejects the
    producer's message for it with the num error. *)
Lemma voter_slot_three_rejected :
  let c := Demo.consts 1 2 1 5 in
  let n := Demo.node1 1 1 ∅ in
  exists m sh,
    @Rev1.voterSort Demo.ext c Demo.insertion_sort n "seed" 100 0 3 1 = Ret [Some m] /\
    MsgSortHash m = Some sh /\
    @spec_legal_num c 1 (Num sh) = true /\
    @Rev1.verifySort Demo.ext c n 100 1 "seed" (Some m) = Err InvalidNum.
Proof.
  eexists. eexists. split; [vm_compute; reflexivity|].
  split; [reflexivity|]. split; vm_compute; reflexivity.
Qed.

Section Threshold.
Context {ext : Externals} {consts : Consts}.

Ltac open_verifier :=
  unfold Rev1.verifySort, Rev1.verifySort_run, Rev2.verifySort, Rev2.verifySort_run, logged;
  repeat (case_match; simpl in *; simplify_eq; try done).

(** The first revision reaches the threshold test with the hash and the
    difficulty of the message, and the test alone decides [errDiff]. *)
Lemma rev1_threshold_call (n : Rev1.node) (height step : Z) (seed : string)
    (sh : SortHash) (p : HashProof) (hash : string) (diff : float) :
  let m := Some {| MsgSortHash := Some sh; MsgProof := Some p |} in
  In (CallThreshold hash diff) (fst (Rev1.verifySort_run n height step seed m)) ->
  diff = Diff p /\ hash = Hash sh /\
  (Rev1.verifySort n height step seed m = Err errDiff <-> exceeds hash diff = Some true).
Proof.
  intros m. unfold m. clear m.
  unfold Rev1.verifySort, Rev1.verifySort_run, logged.
  repeat (case_match; simpl in *; simplify_eq; try done);
    intros Hin; repeat (destruct Hin as [Hin|Hin]; simplify_eq; try done);
    match goal with
    | H : negb (String.eqb _ _) = false |- _ =>
        apply negb_false_iff, String.eqb_eq in H; rewrite <- ?H in *
    end; repeat split; try done; congruence.
Qed.

Lemma rev1_errDiff_reaches_threshold (n : Rev1.node) (height step : Z) (seed : string)
    (sh : SortHash) (p : HashProof) :
  let m := Some {| MsgSortHash := Some sh; MsgProof := Some p |} in
  Rev1.verifySort n height step seed m = Err errDiff ->
  In (CallThreshold (Hash sh) (Diff p)) (fst (Rev1.verifySort_run n height step seed m)).
Proof.
  intros m. unfold m. clear m.
  unfold Rev1.verifySort, Rev1.verifySort_run, logged.
  repeat (case_match; simpl in *; simplify_eq; try done); intros Hres; simplify_eq;
    try (match goal with H : vrfVerify _ _ _ _ = Some _ |- _ =>
                           apply vrfVerify_error in H; discriminate end);
    match goal with
    | H : negb (String.eqb _ _) = false |- _ =>
        apply negb_false_iff, String.eqb_eq in H; rewrite <- ?H in *
    end; auto.
Qed.

(** The second revision reaches it with the difficulty [calcDiff] gives. *)
Lemma rev2_threshold_call (n : Rev2.node) (height step allw : Z) (seed : string)
    (sh : SortHash) (p : HashProof) (hash : string) (diff : float) :
  let m := Some {| MsgSortHash := Some sh; MsgProof := Some p |} in
  In (CallThreshold hash diff) (fst (Rev2.verifySort_run n height step allw seed m)) ->
  exists inp, Input p = Some inp /\
  diff = Rev2.calcDiff n step allw (Round inp) /\ hash = Hash sh /\
  (Rev2.verifySort n height step allw seed m = Err errDiff <-> exceeds hash diff = Some true).
Proof.
  intros m. unfold m. clear m.
  unfold Rev2.verifySort, Rev2.verifySort_run, logged.
  repeat (case_match; simpl in *; simplify_eq; try done);
    intros Hin; repeat (destruct Hin as [Hin|Hin]; simplify_eq; try done);
    match goal with
    | H : negb (String.eqb _ _) = false |- _ =>
        apply negb_false_iff, String.eqb_eq in H; rewrite <- ?H in *
    end; eexists; repeat split; try done; congruence.
Qed.

(** Every message of [voterSort] declares the scaled difficulty. *)
Lemma voterSort_declares (sort_Sort : list Pos33SortMsg -> list Pos33SortMsg) (n : Rev1.node)
    (seed : string) (height round num : Z) (diff : float) (out : list (option Pos33SortMsg))
    (m : Pos33SortMsg) :
  (forall l, sort_Sort l ≡ₚ l) ->
  Rev1.voterSort sort_Sort n seed height round num diff = Ret out ->
  Some m ∈ out ->
  exists priv i,
    Rev1.getPriv n = Some priv /\ 0 <= i < Rev1.myCount n /\
    let input := {| Seed := seed; Height := height; Round := int32 round; Step := int32 1 |} in
    let proof := producerProof priv input (voterDiff diff) in
    m = ticket_msg (VrfHash proof) proof num i /\
    selected (hash2 (fmt.Sprintf_x_d_d (VrfHash proof) i num)) (voterDiff diff) = true.
Proof.
  intros Hperm Hrun Hm. apply voterSort_result in Hrun.
  destruct (Rev1.getPriv n) as [priv|] eqn:Hpriv; [|subst; by apply elem_of_nil in Hm].
  cbv zeta in Hrun. subst out.
  apply list_elem_of_fmap in Hm as (m' & [= <-] & Hm).
  set (proof := producerProof priv _ _) in *.
  assert (Hin : m ∈ map (ticket_msg (VrfHash proof) proof num)
              (selectedTickets (VrfHash proof) num (voterDiff diff) (Rev1.myCount n))).
  { destruct (_ >? _); [|done].
    apply (subseteq_take _ _ m) in Hm. by rewrite Hperm in Hm. }
  apply list_elem_of_In, in_map_iff in Hin as (i & <- & Hi).
  apply list_elem_of_In, selectedTickets_elem in Hi as [Hi Hsel].
  by exists priv, i.
Qed.

(** A message that reaches the threshold test of the first verifier is
    judged by that test alone, on its own hash and declared difficulty. *)
Lemma rev1_threshold_decides (n : Rev1.node) (height step : Z) (seed : string)
    (sh : SortHash) (p : HashProof) :
  let m := Some {| MsgSortHash := Some sh; MsgProof := Some p |} in
  reaches_threshold1 n height step seed sh p ->
  In (CallThreshold (Hash sh) (Diff p)) (fst (Rev1.verifySort_run n height step seed m)) /\
  (Rev1.verifySort n height step seed m = Err errDiff <->
   exceeds (Hash sh) (Diff p) = Some true) /\
  (Rev1.verifySort n height step seed m = Ok <-> exceeds (Hash sh) (Diff p) = Some false).
Proof.
  intros m (Hh & inp & d & Hinp & Hq & Hidx & Hv & Hnum & Hhash). subst m.
  unfold Rev1.verifySort, Rev1.verifySort_run, logged.
  destruct (Z.leb_spec height Pos33SortBlocks); [lia|].
  rewrite Hinp. simpl. rewrite Hq. simpl.
  destruct (Z.leb_spec (resolveCount Pos33SortBlocks height d) (Index sh)); [lia|]. simpl.
  rewrite Hv. simpl.
  destruct (Z.geb_spec (Num sh) 3); [lia|]. destruct (Z.ltb_spec (Num sh) 0); [lia|]. simpl.
  rewrite <- Hhash, String.eqb_refl. simpl.
  split; [auto 6|]. by destruct (exceeds (Hash sh) (Diff p)) as [[|]|].
Qed.

(** [errDiff] comes from the threshold test only. *)
Lemma rev1_errDiff_reaches (n : Rev1.node) (height step : Z) (seed : string)
    (sh : SortHash) (p : HashProof) :
  Rev1.verifySort n height step seed (Some {| MsgSortHash := Some sh; MsgProof := Some p |})
    = Err errDiff ->
  reaches_threshold1 n height step seed sh p.
Proof.
  unfold Rev1.verifySort, Rev1.verifySort_run, logged, reaches_threshold1.
  destruct (Z.leb_spec height Pos33SortBlocks) as [|Hh]; [done|].
  destruct (Input p) as [inp|] eqn:Hinp; [|done]. simpl.
  destruct (Rev1.queryDeposit _ _) as [e|d] eqn:Hq; [done|]. simpl.
  destruct (Z.leb_spec (resolveCount Pos33SortBlocks height d) (Index sh)); [done|]. simpl.
  destruct (vrfVerify _ _ _ _) as [e|] eqn:Hv; simpl.
  { apply vrfVerify_error in Hv as ->. done. }
  destruct (Z.geb_spec (Num sh) 3); [done|]. destruct (Z.ltb_spec (Num sh) 0); [done|]. simpl.
  destruct (String.eqb_spec (hash2 (fmt.Sprintf_x_d_d (VrfHash p) (Index sh) (Num sh)))
                            (Hash sh)) as [Heq|]; [|done].
  intros _. split; [done|]. exists inp, d. repeat split; try done; lia.
Qed.

(** The second verifier judges by the same test, on the hash of the message
    and the difficulty [calcDiff] gives for the round of the message. *)
Lemma rev2_threshold_decides (n : Rev2.node) (height step allw : Z) (seed : string)
    (sh : SortHash) (p : HashProof) (inp : VrfInput) :
  let m := Some {| MsgSortHash := Some sh; MsgProof := Some p |} in
  let diff := Rev2.calcDiff n step allw (Round inp) in
  reaches_threshold2 n height step seed sh p inp ->
  In (CallThreshold (Hash sh) diff) (fst (Rev2.verifySort_run n height step allw seed m)) /\
  (Rev2.verifySort n height step allw seed m = Err errDiff <->
   exceeds (Hash sh) diff = Some true) /\
  (Rev2.verifySort n height step allw seed m = Ok <-> exceeds (Hash sh) diff = Some false).
Proof.
  intros m diff (Hh & Hinp & d & Hq & Hidx & Hv & Hhash). subst m diff.
  unfold Rev2.verifySort, Rev2.verifySort_run, logged.
  destruct (Z.leb_spec height Pos33SortitionSize); [lia|].
  rewrite Hinp. simpl. rewrite Hq. simpl.
  destruct (Z.leb_spec (resolveCount Pos33SortitionSize height d) (Index sh)); [lia|]. simpl.
  rewrite Hv. simpl.
  rewrite <- Hhash, String.eqb_refl. simpl.
  split; [auto 6|]. by destruct (exceeds (Hash sh) _) as [[|]|].
Qed.

Lemma rev2_errDiff_reaches (n : Rev2.node) (height step allw : Z) (seed : string)
    (sh : SortHash) (p : HashProof) :
  Rev2.verifySort n height step allw seed
    (Some {| MsgSortHash := Some sh; MsgProof := Some p |}) = Err errDiff ->
  exists inp, reaches_threshold2 n height step seed sh p inp.
Proof.
  unfold Rev2.verifySort, Rev2.verifySort_run, logged, reaches_threshold2.
  destruct (Z.leb_spec height Pos33SortitionSize) as [|Hh]; [done|].
  destruct (Input p) as [inp|] eqn:Hinp; [|done]. simpl.
  destruct (Rev2.queryDeposit _ _) as [e|d] eqn:Hq; [done|]. simpl.
  destruct (Z.leb_spec (resolveCount Pos33SortitionSize height d) (Index sh)); [done|]. simpl.
  destruct (vrfVerify _ _ _ _) as [e|] eqn:Hv; simpl.
  { apply vrfVerify_error in Hv as ->. done. }
  destruct (String.eqb_spec (hash2 (fmt.Sprintf_x_d (VrfHash p) (Index sh)))
                            (Hash sh)) as [Heq|]; [|done].
  intros _. exists inp. split; [done|]. split; [done|]. exists d. repeat split; try done; lia.
Qed.

(** C7, amended.  A complete message that passes every earlier check of
    the first verifier reaches the threshold test, which runs on the hash
    of the message and the [Diff] the message carries: the verifier
    returns [errDiff] exactly when the hash over [2^256] exceeds that
    value and accepts exactly when it does not, and it returns [errDiff]
    for no other message.  The verifier of the second revision does the
    same against [calcDiff(step, allw, round)], which it computes itself,
    whatever the message declares.  No other difficulty reaches the test
    in either revision, and the messages of [voterSort] declare
    [diff * (VoterSize / MakerSize)]. *)
Theorem threshold_difficulty_source (sort_Sort : list Pos33SortMsg -> list Pos33SortMsg)
    (n1 np : Rev1.node) (n2 : Rev2.node) (height step allw : Z) (seed : string)
    (sh : SortHash) (p : HashProof) (hash : string) (diff : float) :
  (forall l, sort_Sort l ≡ₚ l) ->
  let m := Some {| MsgSortHash := Some sh; MsgProof := Some p |} in
  (In (CallThreshold hash diff) (fst (Rev1.verifySort_run n1 height step seed m)) ->
   diff = Diff p /\ hash = Hash sh /\
   (Rev1.verifySort n1 height step seed m = Err errDiff <-> exceeds hash diff = Some true)) /\
  (Rev1.verifySort n1 height step seed m = Err errDiff ->
   In (CallThreshold (Hash sh) (Diff p)) (fst (Rev1.verifySort_run n1 height step seed m))) /\
  (In (CallThreshold hash diff) (fst (Rev2.verifySort_run n2 height step allw seed m)) ->
   exists inp, Input p = Some inp /\
     diff = Rev2.calcDiff n2 step allw (Round inp) /\ hash = Hash sh /\
     (Rev2.verifySort n2 height step allw seed m = Err errDiff <->
      exceeds hash diff = Some true)) /\
  (forall seed' height' round num d out m',
     Rev1.voterSort sort_Sort np seed' height' round num d = Ret out ->
     Some m' ∈ out ->
     exists p', MsgProof m' = Some p' /\ Diff p' = voterDiff d) /\
  (reaches_threshold1 n1 height step seed sh p ->
   In (CallThreshold (Hash sh) (Diff p)) (fst (Rev1.verifySort_run n1 height step seed m)) /\
   (Rev1.verifySort n1 height step seed m = Err errDiff <->
    exceeds (Hash sh) (Diff p) = Some true) /\
   (Rev1.verifySort n1 height step seed m = Ok <->
    exceeds (Hash sh) (Diff p) = Some false)) /\
  (Rev1.verifySort n1 height step seed m = Err errDiff <->
   reaches_threshold1 n1 height step seed sh p /\ exceeds (Hash sh) (Diff p) = Some true) /\
  (forall inp,
     reaches_threshold2 n2 height step seed sh p inp ->
     let diff2 := Rev2.calcDiff n2 step allw (Round inp) in
     In (CallThreshold (Hash sh) diff2)
        (fst (Rev2.verifySort_run n2 height step allw seed m)) /\
     (Rev2.verifySort n2 height step allw seed m = Err errDiff <->
      exceeds (Hash sh) diff2 = Some true) /\
     (Rev2.verifySort n2 height step allw seed m = Ok <->
      exceeds (Hash sh) diff2 = Some false)) /\
  (Rev2.verifySort n2 height step allw seed m = Err errDiff <->
   exists inp, reaches_threshold2 n2 height step seed sh p inp /\
               exceeds (Hash sh) (Rev2.calcDiff n2 step allw (Round inp)) = Some true).
Proof.
  intros Hperm m. split; [|split; [|split; [|split; [|split; [|split; [|split]]]]]].
  - apply rev1_threshold_call.
  - apply rev1_errDiff_reaches_threshold.
  - apply rev2_threshold_call.
  - intros seed' height' round num d out m' Hrun Hm.
    destruct (voterSort_declares _ _ _ _ _ _ _ _ _ Hperm Hrun Hm)
      as (priv & i & _ & _ & -> & _).
    eexists. split; reflexivity.
  - apply rev1_threshold_decides.
  - split.
    + intros Herr. pose proof (rev1_errDiff_reaches _ _ _ _ _ _ Herr) as Hreach.
      split; [done|]. by apply (rev1_threshold_decides _ _ _ _ _ _ Hreach).
    + intros [Hreach He]. by apply (rev1_threshold_decides _ _ _ _ _ _ Hreach).
  - intros inp. apply rev2_threshold_decides.
  - split.
    + intros Herr. destruct (rev2_errDiff_reaches _ _ _ _ _ _ _ Herr) as [inp Hreach].
      exists inp. split; [done|]. by apply (rev2_threshold_decides _ _ _ _ _ _ _ _ Hreach).
    + intros (inp & Hreach & He). by apply (rev2_threshold_decides _ _ _ _ _ _ _ _ Hreach).
Qed.

End Threshold.

(** C7, amended, in the concrete setting: the message [makerSort] produces
    is accepted under the difficulty 1 it declares, and the same message is
    refused with [errDiff] once it declares the difficulty 0, its hash being
    above 0. *)
Lemma threshold_difficulty_source_witness :
  let c := Demo.consts 1 2 1 5 in
  let n := Demo.node1 1 1 ∅ in
  exists m,
    @Rev1.makerSort Demo.ext n "seed" 100 0 = Ret [Some m] /\
    @Rev1.verifySort Demo.ext c n 100 0 "seed" (Some m) = Ok /\
    @Rev1.verifySort Demo.ext c n 100 0 "seed" (Some (Demo.redeclare m 0)) = Err errDiff.
Proof.
  eexists. split; [vm_compute; reflexivity|]. split; [vm_compute; reflexivity|].
  lazymatch goal with
  | |- Rev1.verifySort _ _ _ _ (Some ?x) = _ =>
      let y := eval vm_compute in x in
      lazymatch y with
      | {| MsgSortHash := Some ?sh; MsgProof := Some ?p |} =>
          refine (proj2 (proj1 (proj2 (proj2 (proj2 (proj2 (proj2
                    (@threshold_difficulty_source Demo.ext (Demo.consts 1 2 1 5)
                       Demo.insertion_sort (Demo.node1 1 1 ∅) (Demo.node1 1 1 ∅)
                       (Demo.node2 1 ∅ ∅) 100 0 1 "seed" sh p "" 0%float
                       insertion_sort_perm))))))) _)
      end
  end.
  split; [|vm_compute; reflexivity].
  split; [vm_compute; reflexivity|].
  do 2 eexists. split; [reflexivity|].
  split; [vm_compute; reflexivity|]. split; [vm_compute; reflexivity|].
  split; [vm_compute; reflexivity|].
  split; [split; vm_compute; [discriminate|reflexivity]|]. vm_compute; reflexivity.
Defined.

(** C7 as stated fails in the second revision: the message [sort] produces
    declares the difficulty 0, its hash over [2^256] exceeds 0, and
    [verifySort] accepts it. *)
Lemma rev2_accepts_above_declared_diff :
  let c := Demo.consts 1 2 1 5 in
  let n := Demo.node2 1 ∅ ∅ in
  exists m sh p,
    @Rev2.sort Demo.ext c Demo.insertion_sort n "seed" 100 0 1 1 = Ret [Some m] /\
    MsgSortHash m = Some sh /\ MsgProof m = Some p /\
    exceeds (Hash sh) (Diff p) = Some true /\
    @Rev2.verifySort Demo.ext c n 100 1 1 "seed" (Some m) = Ok.
Proof.
  do 3 eexists. split; [vm_compute; reflexivity|].
  split; [reflexivity|]. split; [reflexivity|]. split; vm_compute; reflexivity.
Qed.

(** C6 at height 100 with a deposit of one ticket and a message of index 5. *)
Lemma index_bound_against_snapshot_witness :
  let c := Demo.consts 1 2 1 5 in
  let n := Demo.node1 1 1 ∅ in
  let sh := {| Hash := ""; Index := 5; Num := 0 |} in
  let inp := {| Seed := "seed"; Height := 100; Round := 0; Step := 1 |} in
  let p := {| Input := Some inp; Diff := 1; VrfHash := ""; VrfProof := ""; Pubkey := "k" |} in
  @Rev1.verifySort Demo.ext c n 100 1 "seed" (Some {| MsgSortHash := Some sh; MsgProof := Some p |})
    = Err InvalidIndex <-> Index sh >= 1.
Proof.
  intros c n sh inp p.
  refine (proj1 (proj2 (@index_bound_against_snapshot Demo.ext c n 100 1 "seed" sh p inp
                          (Demo.deposit 1) _ _ _ _))).
  - simpl. lia.
  - simpl. lia.
  - reflexivity.
  - reflexivity.
Defined.

(** ** The difficulty controller *)

Lemma int64_add_l (a v : Z) : int64 (int64 a + v) = int64 (a + v).
Proof.
  unfold int64, wrap. f_equal.
  replace ((a + 2 ^ (64 - 1)) mod 2 ^ 64 - 2 ^ (64 - 1) + v + 2 ^ (64 - 1))
    with ((a + 2 ^ (64 - 1)) mod 2 ^ 64 + v) by lia.
  rewrite Zplus_mod_idemp_l. f_equal. lia.
Qed.

(** The wrapped running sum of the loop is the wrapped sum: the order in
    which the map is ranged over does not matter. *)
Lemma sumVotes_total (votes : gmap Z Z) : Rev2.sumVotes votes = int64 (total_votes votes).
Proof.
  unfold Rev2.sumVotes, total_votes. rewrite !map_fold_foldr.
  induction (map_to_list votes) as [|[k v] l IH]; simpl; [done|].
  by rewrite IH, int64_add_l.
Qed.

Section Controller.
Context {ext : Externals} {consts : Consts}.

(** C8, amended.  [calcDiff] returns target_size / allw / online_rate in
    binary64 arithmetic, where target_size is [Pos33ProposerSize] for step 0
    and [Pos33VoterSize] otherwise, and online_rate is 1 while the map holds
    fewer than [calcuDiffBlockN] entries and otherwise the 64-bit sum of the
    vote counts divided by the number of entries of the map and then by
    [Pos33RewardVotes]: two divisions, one after the other. *)
Theorem calcDiff_formula (n : Rev2.node) (step allw round : Z) :
  let target_size := if step =? 0 then Pos33ProposerSize else Pos33VoterSize in
  let entries := Z.of_nat (size (Rev2.nvsMap n)) in
  let online_rate :=
    if entries <? calcuDiffBlockN then 1%float
    else (float64 (int64 (total_votes (Rev2.nvsMap n))) / float64 entries
          / float64 Pos33RewardVotes)%float in
  Rev2.calcDiff n step allw round = (float64 target_size / float64 allw / online_rate)%float.
Proof.
  intros target_size entries online_rate.
  unfold Rev2.calcDiff, online_rate, entries, target_size.
  rewrite sumVotes_total.
  destruct (Z.ltb_spec (Z.of_nat (size (Rev2.nvsMap n))) calcuDiffBlockN);
    destruct (Z.geb_spec (Z.of_nat (size (Rev2.nvsMap n))) calcuDiffBlockN); try lia; done.
Qed.

End Controller.

(** C8 as stated fails: with three votes over five heights, three reward
    votes, a voter target of 2 and 10 tickets in all, one division by
    (window size * K_reward) gives 1, and [calcDiff] returns the next
    binary64 above 1. *)
Lemma calcDiff_differs_from_single_division :
  let c := Demo.consts 1 2 1 3 in
  let n := Demo.node2 1 Demo.votes ∅ in
  Z.of_nat (size (Rev2.nvsMap n)) >= calcuDiffBlockN /\
  @spec_diff c 1 10 (Rev2.nvsMap n) = 1%float /\
  @Rev2.calcDiff Demo.ext c n 1 10 0 = 0x1.0000000000001p+0%float /\
  PrimFloat.eqb (@Rev2.calcDiff Demo.ext c n 1 10 0) (@spec_diff c 1 10 (Rev2.nvsMap n)) = false.
Proof. repeat split; vm_compute; congruence. Qed.

(** ** The second revision's producer *)

Section Rev2Producer.
Context {ext : Externals} {consts : Consts}.

(** The ticket loop of [sort]: [msgs] grows by the messages of the
    selected tickets, and [index] and [minHash] follow the running
    minimum of [msgs]. *)
Lemma sort_loop (vrfHash : string) (proof : HashProof) (diff : float)
    (xs : list Z) (st r : Rev2.sortState) :
  Rev2.minHash st = sortKey <$> fold_left (keep_min sortKey) (Rev2.msgs st) None ->
  Rev2.msgs st !! Z.to_nat (Rev2.index st) = fold_left (keep_min sortKey) (Rev2.msgs st) None ->
  0 <= Rev2.index st ->
  (Rev2.msgs st = [] -> Rev2.index st = 0) ->
  loop (Rev2.sort_body vrfHash proof diff) xs st = Ret r ->
  Rev2.msgs r = Rev2.msgs st ++ map (ticket_msg2 vrfHash proof) 
                                    (List.filter (fun i => selected (hash2 (fmt.Sprintf_x_d vrfHash i)) diff) xs) /\
  Rev2.msgs r !! Z.to_nat (Rev2.index r) = fold_left (keep_min sortKey) (Rev2.msgs r) None.
Proof.
  revert st. induction xs as [|i xs IH]; simpl; intros st Hmin Hidx Hpos Hzero Hrun.
  - injection Hrun as <-. by rewrite app_nil_r.
  - unfold Rev2.sort_body, selected in *.
    destruct (exceeds _ diff) as [[|]|] eqn:He; [| |done].
    + by apply IH.
    + set (m := {| MsgSortHash := Some {| Hash := hash2 (fmt.Sprintf_x_d vrfHash i);
                                           Index := i; Num := 0 |};
                   MsgProof := Some proof |}) in *.
      assert (Hfold : fold_left (keep_min sortKey) (Rev2.msgs st ++ [m]) None
                      = keep_min sortKey (fold_left (keep_min sortKey) (Rev2.msgs st) None) m).
      { by rewrite fold_left_app. }
      destruct (fold_left (keep_min sortKey) (Rev2.msgs st) None) as [c|] eqn:Hc;
        rewrite Hmin in Hrun; simpl in Hrun.
      * change (hash2 (fmt.Sprintf_x_d vrfHash i)) with (sortKey m) in Hrun.
        destruct (string_gt (sortKey c) (sortKey m)) eqn:Hgt.
        -- apply IH in Hrun as [Hm Hi]; simpl; [| | |lia|by intros [_ ?]%app_eq_nil].
           ++ split; [|done]. rewrite Hm. simpl. by rewrite <- app_assoc.
           ++ rewrite Hfold. unfold keep_min. by rewrite Hgt.
           ++ rewrite Nat2Z.id, Hfold. unfold keep_min. rewrite Hgt.
              by rewrite lookup_app_r, Nat.sub_diag by lia.
        -- apply IH in Hrun as [Hm Hi]; simpl; [| | |done|by intros [_ ?]%app_eq_nil].
           ++ split; [|done]. rewrite Hm. simpl. by rewrite <- app_assoc.
           ++ rewrite Hfold. unfold keep_min. by rewrite Hgt.
           ++ rewrite Hfold. unfold keep_min. rewrite Hgt.
              by rewrite lookup_app_l by (by eapply lookup_lt_Some).
      * change (hash2 (fmt.Sprintf_x_d vrfHash i)) with (sortKey m) in Hrun.
        rewrite string_gt_irrefl in Hrun.
        assert (Hnil : Rev2.msgs st = []) by (by apply (keep_min_fold_None sortKey)).
        rewrite Hnil in *.
        apply IH in Hrun as [Hm Hi]; simpl; [| | |done|done].
        -- split; [|done]. rewrite Hm. simpl. done.
        -- done.
        -- by rewrite (Hzero eq_refl).
Qed.


(** What [sort] returns: nothing without tickets to spare or a key; for
    step 0 the running minimum of the selected tickets' messages; for any
    other step their sorted list, cut to [Pos33VoterSize]. *)
Lemma sort_result (sort_Sort : list Pos33SortMsg -> list Pos33SortMsg) (n : Rev2.node)
    (seed : string) (height round step allw : Z) (out : list (option Pos33SortMsg)) :
  Rev2.sort sort_Sort n seed height round step allw = Ret out ->
  if allw <? Rev2.myCount n then out = []
  else
    match Rev2.getPriv n with
    | None => out = []
    | Some priv =>
        let input := {| Seed := seed; Height := height; Round := int32 round;
                        Step := int32 step |} in
        let proof := producerProof priv input 0 in
        let sel := map (ticket_msg2 (VrfHash proof) proof)
                       (selectedTickets2 (VrfHash proof) (Rev2.calcDiff n step allw round)
                                         (Rev2.myCount n)) in
        if Z.of_nat (length sel) =? 0 then out = []
        else if step =? 0 then out = [fold_left (keep_min sortKey) sel None]
        else out = Some <$> (if Z.of_nat (length (sort_Sort sel)) >? Pos33VoterSize
                             then take (Z.to_nat Pos33VoterSize) (sort_Sort sel)
                             else sort_Sort sel)
    end.
Proof.
  unfold Rev2.sort. destruct (allw <? Rev2.myCount n); [congruence|].
  destruct (Rev2.getPriv n) as [priv|]; [|congruence].
  intros Hrun. cbv zeta. unfold producerProof, selectedTickets2.
  destruct (calcuVrfHash _ priv) as [vrfHash vrfProof] eqn:Hvrf. cbn [fst snd VrfHash].
  destruct (loop _ _ _) as [st|] eqn:Hloop; [|done].
  apply sort_loop in Hloop as [Hmsgs Hidx]; try done.
  cbn [Rev2.msgs app] in Hmsgs. rewrite <- Hmsgs.
  destruct (Z.of_nat (length (Rev2.msgs st)) =? 0); [congruence|].
  cbv zeta in Hrun.
  destruct (step =? 0); [rewrite <- Hidx; congruence|].
  destruct (_ >? _); congruence.
Qed.

End Rev2Producer.

(** ** The cap on the number of messages *)

#[local] Instance Sorts_le_trans : Transitive Sorts_le.
Proof. intros a b c. apply string_leb_trans. Qed.

Lemma take_sorted_smallest (sort_Sort : list Pos33SortMsg -> list Pos33SortMsg)
    (sel : list Pos33SortMsg) (k : nat) :
  sort_contract sort_Sort -> (k <= length sel)%nat ->
  smallest_of k sel (take k (sort_Sort sel)).
Proof.
  intros Hsort Hk. destruct (Hsort sel) as [Hperm Hsorted].
  apply Sorted_StronglySorted in Hsorted; [|apply _].
  rewrite <- (take_drop k (sort_Sort sel)) in Hsorted.
  split; [|split].
  - rewrite length_take, (Permutation_length Hperm). lia.
  - apply StronglySorted_Sorted. by eapply StronglySorted_app_1_l.
  - exists (drop k (sort_Sort sel)). split.
    + by rewrite take_drop.
    + intros a b. by apply StronglySorted_app_1_elem_of.
Qed.

Section Cap.
Context {ext : Externals} {consts : Consts}.

(** C5, amended.  [voterSort] returns at most [Pos33RewardVotes] messages:
    all selected ones when there are no more than that, and otherwise
    exactly the [Pos33RewardVotes] of them with the smallest sort hashes, in
    ascending order.  [sort] of the second revision, for a step other than
    0, returns the selected messages in ascending order cut to
    [Pos33VoterSize], not to [Pos33RewardVotes]. *)
Theorem voter_cap (sort_Sort : list Pos33SortMsg -> list Pos33SortMsg)
    (n1 : Rev1.node) (n2 : Rev2.node) (seed : string) (height round num step allw : Z)
    (diff : float) (out1 out2 : list (option Pos33SortMsg)) :
  sort_contract sort_Sort ->
  0 <= Pos33RewardVotes ->
  0 <= Pos33VoterSize ->
  step <> 0 ->
  (Rev1.voterSort sort_Sort n1 seed height round num diff = Ret out1 ->
   Z.of_nat (length out1) <= Pos33RewardVotes /\
   forall priv, Rev1.getPriv n1 = Some priv ->
     let input := {| Seed := seed; Height := height; Round := int32 round; Step := int32 1 |} in
     let proof := producerProof priv input (voterDiff diff) in
     let sel := map (ticket_msg (VrfHash proof) proof num)
                    (selectedTickets (VrfHash proof) num (voterDiff diff) (Rev1.myCount n1)) in
     (Z.of_nat (length sel) <= Pos33RewardVotes -> out1 = Some <$> sel) /\
     (Z.of_nat (length sel) > Pos33RewardVotes ->
      exists top, out1 = Some <$> top /\
                  smallest_of (Z.to_nat Pos33RewardVotes) sel top)) /\
  (Rev2.sort sort_Sort n2 seed height round step allw = Ret out2 ->
   Z.of_nat (length out2) <= Pos33VoterSize /\
   forall priv, Rev2.getPriv n2 = Some priv -> Rev2.myCount n2 <= allw ->
     let input := {| Seed := seed; Height := height; Round := int32 round;
                     Step := int32 step |} in
     let proof := producerProof priv input 0 in
     let sel := map (ticket_msg2 (VrfHash proof) proof)
                    (selectedTickets2 (VrfHash proof) (Rev2.calcDiff n2 step allw round)
                                      (Rev2.myCount n2)) in
     exists top, out2 = Some <$> top /\
                 smallest_of (Nat.min (Z.to_nat Pos33VoterSize) (length sel)) sel top).
Proof.
  intros Hsort HK HV Hstep. split.
  - intros Hrun. apply voterSort_result in Hrun.
    destruct (Rev1.getPriv n1) as [priv|]; [|subst; split; [simpl; lia|done]].
    cbv zeta in Hrun.
    set (sel := map _ _) in Hrun.
    assert (Hlen : Z.of_nat (length out1) <= Pos33RewardVotes).
    { subst out1. rewrite length_fmap.
      destruct (Z.gtb_spec (Z.of_nat (length sel)) Pos33RewardVotes); [|lia].
      rewrite length_take. lia. }
    split; [done|]. intros priv' [= <-]. cbv zeta. fold sel. split.
    + intros Hle. destruct (Z.gtb_spec (Z.of_nat (length sel)) Pos33RewardVotes); [lia|done].
    + intros Hgt. destruct (Z.gtb_spec (Z.of_nat (length sel)) Pos33RewardVotes); [|lia].
      eexists. split; [done|]. apply take_sorted_smallest; [done|lia].
  - intros Hrun. apply sort_result in Hrun.
    destruct (Z.ltb_spec allw (Rev2.myCount n2)) as [Hlt|Hge].
    { subst. split; [simpl; lia|]. intros. lia. }
    destruct (Rev2.getPriv n2) as [priv|]; [|subst; split; [simpl; lia|done]].
    cbv zeta in Hrun. set (sel := map _ _) in Hrun.
    destruct (Hsort sel) as [Hperm _].
    assert (Hout : out2 = Some <$> take (Nat.min (Z.to_nat Pos33VoterSize) (length sel))
                                        (sort_Sort sel)).
    { destruct (Z.eqb_spec (Z.of_nat (length sel)) 0) as [H0|H0].
      - subst out2. destruct sel; [|simpl in H0; lia].
        apply Permutation_nil_r in Hperm. by rewrite Hperm, take_nil.
      - destruct (Z.eqb_spec step 0); [done|]. subst out2. f_equal.
        rewrite (Permutation_length Hperm).
        destruct (Z.gtb_spec (Z.of_nat (length sel)) Pos33VoterSize).
        + f_equal. lia.
        + rewrite take_ge; [done|]. rewrite (Permutation_length Hperm). lia. }
    split.
    + subst out2. rewrite length_fmap, length_take. lia.
    + intros priv' [= <-] _. cbv zeta. fold sel.
      eexists. split; [done|]. apply take_sorted_smallest; [done|lia].
Qed.

End Cap.

(** C5 as stated fails in the second revision: with one reward vote and a
    voter size of 2, [sort] of step 1 returns two messages. *)
Lemma sort_returns_more_than_reward_votes :
  let c := Demo.consts 1 2 1 1 in
  let n := Demo.node2 2 ∅ ∅ in
  exists out,
    @Rev2.sort Demo.ext c Demo.insertion_sort n "seed" 100 0 1 2 = Ret out /\
    Z.of_nat (length out) = 2 /\ @Pos33RewardVotes c = 1 /\ @Pos33VoterSize c = 2.
Proof.
  eexists. split; [vm_compute; reflexivity|]. repeat split.
Qed.

(** C5, amended, on [voterSort] with three selected tickets and one reward
    vote. *)
Lemma voter_cap_witness :
  let c := Demo.consts 1 2 1 1 in
  let n := Demo.node1 3 1 ∅ in
  exists out,
    @Rev1.voterSort Demo.ext c Demo.insertion_sort n "seed" 100 0 0 1 = Ret out /\
    Z.of_nat (length out) <= 1.
Proof.
  intros c n.
  destruct (@Rev1.voterSort Demo.ext c Demo.insertion_sort n "seed" 100 0 0 1)
    as [out|] eqn:Hrun; [|vm_compute in Hrun; discriminate].
  exists out. split; [reflexivity|].
  refine (proj1 (proj1 (@voter_cap Demo.ext c Demo.insertion_sort n (Demo.node2 2 ∅ ∅)
                          "seed" 100 0 0 1 2 1%float out [] insertion_sort_contract _ _ _)
                   Hrun)).
  - simpl. lia.
  - simpl. lia.
  - lia.
Defined.

(** ** The pre-image of the sort hash *)

Lemma verb_x_lowercase_hex (b : string) : fmt.verb_x b = lowercase_hex b.
Proof.
  induction b as [|c b IH]; simpl; [done|]. rewrite IH.
  by destruct c as [[] [] [] [] [] [] [] []].
Qed.

Lemma Sprintf_x_d_d_canonical (h : string) (i num : Z) :
  fmt.Sprintf_x_d_d h i num = canonical_string h i num.
Proof. unfold fmt.Sprintf_x_d_d, canonical_string. by rewrite verb_x_lowercase_hex. Qed.

Lemma Sprintf_x_d_canonical2 (h : string) (i : Z) :
  fmt.Sprintf_x_d h i = canonical_string2 h i.
Proof. unfold fmt.Sprintf_x_d, canonical_string2. by rewrite verb_x_lowercase_hex. Qed.

Lemma no_plus_lowercase_hex (b : string) : no_plus (lowercase_hex b) = true.
Proof.
  induction b as [|c b IH]; simpl; [done|]. rewrite IH.
  by destruct c as [[] [] [] [] [] [] [] []].
Qed.

Lemma no_plus_uint (d : Decimal.uint) : no_plus (NilEmpty.string_of_uint d) = true.
Proof. induction d; simpl; done. Qed.

Lemma no_plus_decimal (z : Z) : no_plus (decimal z) = true.
Proof.
  unfold decimal, NilZero.string_of_int, NilZero.string_of_uint.
  destruct (Z.to_int z) as [d|d]; destruct d; simpl; try done; apply no_plus_uint.
Qed.

Lemma fields_no_plus (a : string) : no_plus a = true -> fields a = [a].
Proof.
  induction a as [|c a IH]; simpl; [done|].
  destruct (Ascii.eqb c "+"); simpl; [done|]. intros Ha. by rewrite IH.
Qed.

Lemma fields_app_plus (a b : string) :
  no_plus a = true -> fields (a +:+ "+" +:+ b) = a :: fields b.
Proof.
  induction a as [|c a IH]; simpl; [done|].
  destruct (Ascii.eqb c "+"); simpl; [done|]. intros Ha. by rewrite IH.
Qed.

Lemma fields_canonical_string (h : string) (i num : Z) :
  fields (canonical_string h i num) = [lowercase_hex h; decimal i; decimal num].
Proof.
  unfold canonical_string.
  rewrite fields_app_plus by apply no_plus_lowercase_hex.
  rewrite fields_app_plus by apply no_plus_decimal.
  by rewrite fields_no_plus by apply no_plus_decimal.
Qed.

Lemma fields_canonical_string2 (h : string) (i : Z) :
  fields (canonical_string2 h i) = [lowercase_hex h; decimal i].
Proof.
  unfold canonical_string2.
  rewrite fields_app_plus by apply no_plus_lowercase_hex.
  by rewrite fields_no_plus by apply no_plus_decimal.
Qed.

Section Preimage.
Context {ext : Externals} {consts : Consts}.

(** Every message of [makerSort] is the message of a selected pair of a
    trial below 3 and a ticket. *)
Lemma makerSort_declares (n : Rev1.node) (seed : string) (height round : Z)
    (out : list (option Pos33SortMsg)) (m : Pos33SortMsg) :
  Rev1.makerSort n seed height round = Ret out ->
  Some m ∈ out ->
  exists priv j i,
    Rev1.getPriv n = Some priv /\ 0 <= j < 3 /\ 0 <= i < Rev1.myCount n /\
    let input := {| Seed := seed; Height := height; Round := int32 round; Step := int32 0 |} in
    let diff := Rev1.getDiff n height round in
    let proof := producerProof priv input diff in
    m = ticket_msg (VrfHash proof) proof j i /\
    selected (hash2 (fmt.Sprintf_x_d_d (VrfHash proof) i j)) diff = true.
Proof.
  intros Hrun Hm. apply makerSort_result in Hrun.
  destruct (Rev1.getPriv n) as [priv|] eqn:Hpriv; [|subst; by apply elem_of_nil in Hm].
  cbv zeta in Hrun. subst out.
  apply list_elem_of_singleton in Hm. symmetry in Hm.
  apply keep_min_fold_min in Hm as [[Hin|?] _]; [|done].
  apply list_elem_of_In, in_flat_map in Hin as (j & Hj & Hin).
  apply list_elem_of_In, elem_of_seqZ in Hj.
  apply in_map_iff in Hin as (i & <- & Hi).
  apply list_elem_of_In, selectedTickets_elem in Hi as [Hi Hsel].
  exists priv, j, i. repeat split; try done; lia.
Qed.

Lemma selectedTickets2_elem (vrfHash : string) (diff : float) (count i : Z) :
  i ∈ selectedTickets2 vrfHash diff count <->
  0 <= i < count /\ selected (hash2 (fmt.Sprintf_x_d vrfHash i)) diff = true.
Proof.
  unfold selectedTickets2. rewrite list_elem_of_In, filter_In, <- list_elem_of_In, elem_of_seqZ.
  intuition lia.
Qed.

(** Every message of [sort] is the message of a selected ticket. *)
Lemma sort_declares (sort_Sort : list Pos33SortMsg -> list Pos33SortMsg) (n : Rev2.node)
    (seed : string) (height round step allw : Z) (out : list (option Pos33SortMsg))
    (m : Pos33SortMsg) :
  (forall l, sort_Sort l ≡ₚ l) ->
  Rev2.sort sort_Sort n seed height round step allw = Ret out ->
  Some m ∈ out ->
  exists priv i,
    Rev2.getPriv n = Some priv /\ 0 <= i < Rev2.myCount n /\
    let input := {| Seed := seed; Height := height; Round := int32 round;
                    Step := int32 step |} in
    let diff := Rev2.calcDiff n step allw round in
    let proof := producerProof priv input 0 in
    m = ticket_msg2 (VrfHash proof) proof i /\
    selected (hash2 (fmt.Sprintf_x_d (VrfHash proof) i)) diff = true.
Proof.
  intros Hperm Hrun Hm. apply sort_result in Hrun.
  destruct (allw <? Rev2.myCount n); [subst; by apply elem_of_nil in Hm|].
  destruct (Rev2.getPriv n) as [priv|] eqn:Hpriv; [|subst; by apply elem_of_nil in Hm].
  cbv zeta in Hrun. set (proof := producerProof priv _ _) in *.
  set (sel := map _ _) in Hrun.
  assert (Hin : m ∈ sel).
  { destruct (_ =? 0); [subst; by apply elem_of_nil in Hm|].
    destruct (step =? 0); subst out.
    - apply list_elem_of_singleton in Hm. symmetry in Hm.
      by apply keep_min_fold_min in Hm as [[Hin|?] _].
    - apply list_elem_of_fmap in Hm as (m' & [= <-] & Hm).
      destruct (_ >? _); [apply (subseteq_take _ _ m) in Hm|]; by rewrite Hperm in Hm. }
  apply list_elem_of_In, in_map_iff in Hin as (i & <- & Hi).
  apply list_elem_of_In, selectedTickets2_elem in Hi as [Hi Hsel].
  by exists priv, i.
Qed.

(** The string the first verifier hashes. *)
Lemma rev1_hash2_call (n : Rev1.node) (height step : Z) (seed : string)
    (sh : SortHash) (p : HashProof) (data : string) :
  In (CallHash2 data)
     (fst (Rev1.verifySort_run n height step seed
             (Some {| MsgSortHash := Some sh; MsgProof := Some p |}))) ->
  data = fmt.Sprintf_x_d_d (VrfHash p) (Index sh) (Num sh).
Proof.
  unfold Rev1.verifySort_run, logged.
  repeat (case_match; simpl in *; simplify_eq; try done);
    intros Hin; repeat (destruct Hin as [Hin|Hin]; simplify_eq; try done).
Qed.

(** The string the second verifier hashes. *)
Lemma rev2_hash2_call (n : Rev2.node) (height step allw : Z) (seed : string)
    (sh : SortHash) (p : HashProof) (data : string) :
  In (CallHash2 data)
     (fst (Rev2.verifySort_run n height step allw seed
             (Some {| MsgSortHash := Some sh; MsgProof := Some p |}))) ->
  data = fmt.Sprintf_x_d (VrfHash p) (Index sh).
Proof.
  unfold Rev2.verifySort_run, logged.
  repeat (case_match; simpl in *; simplify_eq; try done);
    intros Hin; repeat (destruct Hin as [Hin|Hin]; simplify_eq; try done).
Qed.

(** A message past the genesis window that a verifier accepts carries the
    hash the verifier recomputed. *)
Lemma rev1_accepted_hash (n : Rev1.node) (height step : Z) (seed : string)
    (sh : SortHash) (p : HashProof) :
  Pos33SortBlocks < height ->
  Rev1.verifySort n height step seed (Some {| MsgSortHash := Some sh; MsgProof := Some p |}) = Ok ->
  Hash sh = hash2 (fmt.Sprintf_x_d_d (VrfHash p) (Index sh) (Num sh)).
Proof.
  intros Hh. unfold Rev1.verifySort, Rev1.verifySort_run, logged.
  destruct (Z.leb_spec height Pos33SortBlocks); [lia|].
  repeat (case_match; simpl in *; simplify_eq; try done).
  intros _. symmetry. by apply String.eqb_eq, negb_false_iff.
Qed.

Lemma rev2_accepted_hash (n : Rev2.node) (height step allw : Z) (seed : string)
    (sh : SortHash) (p : HashProof) :
  Pos33SortitionSize < height ->
  Rev2.verifySort n height step allw seed
    (Some {| MsgSortHash := Some sh; MsgProof := Some p |}) = Ok ->
  Hash sh = hash2 (fmt.Sprintf_x_d (VrfHash p) (Index sh)).
Proof.
  intros Hh. unfold Rev2.verifySort, Rev2.verifySort_run, logged.
  destruct (Z.leb_spec height Pos33SortitionSize); [lia|].
  repeat (case_match; simpl in *; simplify_eq; try done).
  intros _. symmetry. by apply String.eqb_eq, negb_false_iff.
Qed.

(** C2, amended.  In the first revision the sort hash of every message of
    [voterSort] and [makerSort], and the hash [verifySort] recomputes, is
    SHA256(SHA256(lowercase_hex(vrf_hash) + "+" + decimal(index) + "+" +
    decimal(num))), whose third field is [num].  In the second revision
    [sort] and [verifySort] hash lowercase_hex(vrf_hash) + "+" +
    decimal(index), which has two fields and no [num]. *)
Theorem sort_hash_preimage (sort_Sort : list Pos33SortMsg -> list Pos33SortMsg)
    (n1 : Rev1.node) (n2 : Rev2.node) (seed : string) (height round num step allw : Z)
    (diff : float) (out : list (option Pos33SortMsg)) (m : Pos33SortMsg)
    (sh : SortHash) (p : HashProof) :
  (forall l, sort_Sort l ≡ₚ l) ->
  MsgSortHash m = Some sh ->
  MsgProof m = Some p ->
  fields (canonical_string (VrfHash p) (Index sh) (Num sh))
    = [lowercase_hex (VrfHash p); decimal (Index sh); decimal (Num sh)] /\
  fields (canonical_string2 (VrfHash p) (Index sh))
    = [lowercase_hex (VrfHash p); decimal (Index sh)] /\
  (Rev1.voterSort sort_Sort n1 seed height round num diff = Ret out -> Some m ∈ out ->
   Num sh = int32 num /\
   Hash sh = crypto_Sha256 (crypto_Sha256 (canonical_string (VrfHash p) (Index sh) num))) /\
  (Rev1.makerSort n1 seed height round = Ret out -> Some m ∈ out ->
   0 <= Num sh < 3 /\
   Hash sh = crypto_Sha256 (crypto_Sha256 (canonical_string (VrfHash p) (Index sh) (Num sh)))) /\
  (Pos33SortBlocks < height -> Rev1.verifySort n1 height step seed (Some m) = Ok ->
   Hash sh = crypto_Sha256 (crypto_Sha256 (canonical_string (VrfHash p) (Index sh) (Num sh)))) /\
  (Rev2.sort sort_Sort n2 seed height round step allw = Ret out -> Some m ∈ out ->
   Hash sh = crypto_Sha256 (crypto_Sha256 (canonical_string2 (VrfHash p) (Index sh)))) /\
  (Pos33SortitionSize < height -> Rev2.verifySort n2 height step allw seed (Some m) = Ok ->
   Hash sh = crypto_Sha256 (crypto_Sha256 (canonical_string2 (VrfHash p) (Index sh)))) /\
  (forall data,
     In (CallHash2 data) (fst (Rev1.verifySort_run n1 height step seed (Some m))) ->
     data = canonical_string (VrfHash p) (Index sh) (Num sh)) /\
  (forall data,
     In (CallHash2 data) (fst (Rev2.verifySort_run n2 height step allw seed (Some m))) ->
     data = canonical_string2 (VrfHash p) (Index sh)).
Proof.
  intros Hperm Hsh Hp.
  split; [apply fields_canonical_string|]. split; [apply fields_canonical_string2|].
  fold (hash2 (canonical_string (VrfHash p) (Index sh) num)).
  fold (hash2 (canonical_string (VrfHash p) (Index sh) (Num sh))).
  fold (hash2 (canonical_string2 (VrfHash p) (Index sh))).
  rewrite <- !Sprintf_x_d_d_canonical, <- Sprintf_x_d_canonical2.
  split; [|split; [|split; [|split; [|split; [|split]]]]].
  - intros Hrun Hm.
    destruct (voterSort_declares _ _ _ _ _ _ _ _ _ Hperm Hrun Hm)
      as (priv & i & _ & _ & -> & _).
    unfold ticket_msg in *. by simplify_eq/=.
  - intros Hrun Hm.
    destruct (makerSort_declares _ _ _ _ _ _ Hrun Hm) as (priv & j & i & _ & Hj & _ & -> & _).
    unfold ticket_msg in *. simplify_eq/=. rewrite int32_small by lia. split; [lia|done].
  - intros Hh Hok. destruct m as [? ?]. simpl in *. subst.
    by apply rev1_accepted_hash in Hok.
  - intros Hrun Hm.
    destruct (sort_declares _ _ _ _ _ _ _ _ _ Hperm Hrun Hm) as (priv & i & _ & _ & -> & _).
    unfold ticket_msg2 in *. by simplify_eq/=.
  - intros Hh Hok. destruct m as [? ?]. simpl in *. subst.
    by apply rev2_accepted_hash in Hok.
  - intros data Hin. destruct m as [? ?]. simpl in *. subst.
    by apply rev1_hash2_call in Hin.
  - intros data Hin. destruct m as [? ?]. simpl in *. subst.
    by apply rev2_hash2_call in Hin.
Qed.

End Preimage.

(** C2 as stated fails in the second revision: the pre-image [sort] hashes
    has two fields, and the hash of its message is not the double SHA-256
    of the three-field string. *)
Lemma sort_hash_without_num :
  let c := Demo.consts 1 2 1 5 in
  let n := Demo.node2 1 ∅ ∅ in
  exists m sh p,
    @Rev2.sort Demo.ext c Demo.insertion_sort n "seed" 100 0 1 1 = Ret [Some m] /\
    MsgSortHash m = Some sh /\ MsgProof m = Some p /\
    fields (fmt.Sprintf_x_d (VrfHash p) (Index sh))
      = [lowercase_hex (VrfHash p); decimal (Index sh)] /\
    String.eqb (Hash sh)
      (Sha256.Sum256 (Sha256.Sum256 (canonical_string (VrfHash p) (Index sh) (Num sh))))
      = false.
Proof.
  do 3 eexists. split; [vm_compute; reflexivity|].
  split; [reflexivity|]. split; [reflexivity|]. split; vm_compute; reflexivity.
Qed.

(** C2, amended, on the message [makerSort] produces with one ticket. *)
Lemma sort_hash_preimage_witness :
  let c := Demo.consts 1 2 1 5 in
  let n := Demo.node1 1 1 ∅ in
  exists m sh p,
    @Rev1.makerSort Demo.ext n "seed" 100 0 = Ret [Some m] /\
    MsgSortHash m = Some sh /\ MsgProof m = Some p /\
    Hash sh = @crypto_Sha256 Demo.ext
                (@crypto_Sha256 Demo.ext (canonical_string (VrfHash p) (Index sh) (Num sh))).
Proof.
  do 3 eexists. split; [vm_compute; reflexivity|].
  split; [reflexivity|]. split; [reflexivity|].
  lazymatch goal with
  | |- Hash ?sh = crypto_Sha256 (crypto_Sha256 (canonical_string (VrfHash ?p) _ _)) =>
      refine (proj2 (proj1 (proj2 (proj2 (proj2
                (@sort_hash_preimage Demo.ext (Demo.consts 1 2 1 5) Demo.insertion_sort
                   (Demo.node1 1 1 ∅) (Demo.node2 1 ∅ ∅)
                   "seed" 100 0 0 0 1 1%float
                   [Some {| MsgSortHash := Some sh; MsgProof := Some p |}]
                   {| MsgSortHash := Some sh; MsgProof := Some p |} sh p
                   insertion_sort_perm eq_refl eq_refl)))) _ _))
  end.
  - vm_compute. reflexivity.
  - apply list_elem_of_singleton. reflexivity.
Defined.

(** ** The single entry of [makerSort] *)

Section MakerEntry.
Context {ext : Externals}.

(** C4, as the code behaves.  With a signing key, [makerSort] returns a
    slice of exactly one entry: nil when no trial and ticket is selected,
    count 0 included, and otherwise a selected message whose sort hash is
    smallest over all trials and tickets. *)
Theorem makerSort_single_entry (n : Rev1.node) (seed : string) (height round : Z)
    (priv : PrivKey) (out : list (option Pos33SortMsg)) :
  Rev1.getPriv n = Some priv ->
  Rev1.makerSort n seed height round = Ret out ->
  let input := {| Seed := seed; Height := height; Round := int32 round; Step := int32 0 |} in
  let diff := Rev1.getDiff n height round in
  let proof := producerProof priv input diff in
  let sel := flat_map (fun j => map (ticket_msg (VrfHash proof) proof j)
                                    (selectedTickets (VrfHash proof) j diff (Rev1.myCount n)))
                      (seqZ 0 3) in
  length out = 1%nat /\
  (sel = [] -> out = [None]) /\
  (sel <> [] ->
   exists m, out = [Some m] /\ m ∈ sel /\ forall x, x ∈ sel -> Sorts_le m x).
Proof.
  intros Hpriv Hrun input diff proof sel.
  apply makerSort_result in Hrun. rewrite Hpriv in Hrun. cbv zeta in Hrun.
  fold input diff proof sel in Hrun. subst out.
  split; [done|]. split.
  - by intros ->.
  - intros Hne.
    destruct (fold_left (keep_min sortKey) sel None) as [m|] eqn:Hm.
    + exists m. split; [done|].
      apply keep_min_fold_min in Hm as [[Hin|?] Hmin]; [|done].
      split; [done|]. intros x Hx. apply Hmin. by left.
    + by apply keep_min_fold_None in Hm.
Qed.

End MakerEntry.

(** C4 at the failing input: no ticket, and the slice holds one nil entry. *)
Lemma makerSort_single_entry_witness :
  length [@None Pos33SortMsg] = 1%nat /\
  @Rev1.makerSort Demo.ext (Demo.node1 0 1 ∅) "seed" 100 0 = Ret [None].
Proof.
  destruct (@Rev1.makerSort Demo.ext (Demo.node1 0 1 ∅) "seed" 100 0) as [out|] eqn:Hrun;
    [|vm_compute in Hrun; discriminate].
  destruct (@makerSort_single_entry Demo.ext (Demo.node1 0 1 ∅) "seed" 100 0 "k"%string out
              eq_refl Hrun) as (_ & Hnone & _).
  split; [reflexivity|]. f_equal. apply Hnone. reflexivity.
Defined.

(** ** The aggregator of the first revision *)

Section MakerSorts.
Context {ext : Externals} {consts : Consts}.

Lemma passing1_elem (n : Rev1.node) (seed : string) (cands : list (option Pos33SortMsg))
    (s : Pos33SortMsg) :
  s ∈ passing1 n seed cands <-> Some s ∈ cands /\ Rev1.checkSort n s seed 0 = None.
Proof.
  unfold passing1. rewrite list_elem_of_omap. split.
  - intros ([s'|] & Hin & Hs); [|done].
    destruct (Rev1.checkSort n s' seed 0) eqn:Hc; [done|]. by simplify_eq.
  - intros [Hin Hc]. exists (Some s). by rewrite Hc.
Qed.

Lemma passing1_perm (n : Rev1.node) (seed : string) (cands cands' : list (option Pos33SortMsg)) :
  cands ≡ₚ cands' -> passing1 n seed cands ≡ₚ passing1 n seed cands'.
Proof. intros Hp. unfold passing1. by rewrite Hp. Qed.

(** The candidate loop of a slot is the running minimum over the
    candidates that pass; it ends without a panic only if each of them
    carries a sort hash. *)
Lemma getMakerSorts_slot_loop (n : Rev1.node) (seed : string)
    (cands : list (option Pos33SortMsg)) (st r : option Pos33SortMsg) :
  (forall c, st = Some c -> is_Some (MsgSortHash c)) ->
  loop (Rev1.getMakerSorts_body n seed) cands st = Ret r ->
  r = fold_left (keep_min sortKey) (passing1 n seed cands) st /\
  (forall c, r = Some c -> is_Some (MsgSortHash c)).
Proof.
  revert st. induction cands as [|s cands IH]; simpl; intros st Hst Hrun.
  - injection Hrun as <-. done.
  - unfold Rev1.getMakerSorts_body in Hrun at 1. destruct s as [s'|]; [|by apply IH].
    unfold passing1. simpl. fold (passing1 n seed cands).
    destruct (Rev1.checkSort n s' seed 0) eqn:Hc; [by apply IH|]. simpl.
    destruct st as [c|].
    + destruct (Hst c eq_refl) as [a Ha]. rewrite Ha in Hrun.
      destruct (MsgSortHash s') as [b|] eqn:Hb; [|done].
      apply IH in Hrun; [|intros c' [= <-]; destruct (string_gt _ _); by eauto].
      destruct Hrun as [-> Hr]. split; [|done].
      f_equal. unfold keep_min, sortKey. by rewrite Ha, Hb.
    + destruct (MsgSortHash s') as [b|] eqn:Hb; [|done].
      rewrite string_gt_irrefl in Hrun.
      apply IH in Hrun; [|intros c' [= <-]; by eauto].
      by destruct Hrun as [-> Hr].
Qed.

Lemma getMakerSorts_slots_loop (n : Rev1.node) (seed : string)
    (slots : gmap Z (list (option Pos33SortMsg))) (idxs : list Z)
    (acc out : list (option Pos33SortMsg)) :
  loop (fun pss i =>
          match loop (Rev1.getMakerSorts_body n seed) (default [] (slots !! i)) None with
          | Panic => Panic
          | Ret minSort => Ret (pss ++ [minSort])
          end) idxs acc = Ret out ->
  out = acc ++ map (fun i => fold_left (keep_min sortKey)
                               (passing1 n seed (default [] (slots !! i))) None) idxs.
Proof.
  revert acc. induction idxs as [|i idxs IH]; simpl; intros acc Hrun.
  - rewrite app_nil_r. congruence.
  - destruct (loop (Rev1.getMakerSorts_body n seed) _ None) as [r|] eqn:Hslot; [|done].
    apply getMakerSorts_slot_loop in Hslot as [-> _]; [|done].
    apply IH in Hrun. rewrite Hrun. by rewrite <- app_assoc.
Qed.

(** What [getMakerSorts] returns: nothing without a seed or without the
    height and round in the table, and otherwise, for each of the three
    slots, the running minimum over the candidates that pass. *)
Lemma getMakerSorts_result (n : Rev1.node) (height round : Z)
    (out : list (option Pos33SortMsg)) :
  Rev1.getMakerSorts n height round = Ret out ->
  match Rev1.getSortSeed n (int64 (height - Pos33SortBlocks)) with
  | inl _ => out = []
  | inr seed =>
      match Rev1.cms n !! height with
      | None => out = []
      | Some rounds =>
          match rounds !! round with
          | None => out = []
          | Some slots =>
              out = map (fun i => fold_left (keep_min sortKey)
                                    (passing1 n seed (default [] (slots !! i))) None)
                        (seqZ 0 3)
          end
      end
  end.
Proof.
  unfold Rev1.getMakerSorts.
  destruct (Rev1.getSortSeed n _) as [e|seed]; [congruence|].
  destruct (Rev1.cms n !! height) as [rounds|]; [|congruence].
  destruct (rounds !! round) as [slots|]; [|congruence].
  intros Hrun. by apply getMakerSorts_slots_loop in Hrun.
Qed.

End MakerSorts.

(** ** The aggregator of the second revision *)

Section Proposer.
Context {ext : Externals} {consts : Consts}.

Lemma passing2_elem (n : Rev2.node) (seed : string) (allw : Z)
    (cands : list (option Pos33SortMsg)) (s : option Pos33SortMsg) :
  s ∈ passing2 n seed allw cands <-> s ∈ cands /\ Rev2.checkSort n s seed allw 0 = None.
Proof.
  unfold passing2. rewrite list_elem_of_In, filter_In, <- list_elem_of_In.
  destruct (Rev2.checkSort n s seed allw 0); intuition congruence.
Qed.

(** The first loop of [bp]: the map holds, under each key, a candidate that
    passes and has that sort hash, and every candidate that passes has its
    hash among the keys. *)
Lemma bp_collect_loop (n : Rev2.node) (seed : string) (allw : Z)
    (cands : list (option Pos33SortMsg)) (pss0 pss : gmap string Pos33SortMsg) :
  loop (Rev2.bp_collect n seed allw) cands pss0 = Ret pss ->
  (forall k s, pss !! k = Some s ->
     pss0 !! k = Some s \/
     (Some s ∈ passing2 n seed allw cands /\ sortKey s = k)) /\
  (forall k, is_Some (pss0 !! k) -> is_Some (pss !! k)) /\
  (forall x, x ∈ passing2 n seed allw cands ->
     exists s sh, x = Some s /\ MsgSortHash s = Some sh /\ is_Some (pss !! Hash sh)).
Proof.
  revert pss0. induction cands as [|x cands IH]; simpl; intros pss0 Hrun.
  - injection Hrun as <-. split; [by left|]. split; [done|].
    intros x Hx. by apply elem_of_nil in Hx.
  - unfold Rev2.bp_collect in Hrun at 1.
    destruct (Rev2.checkSort n x seed allw 0) eqn:Hc.
    + apply IH in Hrun as (Hsub & Hmono & Hall). done.
    + destruct x as [s|]; [|done]. destruct (MsgSortHash s) as [sh|] eqn:Hsh; [|done].
      apply IH in Hrun as (Hsub & Hmono & Hall). split; [|split].
      * intros k s' Hk. destruct (Hsub k s' Hk) as [Hins|[Hin Hkey]].
        -- apply lookup_insert_Some in Hins as [[<- <-]|[_ Hold]]; [|by left].
           right. split; [by left|]. unfold sortKey. by rewrite Hsh.
        -- right. split; [by right|done].
      * intros k Hk. apply Hmono. rewrite lookup_insert. case_decide; [by eexists|done].
      * intros y Hy. apply elem_of_cons in Hy as [->|Hy]; [|by apply Hall].
        exists s, sh. split; [done|]. split; [done|].
        apply Hmono. rewrite lookup_insert_eq. by eexists.
Qed.

(** The first loop ends without a panic when every candidate that passes
    is a message with a sort hash. *)
Lemma bp_collect_total (n : Rev2.node) (seed : string) (allw : Z)
    (cands : list (option Pos33SortMsg)) (pss0 : gmap string Pos33SortMsg) :
  (forall x, x ∈ passing2 n seed allw cands ->
     exists s sh, x = Some s /\ MsgSortHash s = Some sh) ->
  exists pss, loop (Rev2.bp_collect n seed allw) cands pss0 = Ret pss.
Proof.
  revert pss0. induction cands as [|x cands IH]; simpl; intros pss0 Hall; [by eexists|].
  unfold Rev2.bp_collect at 1.
  destruct (Rev2.checkSort n x seed allw 0) eqn:Hc; [by apply IH|].
  destruct (Hall x) as (s & sh & -> & Hsh); [by left|]. rewrite Hsh.
  apply IH. intros y Hy. apply Hall. by right.
Qed.


(** The second loop of [bp] is the running minimum over the entries of the
    map, as long as no key is empty. *)
Lemma bp_min_loop (entries : list (string * Pos33SortMsg))
    (st : option (string * Pos33SortMsg)) :
  (forall e, e ∈ entries \/ st = Some e -> fst e <> EmptyString) ->
  fold_left Rev2.bp_min entries
    (match st with Some e => (fst e, Some (snd e)) | None => (EmptyString, None) end)
  = match fold_left (keep_min fst) entries st with
    | Some e => (fst e, Some (snd e))
    | None => (EmptyString, None)
    end.
Proof.
  revert st. induction entries as [|e entries IH]; simpl; intros st Hne; [done|].
  rewrite <- (IH (keep_min fst st e)).
  - f_equal. unfold Rev2.bp_min, keep_min. destruct st as [c|]; simpl; [|done].
    destruct (String.eqb_spec (fst c) ""); [by destruct (Hne c); auto|].
    by destruct (string_gt (fst c) (fst e)).
  - intros e' [He|He]; [apply Hne; left; by right|].
    unfold keep_min in He. injection He as <-.
    destruct st as [c|]; [|apply Hne; left; by left].
    destruct (string_gt _ _); apply Hne; [left; by left|by right].
Qed.

(** What [bp] returns when it does not panic. *)
Lemma bp_result (range_pss : gmap string Pos33SortMsg -> list (string * Pos33SortMsg))
    (n : Rev2.node) (height round : Z) (out : string * string) :
  (forall pss, range_pss pss ≡ₚ map_to_list pss) ->
  Rev2.bp range_pss n height round = Ret out ->
  match Rev2.getSortSeed n (int64 (height - Pos33SortitionSize)) with
  | inl _ => out = (EmptyString, EmptyString)
  | inr seed =>
      let allw := Rev2.allCount n (int64 (height - Pos33SortitionSize)) in
      let pass := passing2 n seed allw (candidates2 n height round) in
      (forall x, x ∈ pass -> exists s sh, x = Some s /\ MsgSortHash s = Some sh) /\
      (pass = [] -> out = (EmptyString, EmptyString)) /\
      ((forall s, Some s ∈ pass -> sortKey s <> EmptyString) -> pass <> [] ->
       exists s, Some s ∈ pass /\ out = (sortKey s, msgPubkey s) /\
                 forall s', Some s' ∈ pass -> String.leb (sortKey s) (sortKey s') = true)
  end.
Proof.
  intros Hrange. unfold Rev2.bp. fold (candidates2 n height round).
  destruct (Rev2.getSortSeed n _) as [e|seed]; [congruence|]. cbv zeta.
  set (allw := Rev2.allCount n _). set (cands := candidates2 n height round).
  destruct (loop _ cands ∅) as [pss|] eqn:Hloop; [|done].
  apply bp_collect_loop in Hloop as (Hsub & _ & Hall).
  intros Hrun. split; [|split].
  - intros x Hx. destruct (Hall x Hx) as (s & sh & ? & ? & _). by exists s, sh.
  - intros Hnil. destruct (Z.eqb_spec (Z.of_nat (size pss)) 0) as [|Hsize]; [congruence|].
    exfalso. apply Hsize. apply Nat2Z.inj_iff with (m := 0%nat), map_size_empty_iff.
    apply map_empty. intros k. destruct (pss !! k) as [s|] eqn:Hk; [|done].
    destruct (Hsub k s Hk) as [Hk0|[Hin _]]; [by rewrite lookup_empty in Hk0|].
    rewrite Hnil in Hin. by apply elem_of_nil in Hin.
  - intros Hkeys Hne.
    destruct (Z.eqb_spec (Z.of_nat (size pss)) 0) as [Hsize|Hsize].
    { exfalso. apply Nat2Z.inj_iff with (m := 0%nat), map_size_empty_iff in Hsize.
      destruct (passing2 n seed allw cands) as [|x l] eqn:Hp; [done|].
      destruct (Hall x) as (s & sh & _ & _ & [s' Hs']); [by left|].
      by rewrite Hsize, lookup_empty in Hs'. }
    assert (Hent : forall e, e ∈ range_pss pss ->
              Some (snd e) ∈ passing2 n seed allw cands /\ sortKey (snd e) = fst e).
    { intros [k s] He. rewrite Hrange in He. apply elem_of_map_to_list in He.
      destruct (Hsub k s He) as [Hk0|?]; [by rewrite lookup_empty in Hk0|done]. }
    rewrite (bp_min_loop (range_pss pss) None) in Hrun.
    2:{ intros e [He|?]; [|done]. destruct (Hent e He) as [Hin <-]. by apply Hkeys. }
    destruct (fold_left (keep_min fst) (range_pss pss) None) as [[k s]|] eqn:Hfold.
    + apply keep_min_fold_min in Hfold as [[Hin|?] Hmin]; [|done].
      destruct (Hent _ Hin) as [Hpass Hkey]. simpl in *.
      exists s. split; [done|]. split.
      * unfold msgPubkey. destruct s as [? [p|]]; simpl in *; congruence.
      * intros s' Hs'. destruct (Hall _ Hs') as (s2 & sh & [= <-] & Hsh & [s3 Hs3]).
        assert (Hin3 : (Hash sh, s3) ∈ range_pss pss).
        { rewrite Hrange. by apply elem_of_map_to_list. }
        rewrite Hkey. replace (sortKey s') with (fst (Hash sh, s3)).
        -- apply Hmin. by left.
        -- unfold sortKey. by rewrite Hsh.
    + apply keep_min_fold_None in Hfold.
      exfalso. apply Hsize. apply Nat2Z.inj_iff with (m := 0%nat).
      rewrite <- length_map_to_list, <- (Permutation_length (Hrange pss)), Hfold. done.
Qed.

End Proposer.

(** ** The winner and the order of the candidates *)

Lemma keep_min_fold_perm_key_opt {X : Type} (key : X -> string) (xs ys : list X) :
  xs ≡ₚ ys ->
  key <$> fold_left (keep_min key) xs None = key <$> fold_left (keep_min key) ys None.
Proof.
  intros Hp.
  destruct (fold_left (keep_min key) xs None) as [r1|] eqn:H1;
    destruct (fold_left (keep_min key) ys None) as [r2|] eqn:H2; simpl.
  - f_equal. by eapply keep_min_fold_perm_key.
  - apply keep_min_fold_None in H2. subst ys. apply Permutation_nil_r in Hp. subst xs. done.
  - apply keep_min_fold_None in H1. subst xs. symmetry in Hp.
    apply Permutation_nil_r in Hp. subst ys. done.
  - done.
Qed.

Section Winner.
Context {ext : Externals} {consts : Consts}.

(** The table of the first revision: each slot of the result is nil when
    no candidate of the slot passes, and otherwise a passing candidate of
    smallest sort hash. *)
Lemma getMakerSorts_minimum (n : Rev1.node) (height round : Z) (seed : string)
    (rounds : gmap Z (gmap Z (list (option Pos33SortMsg))))
    (slots : gmap Z (list (option Pos33SortMsg))) (out : list (option Pos33SortMsg)) :
  Rev1.getSortSeed n (int64 (height - Pos33SortBlocks)) = inr seed ->
  Rev1.cms n !! height = Some rounds ->
  rounds !! round = Some slots ->
  Rev1.getMakerSorts n height round = Ret out ->
  length out = 3%nat /\
  forall i, 0 <= i < 3 ->
    let pass := passing1 n seed (default [] (slots !! i)) in
    (pass = [] -> out !! Z.to_nat i = Some None) /\
    (pass <> [] ->
     exists w, out !! Z.to_nat i = Some (Some w) /\ w ∈ pass /\
               forall x, x ∈ pass -> Sorts_le w x).
Proof.
  intros Hseed Hh Hr Hrun. apply getMakerSorts_result in Hrun.
  rewrite Hseed, Hh, Hr in Hrun. subst out. split; [done|].
  intros i Hi pass.
  assert (Hlook : map (fun i => fold_left (keep_min sortKey)
                                  (passing1 n seed (default [] (slots !! i))) None)
                      (seqZ 0 3) !! Z.to_nat i
                  = Some (fold_left (keep_min sortKey) pass None)).
  { assert (Hcases : i = 0 \/ i = 1 \/ i = 2) by lia.
    destruct Hcases as [->|[->| ->]]; reflexivity. }
  rewrite Hlook. split.
  - by intros ->.
  - intros Hne. destruct (fold_left (keep_min sortKey) pass None) as [w|] eqn:Hw.
    + exists w. split; [done|].
      apply keep_min_fold_min in Hw as [[Hin|?] Hmin]; [|done].
      split; [done|]. intros x Hx. apply Hmin. by left.
    + by apply keep_min_fold_None in Hw.
Qed.

(** Two tables that hold the same candidates in each slot, in any order,
    give the same winning sort hashes, and the same winners when no two
    passing candidates of a slot share a sort hash. *)
Lemma getMakerSorts_order (n n' : Rev1.node) (height round : Z) (seed : string)
    (rounds rounds' : gmap Z (gmap Z (list (option Pos33SortMsg))))
    (slots slots' : gmap Z (list (option Pos33SortMsg)))
    (out out' : list (option Pos33SortMsg)) :
  Rev1.getSortSeed n (int64 (height - Pos33SortBlocks)) = inr seed ->
  Rev1.getSortSeed n' (int64 (height - Pos33SortBlocks)) = inr seed ->
  Rev1.checkSort n = Rev1.checkSort n' ->
  Rev1.cms n !! height = Some rounds -> rounds !! round = Some slots ->
  Rev1.cms n' !! height = Some rounds' -> rounds' !! round = Some slots' ->
  (forall i, default [] (slots !! i) ≡ₚ default [] (slots' !! i)) ->
  Rev1.getMakerSorts n height round = Ret out ->
  Rev1.getMakerSorts n' height round = Ret out' ->
  map (option_map sortKey) out = map (option_map sortKey) out' /\
  ((forall i a b, a ∈ passing1 n seed (default [] (slots !! i)) ->
                  b ∈ passing1 n seed (default [] (slots !! i)) ->
                  sortKey a = sortKey b -> a = b) ->
   out = out').
Proof.
  intros Hseed Hseed' Hcheck Hh Hr Hh' Hr' Hperm Hrun Hrun'.
  apply getMakerSorts_result in Hrun, Hrun'.
  rewrite Hseed, Hh, Hr in Hrun. rewrite Hseed', Hh', Hr' in Hrun'. subst out out'.
  assert (Hpass : forall i, passing1 n seed (default [] (slots !! i))
                            ≡ₚ passing1 n' seed (default [] (slots' !! i))).
  { intros i. unfold passing1. rewrite <- Hcheck. by rewrite (Hperm i). }
  split.
  - rewrite !map_map. apply map_ext. intros i.
    by apply (keep_min_fold_perm_key_opt sortKey).
  - intros Hinj. apply map_ext. intros i.
    apply keep_min_fold_perm; [done|]. apply Hinj.
Qed.

(** One table and two iteration orders of the map of [bp]: the same
    result, as long as no candidate has an empty sort hash. *)
Lemma bp_range_order (range1 range2 : gmap string Pos33SortMsg -> list (string * Pos33SortMsg))
    (n : Rev2.node) (height round : Z) :
  (forall pss, range1 pss ≡ₚ map_to_list pss) ->
  (forall pss, range2 pss ≡ₚ map_to_list pss) ->
  (forall s, Some s ∈ candidates2 n height round -> sortKey s <> EmptyString) ->
  Rev2.bp range1 n height round = Rev2.bp range2 n height round.
Proof.
  intros H1 H2 Hkeys. unfold Rev2.bp. fold (candidates2 n height round).
  destruct (Rev2.getSortSeed n _) as [e|seed]; [done|]. cbv zeta.
  destruct (loop _ _ ∅) as [pss|] eqn:Hloop; [|done].
  destruct (Z.of_nat (size pss) =? 0); [done|].
  apply bp_collect_loop in Hloop as (Hsub & _ & _).
  assert (Hent : forall e, e ∈ map_to_list pss -> fst e <> EmptyString).
  { intros [k s] He. apply elem_of_map_to_list in He.
    destruct (Hsub k s He) as [Hk0|[Hin <-]]; [by rewrite lookup_empty in Hk0|].
    apply Hkeys. by apply passing2_elem in Hin as [Hin _]. }
  rewrite (bp_min_loop (range1 pss) None), (bp_min_loop (range2 pss) None).
  - rewrite (keep_min_fold_perm fst (range1 pss) (range2 pss)); [done| |].
    + by rewrite H1, H2.
    + intros [k s] [k' s'] Ha Hb Hk. simpl in Hk. subst k'.
      rewrite H1 in Ha, Hb. apply elem_of_map_to_list in Ha, Hb. congruence.
  - intros e [He|?]; [|done]. apply Hent. by rewrite <- H2.
  - intros e [He|?]; [|done]. apply Hent. by rewrite <- H1.
Qed.

(** Two tables that hold the same candidates, in any order: the same
    winning sort hash, and the same public key when no two passing
    candidates share a sort hash. *)
Lemma bp_candidate_order
    (range1 range2 : gmap string Pos33SortMsg -> list (string * Pos33SortMsg))
    (n n' : Rev2.node) (height round : Z) (k k' pk pk' : string) :
  (forall pss, range1 pss ≡ₚ map_to_list pss) ->
  (forall pss, range2 pss ≡ₚ map_to_list pss) ->
  Rev2.getSortSeed n = Rev2.getSortSeed n' ->
  Rev2.allCount n = Rev2.allCount n' ->
  Rev2.checkSort n = Rev2.checkSort n' ->
  candidates2 n height round ≡ₚ candidates2 n' height round ->
  (forall s, Some s ∈ candidates2 n height round -> sortKey s <> EmptyString) ->
  Rev2.bp range1 n height round = Ret (k, pk) ->
  Rev2.bp range2 n' height round = Ret (k', pk') ->
  k = k' /\
  ((forall seed a b,
      Rev2.getSortSeed n (int64 (height - Pos33SortitionSize)) = inr seed ->
      let pass := passing2 n seed (Rev2.allCount n (int64 (height - Pos33SortitionSize)))
                           (candidates2 n height round) in
      Some a ∈ pass -> Some b ∈ pass -> sortKey a = sortKey b -> a = b) ->
   pk = pk').
Proof.
  intros H1 H2 Hseed Hall Hcheck Hperm Hkeys Hrun Hrun'.
  apply bp_result in Hrun, Hrun'; [|done..].
  rewrite <- Hseed, <- Hall in Hrun'.
  destruct (Rev2.getSortSeed n _) as [e|seed] eqn:Hseed0; [by simplify_eq|].
  cbv zeta in Hrun, Hrun'.
  set (allw := Rev2.allCount n _) in *.
  set (pass := passing2 n seed allw (candidates2 n height round)) in *.
  set (pass' := passing2 n' seed allw (candidates2 n' height round)) in *.
  assert (Hsame : forall x, x ∈ pass <-> x ∈ pass').
  { intros x. unfold pass, pass'. rewrite !passing2_elem, <- Hcheck, Hperm. done. }
  destruct Hrun as (_ & Hnil & Hmin). destruct Hrun' as (_ & Hnil' & Hmin').
  destruct pass as [|x l] eqn:Hp.
  - assert (pass' = []) as Hp'.
    { destruct pass' as [|y l'] eqn:Hp'; [done|]. exfalso.
      by apply (elem_of_nil y), Hsame; left. }
    specialize (Hnil eq_refl). specialize (Hnil' Hp'). by simplify_eq.
  - assert (Hkeys1 : forall s, Some s ∈ x :: l -> sortKey s <> EmptyString).
    { intros s Hs. apply Hkeys. rewrite <- Hp in Hs. by apply passing2_elem in Hs as [? _]. }
    destruct Hmin as (s & Hs & Hout & Hle); [done|done|].
    destruct Hmin' as (s' & Hs' & Hout' & Hle').
    { intros s0 Hs0. apply Hkeys1, Hsame, Hs0. }
    { intros Hp'. apply (elem_of_nil x). rewrite <- Hp'. apply Hsame. by left. }
    simplify_eq.
    assert (Hk : sortKey s = sortKey s').
    { apply String.leb_antisym; [apply Hle, Hsame, Hs'|apply Hle', Hsame, Hs]. }
    split; [done|]. intros Hinj. f_equal.
    apply (Hinj seed s s' eq_refl); [by rewrite Hp|rewrite Hp; by apply Hsame|done].
Qed.

End Winner.

(** C10 as stated fails: the message [makerSort] produces and the same
    message declaring the difficulty 2 have the same sort hash and both
    pass [verifySort]; [getMakerSorts] returns whichever of the two comes
    first in the slot. *)
Lemma getMakerSorts_tie_follows_order :
  let c := Demo.consts 1 2 1 5 in
  exists a b,
    @Rev1.makerSort Demo.ext (Demo.node1 1 1 ∅) "seed" 100 0 = Ret [Some a] /\
    b = Demo.redeclare a 2 /\
    option_map Diff (MsgProof a) = Some 1%float /\
    option_map Diff (MsgProof b) = Some 2%float /\
    sortKey a = sortKey b /\
    @Rev1.verifySort Demo.ext c (Demo.node1 1 1 ∅) 100 0 "seed" (Some a) = Ok /\
    @Rev1.verifySort Demo.ext c (Demo.node1 1 1 ∅) 100 0 "seed" (Some b) = Ok /\
    @Rev1.getMakerSorts Demo.ext c (Demo.node1 1 1 (Demo.table1 [Some a; Some b])) 100 0
      = Ret [Some a; None; None] /\
    @Rev1.getMakerSorts Demo.ext c (Demo.node1 1 1 (Demo.table1 [Some b; Some a])) 100 0
      = Ret [Some b; None; None].
Proof.
  do 2 eexists. split; [vm_compute; reflexivity|]. split; [reflexivity|].
  repeat split; vm_compute; reflexivity.
Qed.

Section Aggregators.
Context {ext : Externals} {consts : Consts}.

(** C10, amended.  For a table whose height and round are present,
    [getMakerSorts] returns for each of the three slots nil when no
    candidate of the slot passes [checkSort], and otherwise a passing
    candidate of lexicographically smallest sort hash; [bp] returns the
    smallest sort hash among the passing candidates with the public key of
    a candidate that has it, as long as no sort hash is empty.  The winning
    sort hash is the same for every order of the candidates and, in [bp],
    for every iteration order of the map; the winning message or public key
    is the same when no two passing candidates share a sort hash. *)
Theorem aggregator_minimum_and_order
    (range1 range2 : gmap string Pos33SortMsg -> list (string * Pos33SortMsg))
    (n1 n1' : Rev1.node) (n2 n2' : Rev2.node) (height round : Z) (seed : string)
    (rounds rounds' : gmap Z (gmap Z (list (option Pos33SortMsg))))
    (slots slots' : gmap Z (list (option Pos33SortMsg))) :
  (forall pss, range1 pss ≡ₚ map_to_list pss) ->
  (forall pss, range2 pss ≡ₚ map_to_list pss) ->
  Rev1.getSortSeed n1 (int64 (height - Pos33SortBlocks)) = inr seed ->
  Rev1.cms n1 !! height = Some rounds ->
  rounds !! round = Some slots ->
  (forall out,
     Rev1.getMakerSorts n1 height round = Ret out ->
     length out = 3%nat /\
     forall i, 0 <= i < 3 ->
       let pass := passing1 n1 seed (default [] (slots !! i)) in
       (pass = [] -> out !! Z.to_nat i = Some None) /\
       (pass <> [] ->
        exists w, out !! Z.to_nat i = Some (Some w) /\ w ∈ pass /\
                  forall x, x ∈ pass -> Sorts_le w x)) /\
  (forall out out',
     Rev1.getSortSeed n1' (int64 (height - Pos33SortBlocks)) = inr seed ->
     Rev1.checkSort n1 = Rev1.checkSort n1' ->
     Rev1.cms n1' !! height = Some rounds' -> rounds' !! round = Some slots' ->
     (forall i, default [] (slots !! i) ≡ₚ default [] (slots' !! i)) ->
     Rev1.getMakerSorts n1 height round = Ret out ->
     Rev1.getMakerSorts n1' height round = Ret out' ->
     map (option_map sortKey) out = map (option_map sortKey) out' /\
     ((forall i a b, a ∈ passing1 n1 seed (default [] (slots !! i)) ->
                     b ∈ passing1 n1 seed (default [] (slots !! i)) ->
                     sortKey a = sortKey b -> a = b) ->
      out = out')) /\
  (forall out,
     Rev2.bp range1 n2 height round = Ret out ->
     match Rev2.getSortSeed n2 (int64 (height - Pos33SortitionSize)) with
     | inl _ => out = (EmptyString, EmptyString)
     | inr seed2 =>
         let allw := Rev2.allCount n2 (int64 (height - Pos33SortitionSize)) in
         let pass := passing2 n2 seed2 allw (candidates2 n2 height round) in
         (pass = [] -> out = (EmptyString, EmptyString)) /\
         ((forall s, Some s ∈ pass -> sortKey s <> EmptyString) -> pass <> [] ->
          exists s, Some s ∈ pass /\ out = (sortKey s, msgPubkey s) /\
                    forall s', Some s' ∈ pass -> String.leb (sortKey s) (sortKey s') = true)
     end) /\
  ((forall s, Some s ∈ candidates2 n2 height round -> sortKey s <> EmptyString) ->
   Rev2.bp range1 n2 height round = Rev2.bp range2 n2 height round) /\
  (forall k k' pk pk',
     Rev2.getSortSeed n2 = Rev2.getSortSeed n2' ->
     Rev2.allCount n2 = Rev2.allCount n2' ->
     Rev2.checkSort n2 = Rev2.checkSort n2' ->
     candidates2 n2 height round ≡ₚ candidates2 n2' height round ->
     (forall s, Some s ∈ candidates2 n2 height round -> sortKey s <> EmptyString) ->
     Rev2.bp range1 n2 height round = Ret (k, pk) ->
     Rev2.bp range2 n2' height round = Ret (k', pk') ->
     k = k' /\
     ((forall seed2 a b,
         Rev2.getSortSeed n2 (int64 (height - Pos33SortitionSize)) = inr seed2 ->
         let pass := passing2 n2 seed2 (Rev2.allCount n2 (int64 (height - Pos33SortitionSize)))
                              (candidates2 n2 height round) in
         Some a ∈ pass -> Some b ∈ pass -> sortKey a = sortKey b -> a = b) ->
      pk = pk')).
Proof.
  intros H1 H2 Hseed Hh Hr. split; [|split; [|split; [|split]]].
  - intros out. by apply getMakerSorts_minimum with (rounds := rounds).
  - intros out out' Hseed' Hcheck Hh' Hr' Hperm.
    by apply getMakerSorts_order with (rounds := rounds) (rounds' := rounds') (slots' := slots').
  - intros out Hrun. apply bp_result in Hrun; [|done].
    destruct (Rev2.getSortSeed n2 _); [done|]. cbv zeta in *. tauto.
  - by apply bp_range_order.
  - intros k k' pk pk'. by apply bp_candidate_order.
Qed.

End Aggregators.

(** C10, amended, on two candidates with the sort hashes ["a"] and ["b"],
    stored in either order: [getMakerSorts] returns the same three slots for
    both orders, with the candidate of hash ["a"] in slot 0, and [bp] the
    same hash ["a"] and key. *)
Lemma aggregator_minimum_and_order_witness :
  let c := Demo.consts 1 2 1 5 in
  let a := Demo.candidate "a" 0 "ka" in
  let b := Demo.candidate "b" 1 "kb" in
  let n := Demo.node1 1 1 (Demo.table1 [Some b; Some a]) in
  let n' := Demo.node1 1 1 (Demo.table1 [Some a; Some b]) in
  let n2 := Demo.node2 1 ∅ (Demo.table2 [Some b; Some a]) in
  let n2' := Demo.node2 1 ∅ (Demo.table2 [Some a; Some b]) in
  (exists out out' w,
     @Rev1.getMakerSorts Demo.ext c n 100 0 = Ret out /\
     @Rev1.getMakerSorts Demo.ext c n' 100 0 = Ret out' /\
     out = out' /\
     out !! 0%nat = Some (Some w) /\
     forall x, x ∈ @passing1 Demo.ext n "seed" [Some b; Some a] -> Sorts_le w x) /\
  (exists k pk k' pk',
     @Rev2.bp Demo.ext c map_to_list n2 100 0 = Ret (k, pk) /\
     @Rev2.bp Demo.ext c map_to_list n2' 100 0 = Ret (k', pk') /\
     k = k' /\ pk = pk').
Proof.
  intros c a b n n' n2 n2'.
  assert (forall (l : list (option Pos33SortMsg)) (i : Z),
            default [] (({[ 0 := l ]} : gmap Z (list (option Pos33SortMsg))) !! i)
            = if decide (i = 0) then l else []) as Hslot.
  { intros l i. destruct (decide (i = 0)) as [->|Hi].
    - by rewrite lookup_singleton_eq.
    - by rewrite lookup_singleton_ne. }
  set (slots := ({[ 0 := [Some b; Some a] ]} : gmap Z (list (option Pos33SortMsg)))).
  set (slots' := ({[ 0 := [Some a; Some b] ]} : gmap Z (list (option Pos33SortMsg)))).
  set (rounds := ({[ 0 := slots ]} : gmap Z (gmap Z (list (option Pos33SortMsg))))).
  set (rounds' := ({[ 0 := slots' ]} : gmap Z (gmap Z (list (option Pos33SortMsg))))).
  assert (Rev1.cms n !! 100 = Some rounds) as Hh by (vm_compute; reflexivity).
  assert (rounds !! 0 = Some slots) as Hr by (vm_compute; reflexivity).
  assert (Rev1.cms n' !! 100 = Some rounds') as Hh' by (vm_compute; reflexivity).
  assert (rounds' !! 0 = Some slots') as Hr' by (vm_compute; reflexivity).
  destruct (@aggregator_minimum_and_order Demo.ext c map_to_list map_to_list n n' n2 n2'
              100 0 "seed" rounds rounds' slots slots'
              (fun _ => reflexivity _) (fun _ => reflexivity _) eq_refl Hh Hr)
    as (Hmin & Horder & _ & _ & Hbp).
  split.
  - destruct (@Rev1.getMakerSorts Demo.ext c n 100 0) as [out|] eqn:Hrun;
      [|vm_compute in Hrun; discriminate].
    destruct (@Rev1.getMakerSorts Demo.ext c n' 100 0) as [out'|] eqn:Hrun';
      [|vm_compute in Hrun'; discriminate].
    destruct (Hmin out eq_refl) as [_ Hslots].
    destruct (Hslots 0 ltac:(lia)) as [_ Hwin]. cbv zeta in Hwin.
    unfold slots in Hwin. rewrite Hslot in Hwin.
    destruct Hwin as (w & Hw & _ & Hle); [vm_compute; discriminate|].
    exists out, out', w. split; [reflexivity|]. split; [reflexivity|].
    split; [|split; [exact Hw|exact Hle]].
    apply (Horder out out' eq_refl eq_refl Hh' Hr'); [|done..|].
    + intros i. unfold slots, slots'. rewrite !Hslot.
      destruct (decide (i = 0)); [apply perm_swap|done].
    + intros i x y. unfold slots. rewrite Hslot.
      destruct (decide (i = 0)); [|by intros ?%elem_of_nil].
      assert (@passing1 Demo.ext n "seed" [Some b; Some a] = [b; a]) as ->
        by (vm_compute; reflexivity).
      intros [->|[->|?%elem_of_nil]%elem_of_cons]%elem_of_cons
             [->|[->|?%elem_of_nil]%elem_of_cons]%elem_of_cons; try done;
        vm_compute; discriminate.
  - destruct (@Rev2.bp Demo.ext c map_to_list n2 100 0) as [[k pk]|] eqn:Hrun;
      [|vm_compute in Hrun; discriminate].
    destruct (@Rev2.bp Demo.ext c map_to_list n2' 100 0) as [[k' pk']|] eqn:Hrun';
      [|vm_compute in Hrun'; discriminate].
    exists k, pk, k', pk'. split; [reflexivity|]. split; [reflexivity|].
    assert (candidates2 n2 100 0 = [Some b; Some a]) as Hc by (vm_compute; reflexivity).
    assert (candidates2 n2' 100 0 = [Some a; Some b]) as Hc' by (vm_compute; reflexivity).
    destruct (Hbp k k' pk pk' eq_refl eq_refl eq_refl) as [Hk Hpk]; try done.
    + rewrite Hc, Hc'. apply perm_swap.
    + rewrite Hc. intros s [[= ->]|[[= ->]|?%elem_of_nil]%elem_of_cons]%elem_of_cons;
        try done; vm_compute; discriminate.
    + split; [exact Hk|]. apply Hpk. intros seed2 x y [= <-]. cbv zeta.
      assert (@passing2 Demo.ext n2 "seed"
                (Rev2.allCount n2 (int64 (100 - @Pos33SortitionSize c)))
                (candidates2 n2 100 0) = [Some b; Some a]) as ->
        by (vm_compute; reflexivity).
      intros [[= ->]|[[= ->]|?%elem_of_nil]%elem_of_cons]%elem_of_cons
             [[= ->]|[[= ->]|?%elem_of_nil]%elem_of_cons]%elem_of_cons; try done;
        vm_compute; discriminate.
Defined.

(** * Further properties of the code *)

(** ** [vrfVerify] and the verifiers, check by check *)

Section Checks.
Context {ext : Externals} {consts : Consts}.

(** X1.  [vrfVerify] returns nil exactly when the public key parses, the proof
    yields a hash, and that hash is the declared one; every failure is the one
    error [pt.ErrVrfVerify]. *)
Theorem vrfVerify_accepts_iff (pub input proof hash : string) :
  (vrfVerify pub input proof hash = None <->
   exists vrfPub, secp256k1_ParsePubKey pub = Some vrfPub /\
                  vrf_ProofToHash vrfPub input proof = Some hash) /\
  (vrfVerify pub input proof hash <> None ->
   vrfVerify pub input proof hash = Some ErrVrfVerify).
Proof.
  unfold vrfVerify. split; [split|].
  - destruct (secp256k1_ParsePubKey pub) as [vrfPub|]; [|done].
    destruct (vrf_ProofToHash vrfPub input proof) as [h|] eqn:Hh; [|done].
    destruct (String.eqb_spec h hash) as [->|]; [|done].
    intros _. by exists vrfPub.
  - intros (vrfPub & -> & ->). by rewrite String.eqb_refl.
  - repeat case_match; done.
Qed.

(** X2.  The verifier of the first revision accepts exactly inside the genesis
    window or when every check passes: all parts present, the deposit found, the
    index below the resolved count, the VRF verified on the verifier's own seed,
    height and step, [num] in [0,3), the sort hash recomputed, and the threshold
    test passed with the declared difficulty. *)
Theorem rev1_verifySort_accepts_iff (n : Rev1.node) (height step : Z) (seed : string)
    (m : option Pos33SortMsg) :
  Rev1.verifySort n height step seed m = Ok <->
  height <= Pos33SortBlocks \/
  exists sh p inp d,
    m = Some {| MsgSortHash := Some sh; MsgProof := Some p |} /\
    Input p = Some inp /\
    Rev1.queryDeposit n (address_PubKeyToAddr (Pubkey p)) = inr d /\
    Index sh < resolveCount Pos33SortBlocks height d /\
    vrfVerify (Pubkey p)
      (types_Encode {| Seed := seed; Height := height; Round := Round inp; Step := int32 step |})
      (VrfProof p) (VrfHash p) = None /\
    0 <= Num sh < 3 /\
    Hash sh = hash2 (fmt.Sprintf_x_d_d (VrfHash p) (Index sh) (Num sh)) /\
    exceeds (Hash sh) (Diff p) = Some false.
Proof.
  unfold Rev1.verifySort, Rev1.verifySort_run, logged. split.
  - destruct (Z.leb_spec height Pos33SortBlocks) as [|Hh]; [by left|].
    destruct m as [[[sh|] [p|]]|]; try done.
    destruct (Input p) as [inp|] eqn:Hinp; [|done]. simpl.
    destruct (Rev1.queryDeposit _ _) as [e|d] eqn:Hq; [done|]. simpl.
    destruct (Z.leb_spec (resolveCount Pos33SortBlocks height d) (Index sh)); [done|]. simpl.
    destruct (vrfVerify _ _ _ _) as [e|] eqn:Hv; [done|]. simpl.
    destruct (Z.geb_spec (Num sh) 3); [done|]. destruct (Z.ltb_spec (Num sh) 0); [done|]. simpl.
    destruct (String.eqb_spec (hash2 (fmt.Sprintf_x_d_d (VrfHash p) (Index sh) (Num sh)))
                              (Hash sh)) as [Heq|]; [|done]. simpl.
    rewrite Heq. destruct (exceeds (Hash sh) (Diff p)) as [[|]|] eqn:He; try done.
    intros _. right. exists sh, p, inp, d. repeat split; try done; lia.
  - intros [Hh|(sh & p & inp & d & -> & Hinp & Hq & Hidx & Hv & Hnum & Hhash & He)].
    { destruct (Z.leb_spec height Pos33SortBlocks); [done|lia]. }
    destruct (height <=? Pos33SortBlocks); [done|].
    rewrite Hinp. simpl. rewrite Hq. simpl.
    destruct (Z.leb_spec (resolveCount Pos33SortBlocks height d) (Index sh)); [lia|]. simpl.
    rewrite Hv. simpl.
    destruct (Z.geb_spec (Num sh) 3); [lia|]. destruct (Z.ltb_spec (Num sh) 0); [lia|]. simpl.
    rewrite <- Hhash, String.eqb_refl. simpl. by rewrite He.
Qed.

(** X3.  The verifier of the second revision accepts exactly inside the genesis
    window or when every check passes; it has no check of [num], hashes the
    two-field string and tests against [calcDiff]. *)
Theorem rev2_verifySort_accepts_iff (n : Rev2.node) (height step allw : Z) (seed : string)
    (m : option Pos33SortMsg) :
  Rev2.verifySort n height step allw seed m = Ok <->
  height <= Pos33SortitionSize \/
  exists sh p inp d,
    m = Some {| MsgSortHash := Some sh; MsgProof := Some p |} /\
    Input p = Some inp /\
    Rev2.queryDeposit n (address_PubKeyToAddr (Pubkey p)) = inr d /\
    Index sh < resolveCount Pos33SortitionSize height d /\
    vrfVerify (Pubkey p)
      (types_Encode {| Seed := seed; Height := height; Round := Round inp; Step := int32 step |})
      (VrfProof p) (VrfHash p) = None /\
    Hash sh = hash2 (fmt.Sprintf_x_d (VrfHash p) (Index sh)) /\
    exceeds (Hash sh) (Rev2.calcDiff n step allw (Round inp)) = Some false.
Proof.
  unfold Rev2.verifySort, Rev2.verifySort_run, logged. split.
  - destruct (Z.leb_spec height Pos33SortitionSize) as [|Hh]; [by left|].
    destruct m as [[[sh|] [p|]]|]; try done.
    destruct (Input p) as [inp|] eqn:Hinp; [|done]. simpl.
    destruct (Rev2.queryDeposit _ _) as [e|d] eqn:Hq; [done|]. simpl.
    destruct (Z.leb_spec (resolveCount Pos33SortitionSize height d) (Index sh)); [done|]. simpl.
    destruct (vrfVerify _ _ _ _) as [e|] eqn:Hv; [done|]. simpl.
    destruct (String.eqb_spec (hash2 (fmt.Sprintf_x_d (VrfHash p) (Index sh)))
                              (Hash sh)) as [Heq|]; [|done]. simpl.
    rewrite Heq. destruct (exceeds (Hash sh) _) as [[|]|] eqn:He; try done.
    intros _. right. exists sh, p, inp, d. repeat split; try done; lia.
  - intros [Hh|(sh & p & inp & d & -> & Hinp & Hq & Hidx & Hv & Hhash & He)].
    { destruct (Z.leb_spec height Pos33SortitionSize); [done|lia]. }
    destruct (height <=? Pos33SortitionSize); [done|].
    rewrite Hinp. simpl. rewrite Hq. simpl.
    destruct (Z.leb_spec (resolveCount Pos33SortitionSize height d) (Index sh)); [lia|]. simpl.
    rewrite Hv. simpl.
    rewrite <- Hhash, String.eqb_refl. simpl. by rewrite He.
Qed.

End Checks.

(** ** How the verifiers fail *)

Lemma exceeds_None_iff (hash : string) (diff : float) :
  exceeds hash diff = None <-> is_NaN diff.
Proof.
  unfold exceeds, big.NewFloat, is_NaN. destruct (Prim2SF diff); split; done.
Qed.

Section Failures.
Context {ext : Externals} {consts : Consts}.

(** X4.  Past the genesis window both verifiers answer the sort-message error
    exactly for a message that is nil or lacks its proof, its sort hash or the
    input of its proof, and they do so before any lookup or hashing. *)
Theorem incomplete_message_rejected (n1 : Rev1.node) (n2 : Rev2.node)
    (height step allw : Z) (seed : string) (m : option Pos33SortMsg) :
  (Rev1.verifySort n1 height step seed m = Err InvalidSortMsg <->
   Pos33SortBlocks < height /\ incomplete m = true) /\
  (Rev2.verifySort n2 height step allw seed m = Err InvalidSortMsg <->
   Pos33SortitionSize < height /\ incomplete m = true) /\
  (incomplete m = true ->
   fst (Rev1.verifySort_run n1 height step seed m) = [] /\
   fst (Rev2.verifySort_run n2 height step allw seed m) = []).
Proof.
  unfold Rev1.verifySort, Rev2.verifySort, Rev1.verifySort_run, Rev2.verifySort_run,
    incomplete, logged.
  split; [|split].
  - destruct (Z.leb_spec height Pos33SortBlocks).
    { split; [done|lia]. }
    destruct m as [[[sh|] [p|]]|]; simpl; try (split; [done|intros [_ ?]; done]).
    destruct (Input p) as [inp|]; simpl; [|done].
    split; [|intros [_ ?]; done].
    destruct (Rev1.queryDeposit _ _); simpl; [done|].
    destruct (_ <=? Index sh); simpl; [done|].
    destruct (vrfVerify _ _ _ _) as [e|] eqn:Hv; simpl.
    { apply vrfVerify_error in Hv as ->. done. }
    destruct ((Num sh >=? 3) || (Num sh <? 0)); simpl; [done|].
    destruct (negb _); simpl; [done|].
    by destruct (exceeds _ _) as [[|]|].
  - destruct (Z.leb_spec height Pos33SortitionSize).
    { split; [done|lia]. }
    destruct m as [[[sh|] [p|]]|]; simpl; try (split; [done|intros [_ ?]; done]).
    destruct (Input p) as [inp|]; simpl; [|done].
    split; [|intros [_ ?]; done].
    destruct (Rev2.queryDeposit _ _); simpl; [done|].
    destruct (_ <=? Index sh); simpl; [done|].
    destruct (vrfVerify _ _ _ _) as [e|] eqn:Hv; simpl.
    { apply vrfVerify_error in Hv as ->. done. }
    destruct (negb _); simpl; [done|].
    by destruct (exceeds _ _) as [[|]|].
  - intros Hm.
    destruct (height <=? Pos33SortBlocks), (height <=? Pos33SortitionSize);
      destruct m as [[[sh|] [p|]]|]; simpl in *; try done;
      destruct (Input p); done.
Qed.

(** X5.  An error of the deposit query is what both verifiers return, unchanged,
    and they return it right after the query: the VRF proof is not verified and
    nothing is hashed. *)
Theorem deposit_error_passed_on (n1 : Rev1.node) (n2 : Rev2.node)
    (height step allw : Z) (seed : string) (m : option Pos33SortMsg) (e : string) :
  let failed (query : string -> string + Pos33DepositMsg) :=
    exists sh p inp,
      m = Some {| MsgSortHash := Some sh; MsgProof := Some p |} /\ Input p = Some inp /\
      query (address_PubKeyToAddr (Pubkey p)) = inl e in
  (Rev1.verifySort n1 height step seed m = Err (DepositLookup e) <->
   Pos33SortBlocks < height /\ failed (Rev1.Query n1)) /\
  (Rev2.verifySort n2 height step allw seed m = Err (DepositLookup e) <->
   Pos33SortitionSize < height /\ failed (Rev2.Query n2)) /\
  (forall p, (exists m', m = Some m' /\ MsgProof m' = Some p) ->
   (Rev1.verifySort n1 height step seed m = Err (DepositLookup e) ->
    fst (Rev1.verifySort_run n1 height step seed m)
      = [CallQueryDeposit (address_PubKeyToAddr (Pubkey p))]) /\
   (Rev2.verifySort n2 height step allw seed m = Err (DepositLookup e) ->
    fst (Rev2.verifySort_run n2 height step allw seed m)
      = [CallQueryDeposit (address_PubKeyToAddr (Pubkey p))])).
Proof.
  intros failed. subst failed.
  unfold Rev1.verifySort, Rev2.verifySort, Rev1.verifySort_run, Rev2.verifySort_run,
    Rev1.queryDeposit, Rev2.queryDeposit, logged.
  split; [|split].
  - destruct (Z.leb_spec height Pos33SortBlocks).
    { split; [done|lia]. }
    split.
    + destruct m as [[[sh|] [p|]]|]; simpl; try done.
      destruct (Input p) as [inp|] eqn:Hinp; simpl; [|done].
      destruct (Rev1.Query n1 _) as [e'|d] eqn:Hq; simpl.
      { intros [= ->]. split; [done|]. by exists sh, p, inp. }
      destruct (_ <=? Index sh); simpl; [done|].
      destruct (vrfVerify _ _ _ _) as [e'|] eqn:Hv; simpl.
      { apply vrfVerify_error in Hv as ->. done. }
      destruct ((Num sh >=? 3) || (Num sh <? 0)); simpl; [done|].
      destruct (negb _); simpl; [done|].
      by destruct (exceeds _ _) as [[|]|].
    + intros [_ (sh & p & inp & -> & Hinp & Hq)]. by rewrite Hinp, Hq.
  - destruct (Z.leb_spec height Pos33SortitionSize).
    { split; [done|lia]. }
    split.
    + destruct m as [[[sh|] [p|]]|]; simpl; try done.
      destruct (Input p) as [inp|] eqn:Hinp; simpl; [|done].
      destruct (Rev2.Query n2 _) as [e'|d] eqn:Hq; simpl.
      { intros [= ->]. split; [done|]. by exists sh, p, inp. }
      destruct (_ <=? Index sh); simpl; [done|].
      destruct (vrfVerify _ _ _ _) as [e'|] eqn:Hv; simpl.
      { apply vrfVerify_error in Hv as ->. done. }
      destruct (negb _); simpl; [done|].
      by destruct (exceeds _ _) as [[|]|].
    + intros [_ (sh & p & inp & -> & Hinp & Hq)]. by rewrite Hinp, Hq.
  - intros p (m' & -> & Hp). destruct m' as [[sh|] [p'|]]; simpl in Hp; try done.
    + injection Hp as ->. split.
      * destruct (height <=? Pos33SortBlocks); [done|].
        destruct (Input p) as [inp|]; simpl; [|done].
        destruct (Rev1.Query n1 _) as [e'|d]; simpl; [done|].
        destruct (_ <=? Index sh); simpl; [done|].
        destruct (vrfVerify _ _ _ _) as [e'|] eqn:Hv; simpl.
        { apply vrfVerify_error in Hv as ->. done. }
        destruct ((Num sh >=? 3) || (Num sh <? 0)); simpl; [done|].
        destruct (negb _); simpl; [done|].
        by destruct (exceeds _ _) as [[|]|].
      * destruct (height <=? Pos33SortitionSize); [done|].
        destruct (Input p) as [inp|]; simpl; [|done].
        destruct (Rev2.Query n2 _) as [e'|d]; simpl; [done|].
        destruct (_ <=? Index sh); simpl; [done|].
        destruct (vrfVerify _ _ _ _) as [e'|] eqn:Hv; simpl.
        { apply vrfVerify_error in Hv as ->. done. }
        destruct (negb _); simpl; [done|].
        by destruct (exceeds _ _) as [[|]|].
    + split; by destruct (_ <=? _).
Qed.

(** X6.  A verifier panics exactly when a message passes every check before the
    threshold test and the difficulty that test reads is not a number: the one
    the message declares in the first revision, the one [calcDiff] computes in
    the second. *)
Theorem verifySort_panics_iff (n1 : Rev1.node) (n2 : Rev2.node)
    (height step allw : Z) (seed : string) (m : option Pos33SortMsg) :
  (Rev1.verifySort n1 height step seed m = Panics <->
   Pos33SortBlocks < height /\
   exists sh p inp d,
     m = Some {| MsgSortHash := Some sh; MsgProof := Some p |} /\
     Input p = Some inp /\
     Rev1.queryDeposit n1 (address_PubKeyToAddr (Pubkey p)) = inr d /\
     Index sh < resolveCount Pos33SortBlocks height d /\
     vrfVerify (Pubkey p)
       (types_Encode {| Seed := seed; Height := height; Round := Round inp; Step := int32 step |})
       (VrfProof p) (VrfHash p) = None /\
     0 <= Num sh < 3 /\
     Hash sh = hash2 (fmt.Sprintf_x_d_d (VrfHash p) (Index sh) (Num sh)) /\
     is_NaN (Diff p)) /\
  (Rev2.verifySort n2 height step allw seed m = Panics <->
   Pos33SortitionSize < height /\
   exists sh p inp d,
     m = Some {| MsgSortHash := Some sh; MsgProof := Some p |} /\
     Input p = Some inp /\
     Rev2.queryDeposit n2 (address_PubKeyToAddr (Pubkey p)) = inr d /\
     Index sh < resolveCount Pos33SortitionSize height d /\
     vrfVerify (Pubkey p)
       (types_Encode {| Seed := seed; Height := height; Round := Round inp; Step := int32 step |})
       (VrfProof p) (VrfHash p) = None /\
     Hash sh = hash2 (fmt.Sprintf_x_d (VrfHash p) (Index sh)) /\
     is_NaN (Rev2.calcDiff n2 step allw (Round inp))).
Proof.
  unfold Rev1.verifySort, Rev2.verifySort, Rev1.verifySort_run, Rev2.verifySort_run, logged.
  split.
  - split.
    + destruct (Z.leb_spec height Pos33SortBlocks) as [|Hh]; [done|].
      destruct m as [[[sh|] [p|]]|]; try done.
      destruct (Input p) as [inp|] eqn:Hinp; [|done]. simpl.
      destruct (Rev1.queryDeposit _ _) as [e|d] eqn:Hq; [done|]. simpl.
      destruct (Z.leb_spec (resolveCount Pos33SortBlocks height d) (Index sh)); [done|]. simpl.
      destruct (vrfVerify _ _ _ _) as [e|] eqn:Hv; simpl.
      { apply vrfVerify_error in Hv as ->. done. }
      destruct (Z.geb_spec (Num sh) 3); [done|]. destruct (Z.ltb_spec (Num sh) 0); [done|]. simpl.
      destruct (String.eqb_spec (hash2 (fmt.Sprintf_x_d_d (VrfHash p) (Index sh) (Num sh)))
                                (Hash sh)) as [Heq|]; [|done]. simpl.
      rewrite Heq. destruct (exceeds (Hash sh) (Diff p)) as [[|]|] eqn:He; try done.
      intros _. split; [done|]. exists sh, p, inp, d.
      apply exceeds_None_iff in He. repeat split; try done; lia.
    + intros [Hh (sh & p & inp & d & -> & Hinp & Hq & Hidx & Hv & Hnum & Hhash & He)].
      destruct (Z.leb_spec height Pos33SortBlocks); [lia|].
      rewrite Hinp. simpl. rewrite Hq. simpl.
      destruct (Z.leb_spec (resolveCount Pos33SortBlocks height d) (Index sh)); [lia|]. simpl.
      rewrite Hv. simpl.
      destruct (Z.geb_spec (Num sh) 3); [lia|]. destruct (Z.ltb_spec (Num sh) 0); [lia|]. simpl.
      rewrite <- Hhash, String.eqb_refl. simpl.
      apply (exceeds_None_iff (Hash sh)) in He. by rewrite He.
  - split.
    + destruct (Z.leb_spec height Pos33SortitionSize) as [|Hh]; [done|].
      destruct m as [[[sh|] [p|]]|]; try done.
      destruct (Input p) as [inp|] eqn:Hinp; [|done]. simpl.
      destruct (Rev2.queryDeposit _ _) as [e|d] eqn:Hq; [done|]. simpl.
      destruct (Z.leb_spec (resolveCount Pos33SortitionSize height d) (Index sh)); [done|]. simpl.
      destruct (vrfVerify _ _ _ _) as [e|] eqn:Hv; simpl.
      { apply vrfVerify_error in Hv as ->. done. }
      destruct (String.eqb_spec (hash2 (fmt.Sprintf_x_d (VrfHash p) (Index sh)))
                                (Hash sh)) as [Heq|]; [|done]. simpl.
      rewrite Heq. destruct (exceeds (Hash sh) _) as [[|]|] eqn:He; try done.
      intros _. split; [done|]. exists sh, p, inp, d.
      apply exceeds_None_iff in He. repeat split; try done; lia.
    + intros [Hh (sh & p & inp & d & -> & Hinp & Hq & Hidx & Hv & Hhash & He)].
      destruct (Z.leb_spec height Pos33SortitionSize); [lia|].
      rewrite Hinp. simpl. rewrite Hq. simpl.
      destruct (Z.leb_spec (resolveCount Pos33SortitionSize height d) (Index sh)); [lia|]. simpl.
      rewrite Hv. simpl.
      rewrite <- Hhash, String.eqb_refl. simpl.
      apply (exceeds_None_iff (Hash sh)) in He. by rewrite He.
Qed.

End Failures.

(** In the concrete setting: the message [makerSort] produces is accepted,
    and panics the verifier once its difficulty is replaced by NaN. *)
Lemma verifySort_panics_iff_witness :
  let c := Demo.consts 1 2 1 5 in
  let n := Demo.node1 1 1 ∅ in
  exists m,
    @Rev1.makerSort Demo.ext n "seed" 100 0 = Ret [Some m] /\
    @Rev1.verifySort Demo.ext c n 100 0 "seed" (Some m) = Ok /\
    @Rev1.verifySort Demo.ext c n 100 0 "seed" (Some (Demo.redeclare m nan)) = Panics.
Proof.
  eexists. split; [vm_compute; reflexivity|]. split; [vm_compute; reflexivity|].
  refine (proj2 (proj1 (@verifySort_panics_iff Demo.ext (Demo.consts 1 2 1 5)
                          (Demo.node1 1 1 ∅) (Demo.node2 1 ∅ ∅) 100 0 1 "seed" _)) _).
  split; [vm_compute; reflexivity|].
  do 4 eexists. split; [vm_compute; reflexivity|].
  split; [reflexivity|]. split; [vm_compute; reflexivity|].
  split; [vm_compute; reflexivity|]. split; [vm_compute; reflexivity|].
  split; [split; vm_compute; [discriminate|reflexivity]|]. split; [vm_compute; reflexivity|].
  vm_compute; reflexivity.
Defined.

(** A message without a proof is rejected before any call. *)
Lemma incomplete_message_rejected_witness :
  let c := Demo.consts 1 2 1 5 in
  let m := Some {| MsgSortHash := Some {| Hash := "h"; Index := 0; Num := 0 |};
                   MsgProof := None |} in
  @Rev1.verifySort Demo.ext c (Demo.node1 1 1 ∅) 100 0 "seed" m = Err InvalidSortMsg /\
  fst (@Rev1.verifySort_run Demo.ext c (Demo.node1 1 1 ∅) 100 0 "seed" m) = [].
Proof.
  intros c m.
  pose proof (@incomplete_message_rejected Demo.ext c (Demo.node1 1 1 ∅) (Demo.node2 1 ∅ ∅)
                100 0 1 "seed" m) as (H1 & _ & H3).
  split.
  - apply (proj2 H1). split; vm_compute; reflexivity.
  - apply (proj1 (H3 eq_refl)).
Defined.

(** A node whose deposit query fails passes the error on. *)
Lemma deposit_error_passed_on_witness :
  let c := Demo.consts 1 2 1 5 in
  let n := @Rev1.Build_node Demo.ext 1 (Some "k"%string) (fun _ _ => 1%float)
             (fun _ => inl "no deposit"%string) (fun _ => inr "seed"%string)
             (fun _ _ _ => None) ∅ in
  let inp := {| Seed := "seed"; Height := 100; Round := 0; Step := 0 |} in
  let p := {| Input := Some inp; Diff := 1; VrfHash := "v"; VrfProof := "k"; Pubkey := "k" |} in
  let m := Some {| MsgSortHash := Some {| Hash := "h"; Index := 0; Num := 0 |};
                   MsgProof := Some p |} in
  @Rev1.verifySort Demo.ext c n 100 0 "seed" m = Err (DepositLookup "no deposit").
Proof.
  intros c n inp p m.
  apply (proj2 (proj1 (@deposit_error_passed_on Demo.ext c n (Demo.node2 1 ∅ ∅)
                         100 0 1 "seed" m "no deposit"))).
  split; [vm_compute; reflexivity|].
  eexists _, p, inp. split; [reflexivity|]. split; reflexivity.
Defined.

(** ** When the producers return *)

Lemma loop_returns {S A : Type} (P : S -> Prop) (body : S -> A -> result S)
    (xs : list A) (s : S) :
  (forall s x, x ∈ xs -> P s -> exists s', body s x = Ret s' /\ P s') ->
  P s -> exists r, loop body xs s = Ret r /\ P r.
Proof.
  revert s. induction xs as [|x xs IH]; intros s Hbody Hs; simpl.
  - by exists s.
  - destruct (Hbody s x) as (s' & -> & Hs'); [left|done|].
    apply IH; [|done]. intros s0 y Hy. apply Hbody. by right.
Qed.

Lemma loop_panics {S A : Type} (body : S -> A -> result S) (xs : list A) (s : S) :
  xs <> [] -> (forall s x, body s x = Panic) -> loop body xs s = Panic.
Proof.
  intros Hxs Hbody. destruct xs as [|x xs]; [done|]. simpl. by rewrite Hbody.
Qed.

Lemma seqZ_nonempty (n : Z) : seqZ 0 n <> [] <-> 0 < n.
Proof.
  split.
  - intros H. destruct (Z.ltb_spec 0 n) as [|Hn]; [done|].
    exfalso. apply H. apply length_zero_iff_nil. rewrite length_seqZ. lia.
  - intros Hn H. apply (f_equal length) in H. rewrite length_seqZ in H. simpl in H. lia.
Qed.

Lemma is_NaN_dec (x : float) : is_NaN x \/ ~ is_NaN x.
Proof. unfold is_NaN. destruct (Prim2SF x); (by left) || (by right). Qed.

Lemma loop_panic_iff {S A : Type} (N : Prop) (P : S -> Prop) (body : S -> A -> result S)
    (xs : list A) (s : S) :
  N \/ ~ N ->
  (N -> forall s x, body s x = Panic) ->
  (~ N -> forall s x, P s -> exists s', body s x = Ret s' /\ P s') ->
  P s ->
  (loop body xs s = Panic <-> xs <> [] /\ N) /\
  (forall r, loop body xs s = Ret r -> P r).
Proof.
  intros [HN|HN] Hpanic Hret Hs.
  - destruct xs as [|x xs].
    + simpl. split; [split; [done|intros [? _]; done]|]. by intros r [= <-].
    + rewrite loop_panics; [|done|by apply Hpanic]. split; [|done]. by split.
  - destruct (loop_returns P body xs s) as (r & Hr & HP); [|done|].
    { intros s0 x _. by apply Hret. }
    rewrite Hr. split; [split; [done|intros [_ ?]; done]|]. by intros r' [= <-].
Qed.

Section Returns.
Context {ext : Externals} {consts : Consts}.

Lemma voterSort_body_outcome (vrfHash : string) (proof : HashProof) (num : Z) (diff : float) :
  (is_NaN diff -> forall s x, Rev1.voterSort_body vrfHash proof num diff s x = Panic) /\
  (~ is_NaN diff ->
   forall s x, True -> exists s', Rev1.voterSort_body vrfHash proof num diff s x = Ret s' /\ True).
Proof.
  unfold Rev1.voterSort_body. split.
  - intros Hd s x. apply (exceeds_None_iff (hash2 (fmt.Sprintf_x_d_d vrfHash x num))) in Hd.
    by rewrite Hd.
  - intros Hd s x _.
    destruct (exceeds _ diff) as [[|]|] eqn:He; [eauto..|].
    by apply exceeds_None_iff in He.
Qed.

Lemma makerSort_body_outcome (vrfHash : string) (proof : HashProof) (diff : float) (j : Z) :
  let P := fun st : option Pos33SortMsg => forall c, st = Some c -> is_Some (MsgSortHash c) in
  (is_NaN diff -> forall s x, Rev1.makerSort_body vrfHash proof diff j s x = Panic) /\
  (~ is_NaN diff ->
   forall s x, P s -> exists s', Rev1.makerSort_body vrfHash proof diff j s x = Ret s' /\ P s').
Proof.
  unfold Rev1.makerSort_body. split.
  - intros Hd s x. apply (exceeds_None_iff (hash2 (fmt.Sprintf_x_d_d vrfHash x j))) in Hd.
    by rewrite Hd.
  - intros Hd s x Hs.
    destruct (exceeds _ diff) as [[|]|] eqn:He; [eauto| |by apply exceeds_None_iff in He].
    destruct s as [cur|]; simpl.
    + destruct (Hs cur eq_refl) as [sh Hsh]. rewrite Hsh.
      eexists. split; [done|]. intros c [= <-]. by destruct (string_gt _ _).
    + eexists. split; [done|]. intros c [= <-]. by destruct (string_gt _ _).
Qed.

Lemma sort_body_outcome (vrfHash : string) (proof : HashProof) (diff : float) :
  (is_NaN diff -> forall s x, Rev2.sort_body vrfHash proof diff s x = Panic) /\
  (~ is_NaN diff ->
   forall s x, True -> exists s', Rev2.sort_body vrfHash proof diff s x = Ret s' /\ True).
Proof.
  unfold Rev2.sort_body. split.
  - intros Hd s x. apply (exceeds_None_iff (hash2 (fmt.Sprintf_x_d vrfHash x))) in Hd.
    by rewrite Hd.
  - intros Hd s x _.
    destruct (exceeds _ diff) as [[|]|] eqn:He; [eauto| |by apply exceeds_None_iff in He].
    destruct (string_gt _ _); eauto.
Qed.

End Returns.

Section ProducerPanics.
Context {ext : Externals} {consts : Consts}.

(** The slice of the log call panics on an address of fewer than 16 bytes,
    and on nothing else. *)
Lemma logAddr_panic_iff (proof : HashProof) :
  Rev1.logAddr proof = Panic <->
  (String.length (address_PubKeyToAddr (Pubkey proof)) < 16)%nat.
Proof.
  unfold Rev1.logAddr.
  destruct (Nat.ltb_spec (String.length (address_PubKeyToAddr (Pubkey proof))) 16);
    split; (done || lia).
Qed.

Lemma voterSort_panic_with_key (sort_Sort : list Pos33SortMsg -> list Pos33SortMsg)
    (n : Rev1.node) (seed : string) (height round num : Z) (diff : float) (priv : PrivKey) :
  Rev1.getPriv n = Some priv ->
  let input := {| Seed := seed; Height := height; Round := int32 round; Step := int32 1 |} in
  let proof := producerProof priv input (voterDiff diff) in
  Rev1.voterSort sort_Sort n seed height round num diff = Panic <->
  (0 < Rev1.myCount n /\ is_NaN (voterDiff diff)) \/
  (selectedTickets (VrfHash proof) num (voterDiff diff) (Rev1.myCount n) <> [] /\
   (String.length (address_PubKeyToAddr (PubKey_Bytes priv)) < 16)%nat).
Proof.
  intros Hpriv. unfold Rev1.voterSort. fold (voterDiff diff). rewrite Hpriv.
  cbv zeta. unfold producerProof, selectedTickets.
  destruct (calcuVrfHash _ priv) as [vrfHash vrfProof]. cbn [fst snd VrfHash].
  set (proof := {| Input := _; Diff := _; VrfHash := _; VrfProof := _; Pubkey := _ |}).
  set (tickets := List.filter _ _).
  destruct (voterSort_body_outcome vrfHash proof num (voterDiff diff)) as [Hp Hr].
  destruct (loop_panic_iff (is_NaN (voterDiff diff)) (fun _ => True)
              (Rev1.voterSort_body vrfHash proof num (voterDiff diff))
              (seqZ 0 (Rev1.myCount n)) [] (is_NaN_dec _) Hp Hr I) as [Hloop _].
  rewrite seqZ_nonempty in Hloop.
  destruct (loop _ _ _) as [msgs|] eqn:Hrun.
  - apply voterSort_loop in Hrun. cbn [app] in Hrun. fold tickets in Hrun.
    pose proof (logAddr_panic_iff proof) as Hlog. cbn [Pubkey proof] in Hlog.
    assert ((Z.of_nat (length msgs) =? 0) = true <-> tickets = []) as Hlen.
    { rewrite Hrun, length_map, Z.eqb_eq. destruct tickets; simpl; split; (done || lia). }
    destruct (Z.of_nat (length msgs) =? 0).
    + split; [done|]. intros [Hnan|[Hsel _]].
      * by apply Hloop in Hnan.
      * destruct (Hsel (proj1 Hlen eq_refl)).
    + split.
      * intros Hpanic. right. split.
        -- intros Hnil. by apply Hlen in Hnil.
        -- apply Hlog. by destruct (Rev1.logAddr proof).
      * intros [Hnan|[_ Hshort]]; [by apply Hloop in Hnan|].
        apply Hlog in Hshort. by rewrite Hshort.
  - split; [|done]. intros _. left. by apply Hloop.
Qed.

(** [voterSort] panics at the threshold test, on a NaN, or at the log call
    it reaches once a ticket is selected, on a short address. *)
Lemma voterSort_panic_iff (sort_Sort : list Pos33SortMsg -> list Pos33SortMsg) (n : Rev1.node)
    (seed : string) (height round num : Z) (diff : float) :
  Rev1.voterSort sort_Sort n seed height round num diff = Panic <->
  exists priv,
    Rev1.getPriv n = Some priv /\
    let input := {| Seed := seed; Height := height; Round := int32 round; Step := int32 1 |} in
    let proof := producerProof priv input (voterDiff diff) in
    (0 < Rev1.myCount n /\ is_NaN (voterDiff diff)) \/
    (selectedTickets (VrfHash proof) num (voterDiff diff) (Rev1.myCount n) <> [] /\
     (String.length (address_PubKeyToAddr (PubKey_Bytes priv)) < 16)%nat).
Proof.
  destruct (Rev1.getPriv n) as [priv|] eqn:Hpriv.
  - rewrite (voterSort_panic_with_key sort_Sort n seed height round num diff priv Hpriv).
    split; [intros H; by exists priv|by intros (priv' & [= <-] & H)].
  - unfold Rev1.voterSort. rewrite Hpriv. split; [done|by intros (? & ? & _)].
Qed.

(** [makerSort] panics at the threshold test, on a NaN, or at the log call
    that ends it, on a short address. *)
Lemma makerSort_panic_iff (n : Rev1.node) (seed : string) (height round : Z) :
  Rev1.makerSort n seed height round = Panic <->
  exists priv,
    Rev1.getPriv n = Some priv /\
    ((0 < Rev1.myCount n /\ is_NaN (Rev1.getDiff n height round)) \/
     (String.length (address_PubKeyToAddr (PubKey_Bytes priv)) < 16)%nat).
Proof.
  unfold Rev1.makerSort.
  destruct (Rev1.getPriv n) as [priv|]; [|split; [done|by intros (? & ? & _)]].
  destruct (calcuVrfHash _ priv) as [vrfHash vrfProof].
  set (d := Rev1.getDiff n height round).
  set (proof := {| Input := _; Diff := _; VrfHash := _; VrfProof := _; Pubkey := _ |}).
  set (P := fun st : option Pos33SortMsg => forall c, st = Some c -> is_Some (MsgSortHash c)).
  pose proof (logAddr_panic_iff proof) as Hlog. cbn [Pubkey proof] in Hlog.
  destruct (loop_panic_iff (0 < Rev1.myCount n /\ is_NaN d) P
              (fun minSort j => loop (Rev1.makerSort_body vrfHash proof d j)
                                     (seqZ 0 (Rev1.myCount n)) minSort)
              (seqZ 0 3) None) as [Hloop _].
  - destruct (is_NaN_dec d); destruct (Z.ltb_spec 0 (Rev1.myCount n));
      (by left) || (right; intros [? ?]; done || lia).
  - intros [Hc Hd] s j.
    destruct (makerSort_body_outcome vrfHash proof d j) as [Hp _].
    apply loop_panics; [by apply seqZ_nonempty|by apply Hp].
  - intros HN s j Hs.
    destruct (makerSort_body_outcome vrfHash proof d j) as [Hp Hr].
    destruct (loop_panic_iff (is_NaN d) P (Rev1.makerSort_body vrfHash proof d j)
                (seqZ 0 (Rev1.myCount n)) s (is_NaN_dec _) Hp Hr Hs) as [Hin HP].
    destruct (loop (Rev1.makerSort_body vrfHash proof d j) (seqZ 0 (Rev1.myCount n)) s)
      as [r|].
    + exists r. split; [done|]. by apply HP.
    + exfalso. destruct (proj1 Hin eq_refl) as [Hc Hd]. apply seqZ_nonempty in Hc. by apply HN.
  - done.
  - destruct (loop _ (seqZ 0 3) None) as [minSort|].
    + split.
      * intros Hpanic. exists priv. split; [done|]. right.
        apply Hlog. by destruct (Rev1.logAddr proof).
      * intros (priv' & [= <-] & [Hnan|Hshort]).
        -- assert (seqZ 0 3 <> []) as H3 by done.
           by pose proof (proj2 Hloop (conj H3 Hnan)).
        -- apply Hlog in Hshort. by rewrite Hshort.
    + split; [|done]. intros _. exists priv. split; [done|]. left.
      by destruct (proj1 Hloop eq_refl) as [_ ?].
Qed.

(** [sort] panics at the threshold test only. *)
Lemma sort_panic_iff (sort_Sort : list Pos33SortMsg -> list Pos33SortMsg) (n : Rev2.node)
    (seed : string) (height round step allw : Z) :
  Rev2.sort sort_Sort n seed height round step allw = Panic <->
  Rev2.myCount n <= allw /\ Rev2.getPriv n <> None /\ 0 < Rev2.myCount n /\
  is_NaN (Rev2.calcDiff n step allw round).
Proof.
  unfold Rev2.sort.
  destruct (Z.ltb_spec allw (Rev2.myCount n)).
  { split; [done|]. intros [? _]. lia. }
  destruct (Rev2.getPriv n) as [priv|]; [|split; [done|intros (_ & ? & _); done]].
  destruct (calcuVrfHash _ priv) as [vrfHash vrfProof].
  set (d := Rev2.calcDiff n step allw round).
  set (proof := {| Input := _; Diff := _; VrfHash := _; VrfProof := _; Pubkey := _ |}).
  destruct (sort_body_outcome vrfHash proof d) as [Hp Hr].
  destruct (loop_panic_iff (is_NaN d) (fun _ => True) (Rev2.sort_body vrfHash proof d)
              (seqZ 0 (Rev2.myCount n)) {| Rev2.msgs := []; Rev2.minHash := None; Rev2.index := 0 |}
              (is_NaN_dec _) Hp Hr I) as [Hloop _].
  rewrite seqZ_nonempty in Hloop.
  destruct (loop _ _ _) as [st|].
  - split.
    + by repeat case_match.
    + intros (_ & _ & Hc & Hd). by pose proof (proj2 Hloop (conj Hc Hd)).
  - split; [|done]. intros _. by destruct (proj1 Hloop eq_refl) as [Hc Hd].
Qed.

(** X7.  The code of the producers panics in two places only, the methods
    and library functions it calls being taken to return.  Each producer
    panics at the threshold test exactly when the node has a key and at
    least one ticket and the difficulty the test reads is NaN ([sort] after
    its weight test); [voterSort] and [makerSort] panic besides at the
    16-byte cut of the address in their log call, [voterSort] once a ticket
    is selected and [makerSort] always, exactly when the address of the key
    has fewer than 16 bytes.  In every other case they return:
    [msgs[index]] of [sort] is always inside the slice, and neither [sort]
    nor [voterSort] ever returns a nil entry. *)
Theorem producers_panic_iff (sort_Sort : list Pos33SortMsg -> list Pos33SortMsg)
    (n1 : Rev1.node) (n2 : Rev2.node) (seed : string)
    (height round num step allw : Z) (diff : float) :
  (Rev1.voterSort sort_Sort n1 seed height round num diff = Panic <->
   exists priv,
     Rev1.getPriv n1 = Some priv /\
     let input := {| Seed := seed; Height := height; Round := int32 round; Step := int32 1 |} in
     let proof := producerProof priv input (voterDiff diff) in
     (0 < Rev1.myCount n1 /\ is_NaN (voterDiff diff)) \/
     (selectedTickets (VrfHash proof) num (voterDiff diff) (Rev1.myCount n1) <> [] /\
      (String.length (address_PubKeyToAddr (PubKey_Bytes priv)) < 16)%nat)) /\
  (Rev1.makerSort n1 seed height round = Panic <->
   exists priv,
     Rev1.getPriv n1 = Some priv /\
     ((0 < Rev1.myCount n1 /\ is_NaN (Rev1.getDiff n1 height round)) \/
      (String.length (address_PubKeyToAddr (PubKey_Bytes priv)) < 16)%nat)) /\
  (Rev2.sort sort_Sort n2 seed height round step allw = Panic <->
   Rev2.myCount n2 <= allw /\ Rev2.getPriv n2 <> None /\ 0 < Rev2.myCount n2 /\
   is_NaN (Rev2.calcDiff n2 step allw round)) /\
  (forall out, Rev1.voterSort sort_Sort n1 seed height round num diff = Ret out ->
               None ∉ out) /\
  (forall out, Rev2.sort sort_Sort n2 seed height round step allw = Ret out ->
               None ∉ out).
Proof.
  split; [apply voterSort_panic_iff|].
  split; [apply makerSort_panic_iff|].
  split; [apply sort_panic_iff|]. split.
  - intros out Hrun Hnone. apply voterSort_result in Hrun.
    destruct (Rev1.getPriv n1); [|subst; by apply elem_of_nil in Hnone].
    cbv zeta in Hrun. subst out. by apply list_elem_of_fmap in Hnone as (m & ? & _).
  - intros out Hrun Hnone. apply sort_result in Hrun.
    destruct (allw <? Rev2.myCount n2); [subst; by apply elem_of_nil in Hnone|].
    destruct (Rev2.getPriv n2); [|subst; by apply elem_of_nil in Hnone].
    cbv zeta in Hrun.
    destruct (_ =? 0) eqn:Hz; [subst; by apply elem_of_nil in Hnone|].
    destruct (step =? 0); subst out.
    + apply list_elem_of_singleton in Hnone. symmetry in Hnone.
      apply keep_min_fold_None in Hnone. by rewrite Hnone in Hz.
    + by apply list_elem_of_fmap in Hnone as (m & ? & _).
Qed.

End ProducerPanics.

(** [voterSort] with a NaN difficulty, a key and one ticket; [makerSort]
    with a key whose address has one byte. *)
Lemma producers_panic_iff_witness :
  let c := Demo.consts 1 2 1 5 in
  let short := @Rev1.Build_node Demo.bare 1 (Some "k"%string) (fun _ _ => 1%float)
                 (fun _ => inr (Demo.deposit 1)) (fun _ => inr "seed"%string)
                 (fun _ _ _ => None) ∅ in
  @Rev1.voterSort Demo.ext c Demo.insertion_sort (Demo.node1 1 1 ∅) "seed" 100 0 0 nan = Panic /\
  @Rev1.makerSort Demo.bare short "seed" 100 0 = Panic.
Proof.
  intros c short. split.
  - apply (proj2 (proj1 (@producers_panic_iff Demo.ext c Demo.insertion_sort
                           (Demo.node1 1 1 ∅) (Demo.node2 1 ∅ ∅) "seed" 100 0 0 1 1 nan))).
    exists "k"%string. split; [reflexivity|]. left. split; vm_compute; reflexivity.
  - apply (proj2 (proj1 (proj2 (@producers_panic_iff Demo.bare c Demo.insertion_sort
                                  short (@Rev2.Build_node Demo.bare 1 None ∅
                                           (fun _ => inr (Demo.deposit 1))
                                           (fun _ => inr "seed"%string) (fun _ => 1)
                                           (fun _ _ _ _ => None) ∅)
                                  "seed" 100 0 0 1 1 1%float)))).
    exists "k"%string. split; [reflexivity|]. right. vm_compute. lia.
Defined.

(** ** What [sort] returns, and to whom *)

Section Rev2Results.
Context {ext : Externals} {consts : Consts}.

(** X8.  For step 0 [sort] returns nothing when no ticket is selected, and
    otherwise one message, that of a selected ticket with the smallest sort
    hash: the index it keeps is always inside the slice. *)
Theorem sort_proposer_minimum (sort_Sort : list Pos33SortMsg -> list Pos33SortMsg)
    (n : Rev2.node) (seed : string) (height round allw : Z) (priv : PrivKey)
    (out : list (option Pos33SortMsg)) :
  Rev2.getPriv n = Some priv ->
  Rev2.myCount n <= allw ->
  Rev2.sort sort_Sort n seed height round 0 allw = Ret out ->
  let input := {| Seed := seed; Height := height; Round := int32 round; Step := int32 0 |} in
  let proof := producerProof priv input 0 in
  let sel := map (ticket_msg2 (VrfHash proof) proof)
                 (selectedTickets2 (VrfHash proof) (Rev2.calcDiff n 0 allw round)
                                   (Rev2.myCount n)) in
  (sel = [] -> out = []) /\
  (sel <> [] ->
   exists m, out = [Some m] /\ m ∈ sel /\ forall x, x ∈ sel -> Sorts_le m x).
Proof.
  intros Hpriv Hallw Hrun. apply sort_result in Hrun.
  destruct (Z.ltb_spec allw (Rev2.myCount n)); [lia|].
  rewrite Hpriv in Hrun. cbv zeta in *.
  set (sel := map _ _) in *. clearbody sel.
  destruct sel as [|x sel]; [by split|].
  change (Z.of_nat (length (x :: sel)) =? 0) with false in Hrun.
  change (0 =? 0) with true in Hrun. cbv iota in Hrun.
  split; [done|]. intros _.
  destruct (fold_left (keep_min sortKey) (x :: sel) None) as [m|] eqn:Hfold.
  - exists m. split; [done|].
    apply keep_min_fold_min in Hfold as [[Hin|?] Hmin]; [|done].
    split; [done|]. intros y Hy. apply Hmin. by left.
  - by apply keep_min_fold_None in Hfold.
Qed.

(** X9.  A message [sort] returns passes the verifier of its revision: with a
    VRF that verifies what it evaluates, a verifier that sees the same recent
    votes and total weight and whose deposit query resolves the producer's
    ticket count accepts it, for every step. *)
Theorem sort_messages_verify (sort_Sort : list Pos33SortMsg -> list Pos33SortMsg)
    (np nv : Rev2.node) (seed : string) (height round step allw : Z) (d : Pos33DepositMsg)
    (out : list (option Pos33SortMsg)) (m : Pos33SortMsg) :
  vrf_correct ->
  (forall l, sort_Sort l ≡ₚ l) ->
  (forall priv, Rev2.getPriv np = Some priv ->
                Rev2.queryDeposit nv (address_PubKeyToAddr (PubKey_Bytes priv)) = inr d) ->
  resolveCount Pos33SortitionSize height d = Rev2.myCount np ->
  Rev2.nvsMap nv = Rev2.nvsMap np ->
  Rev2.sort sort_Sort np seed height round step allw = Ret out ->
  Some m ∈ out ->
  Rev2.verifySort nv height step allw seed (Some m) = Ok.
Proof.
  intros Hvrf Hperm Hq Hcount Hvotes Hrun Hm.
  destruct (sort_declares sort_Sort np seed height round step allw out m Hperm Hrun Hm)
    as (priv & i & Hpriv & Hi & -> & Hsel).
  unfold Rev2.verifySort, Rev2.verifySort_run.
  destruct (height <=? Pos33SortitionSize); [done|].
  unfold ticket_msg2, logged. cbn [MsgSortHash MsgProof producerProof Input Pubkey snd fst].
  rewrite (Hq priv Hpriv). cbn [producerProof Index Num Hash VrfProof VrfHash Round] in *.
  destruct (Z.leb_spec (resolveCount Pos33SortitionSize height d) i); [lia|].
  rewrite vrfVerify_evaluated by done.
  rewrite String.eqb_refl. cbn [negb].
  unfold selected in Hsel. cbn [producerProof VrfHash] in Hsel.
  assert (Rev2.calcDiff nv step allw (int32 round) = Rev2.calcDiff np step allw round) as ->.
  { unfold Rev2.calcDiff. by rewrite Hvotes. }
  by destruct (exceeds _ _) as [[|]|].
Qed.

End Rev2Results.

(** ** One message for a ticket *)

Lemma msgIndex_tickets (f : Z -> Pos33SortMsg) (l : list Pos33SortMsg) (idxs : list Z) :
  (forall i, msgIndex (Some (f i)) = Some i) ->
  l ≡ₚ map f idxs ->
  exists idxs', idxs' ≡ₚ idxs /\ msgIndex <$> (Some <$> l) = Some <$> idxs'.
Proof.
  intros Hf Hl.
  exists ((fun m => default 0 (msgIndex (Some m))) <$> l). split.
  - rewrite Hl. clear Hl. induction idxs as [|i idxs IH]; [done|].
    cbn [map]. rewrite fmap_cons, Hf. cbn [default]. by rewrite IH.
  - assert (Forall (fun m => is_Some (msgIndex (Some m))) l) as Hall.
    { apply Forall_forall. intros m Hm. rewrite Hl in Hm.
      apply list_elem_of_In, in_map_iff in Hm as (i & <- & _). by rewrite Hf. }
    clear Hl. induction Hall as [|m l [i Hi] _ IH]; [done|].
    rewrite !fmap_cons, Hi. cbn [default]. by f_equal.
Qed.

Lemma msgIndex_take (l : list Pos33SortMsg) (idxs : list Z) (k : nat) :
  msgIndex <$> (Some <$> l) = Some <$> idxs ->
  msgIndex <$> (Some <$> take k l) = Some <$> take k idxs.
Proof.
  intros H. by rewrite !fmap_take, H.
Qed.

Lemma NoDup_selected (f : Z -> bool) (count : Z) : NoDup (List.filter f (seqZ 0 count)).
Proof.
  apply NoDup_ListNoDup, List.NoDup_filter, NoDup_ListNoDup, NoDup_seqZ.
Qed.

Lemma no_entries (count : Z) :
  exists idxs : list Z, msgIndex <$> [] = Some <$> idxs /\ NoDup idxs /\
                        forall i, i ∈ idxs -> 0 <= i < count.
Proof.
  exists []. split; [done|]. split; [apply NoDup_nil_2|]. by intros i ?%elem_of_nil.
Qed.

Section Distinct.
Context {ext : Externals} {consts : Consts}.

(** X10.  Whatever [voterSort] and [sort] return, every entry is a message with
    a sort hash, the ticket indices of the entries are pairwise distinct, and
    each lies in [0, myCount): a ticket is never returned twice. *)
Theorem returned_tickets_distinct (sort_Sort : list Pos33SortMsg -> list Pos33SortMsg)
    (n1 : Rev1.node) (n2 : Rev2.node) (seed : string)
    (height round num step allw : Z) (diff : float) :
  (forall l, sort_Sort l ≡ₚ l) ->
  (forall out, Rev1.voterSort sort_Sort n1 seed height round num diff = Ret out ->
     exists idxs, msgIndex <$> out = Some <$> idxs /\ NoDup idxs /\
                  forall i, i ∈ idxs -> 0 <= i < Rev1.myCount n1) /\
  (forall out, Rev2.sort sort_Sort n2 seed height round step allw = Ret out ->
     exists idxs, msgIndex <$> out = Some <$> idxs /\ NoDup idxs /\
                  forall i, i ∈ idxs -> 0 <= i < Rev2.myCount n2).
Proof.
  intros Hperm. split; intros out Hrun.
  - apply voterSort_result in Hrun.
    destruct (Rev1.getPriv n1) as [priv|]; [|subst; by apply no_entries].
    cbv zeta in Hrun.
    set (proof := producerProof priv _ _) in *.
    set (tickets := selectedTickets _ _ _ _) in *.
    assert (NoDup tickets) as Hnd by apply NoDup_selected.
    assert (forall i, i ∈ tickets -> 0 <= i < Rev1.myCount n1) as Hrange.
    { intros i Hi. by apply selectedTickets_elem in Hi as [? _]. }
    destruct (_ >? _).
    + destruct (msgIndex_tickets (ticket_msg (VrfHash proof) proof num)
                  (sort_Sort (map (ticket_msg (VrfHash proof) proof num) tickets)) tickets)
        as (idxs & Hidxs & Hmap); [done|by apply Hperm|].
      exists (take (Z.to_nat Pos33RewardVotes) idxs). subst out.
      split; [by apply msgIndex_take|].
      split.
      * apply (sublist_NoDup _ idxs); [by rewrite Hidxs|apply sublist_take].
      * intros i Hi. apply Hrange. rewrite <- Hidxs. by apply subseteq_take in Hi.
    + destruct (msgIndex_tickets (ticket_msg (VrfHash proof) proof num)
                  (map (ticket_msg (VrfHash proof) proof num) tickets) tickets)
        as (idxs & Hidxs & Hmap); [done|done|].
      exists idxs. subst out. split; [done|].
      split; [by rewrite Hidxs|]. intros i Hi. apply Hrange. by rewrite <- Hidxs.
  - apply sort_result in Hrun.
    destruct (allw <? Rev2.myCount n2); [subst; by apply no_entries|].
    destruct (Rev2.getPriv n2) as [priv|]; [|subst; by apply no_entries].
    cbv zeta in Hrun.
    set (proof := producerProof priv _ _) in *.
    set (tickets := selectedTickets2 _ _ _) in *.
    assert (NoDup tickets) as Hnd by apply NoDup_selected.
    assert (forall i, i ∈ tickets -> 0 <= i < Rev2.myCount n2) as Hrange.
    { intros i Hi. by apply selectedTickets2_elem in Hi as [? _]. }
    destruct (_ =? 0) eqn:Hz; [subst; by apply no_entries|].
    destruct (step =? 0).
    + destruct (fold_left _ _ _) as [m|] eqn:Hfold.
      * apply keep_min_fold_min in Hfold as [[Hin|?] _]; [|done].
        apply list_elem_of_In, in_map_iff in Hin as (i & <- & Hi%list_elem_of_In).
        exists [i]. subst out. split; [done|]. split; [apply NoDup_singleton|].
        intros j ->%list_elem_of_singleton. by apply Hrange.
      * apply keep_min_fold_None in Hfold. rewrite Hfold in Hz. done.
    + destruct (msgIndex_tickets (ticket_msg2 (VrfHash proof) proof)
                  (sort_Sort (map (ticket_msg2 (VrfHash proof) proof) tickets)) tickets)
        as (idxs & Hidxs & Hmap); [done|by apply Hperm|].
      destruct (_ >? _); subst out.
      * exists (take (Z.to_nat Pos33VoterSize) idxs).
        split; [by apply msgIndex_take|].
        split.
        -- apply (sublist_NoDup _ idxs); [by rewrite Hidxs|apply sublist_take].
        -- intros i Hi. apply Hrange. rewrite <- Hidxs. by apply subseteq_take in Hi.
      * exists idxs. split; [done|].
        split; [by rewrite Hidxs|]. intros i Hi. apply Hrange. by rewrite <- Hidxs.
Qed.

End Distinct.

(** Two tickets under difficulty 1: [sort] for step 0 returns one message. *)
Lemma sort_proposer_minimum_witness :
  let c := Demo.consts 1 2 2 5 in
  exists out,
    @Rev2.sort Demo.ext c Demo.insertion_sort (Demo.node2 2 ∅ ∅) "seed" 100 0 0 2 = Ret out /\
    length out = 1%nat.
Proof.
  intros c.
  destruct (@Rev2.sort Demo.ext c Demo.insertion_sort (Demo.node2 2 ∅ ∅) "seed" 100 0 0 2)
    as [out|] eqn:Hrun; [|vm_compute in Hrun; discriminate].
  exists out. split; [reflexivity|].
  destruct (proj2 (@sort_proposer_minimum Demo.ext c Demo.insertion_sort (Demo.node2 2 ∅ ∅)
                     "seed" 100 0 2 "k"%string out eq_refl
                     ltac:(vm_compute; discriminate) Hrun))
    as (m & -> & _); [vm_compute; discriminate|reflexivity].
Defined.

(** The message [sort] returns for step 0 passes [verifySort]. *)
Lemma sort_messages_verify_witness :
  let c := Demo.consts 1 2 2 5 in
  let n := Demo.node2 2 ∅ ∅ in
  exists m,
    @Rev2.sort Demo.ext c Demo.insertion_sort n "seed" 100 0 0 2 = Ret [Some m] /\
    @Rev2.verifySort Demo.ext c n 100 0 2 "seed" (Some m) = Ok.
Proof.
  eexists. split; [vm_compute; reflexivity|].
  eapply (@sort_messages_verify Demo.ext (Demo.consts 1 2 2 5) Demo.insertion_sort
            (Demo.node2 2 ∅ ∅) (Demo.node2 2 ∅ ∅) "seed" 100 0 0 2 (Demo.deposit 2)
            _ _ demo_vrf_correct insertion_sort_perm (fun _ _ => eq_refl) eq_refl eq_refl).
  - vm_compute. reflexivity.
  - apply list_elem_of_singleton. reflexivity.
Defined.

(** Two tickets under difficulty 1: the indices [sort] returns differ. *)
Lemma returned_tickets_distinct_witness :
  let c := Demo.consts 1 2 2 5 in
  exists out idxs,
    @Rev2.sort Demo.ext c Demo.insertion_sort (Demo.node2 2 ∅ ∅) "seed" 100 0 1 2 = Ret out /\
    msgIndex <$> out = Some <$> idxs /\ NoDup idxs.
Proof.
  intros c.
  destruct (@Rev2.sort Demo.ext c Demo.insertion_sort (Demo.node2 2 ∅ ∅) "seed" 100 0 1 2)
    as [out|] eqn:Hrun; [|vm_compute in Hrun; discriminate].
  destruct (proj2 (@returned_tickets_distinct Demo.ext c Demo.insertion_sort
                     (Demo.node1 1 1 ∅) (Demo.node2 2 ∅ ∅) "seed" 100 0 0 1 2 1%float
                     insertion_sort_perm) out Hrun) as (idxs & Hmap & Hnd & _).
  exists out, idxs. split; [reflexivity|]. split; assumption.
Defined.

(** ** The pre-image names its ticket *)

Lemma unhex_hexdigit (n : Z) : 0 <= n < 16 -> unhex (fmt.hexdigit n) = n.
Proof.
  intros Hn.
  assert (forallb (fun d => unhex (fmt.hexdigit d) =? d) (seqZ 0 16) = true) as Hall
    by (vm_compute; reflexivity).
  rewrite forallb_forall in Hall. apply Z.eqb_eq, Hall.
  apply list_elem_of_In, elem_of_seqZ_bounds. lia.
Qed.

Lemma byte_val_range (c : ascii) : 0 <= byte_val c < 256.
Proof.
  unfold byte_val. pose proof (N_ascii_bounded c). lia.
Qed.

Lemma byte_val_inj (c c' : ascii) : byte_val c = byte_val c' -> c = c'.
Proof.
  unfold byte_val. intros H. apply N2Z.inj in H.
  rewrite <- (ascii_N_embedding c), <- (ascii_N_embedding c'). by rewrite H.
Qed.

Lemma verb_x_inj (h h' : string) : fmt.verb_x h = fmt.verb_x h' -> h = h'.
Proof.
  revert h'. induction h as [|c h IH]; intros [|c' h']; simpl; try done.
  intros [= Hhi Hlo Hrest]. f_equal; [|by apply IH].
  apply byte_val_inj.
  pose proof (byte_val_range c). pose proof (byte_val_range c').
  apply (f_equal unhex) in Hhi, Hlo.
  assert (forall b, 0 <= b < 256 -> 0 <= b / 16 < 16) as Hdiv.
  { intros b Hb. split; [apply Z.div_pos; lia|apply Z.div_lt_upper_bound; lia]. }
  assert (forall b, 0 <= b mod 16 < 16) as Hmod.
  { intros b. apply Z.mod_pos_bound. lia. }
  rewrite !unhex_hexdigit in Hhi by auto.
  rewrite !unhex_hexdigit in Hlo by auto.
  rewrite (Z.div_mod (byte_val c) 16), (Z.div_mod (byte_val c') 16) by lia. lia.
Qed.

Lemma verb_d_inj (z z' : Z) : fmt.verb_d z = fmt.verb_d z' -> z = z'.
Proof.
  unfold fmt.verb_d. intros H. apply DecimalZ.to_int_inj.
  assert (forall y, NilZero.int_of_string (NilZero.string_of_int (Z.to_int y))
                    = Some (Z.to_int y)) as Hback.
  { intros y. apply NilZero.isi; destruct y as [|p|p]; simpl; try done;
      intros [= Hp]; by apply DecimalPos.Unsigned.to_uint_nonnil in Hp. }
  apply (f_equal NilZero.int_of_string) in H. rewrite !Hback in H. by injection H.
Qed.

(** X11.  The string a sort hash is computed from determines the VRF hash, the
    ticket index and (in the first revision) the slot it was built for: two
    pre-images are equal only when all their parts are. *)
Theorem preimage_injective (h h' : string) (i i' num num' : Z) :
  (fmt.Sprintf_x_d_d h i num = fmt.Sprintf_x_d_d h' i' num' <->
   h = h' /\ i = i' /\ num = num') /\
  (fmt.Sprintf_x_d h i = fmt.Sprintf_x_d h' i' <-> h = h' /\ i = i').
Proof.
  split; (split; [|by intros; destruct_and!; subst]).
  - intros H. rewrite !Sprintf_x_d_d_canonical in H. apply (f_equal fields) in H.
    rewrite !fields_canonical_string in H. injection H as Hh Hi Hnum.
    rewrite <- !verb_x_lowercase_hex in Hh.
    split; [by apply verb_x_inj|]. split; by apply verb_d_inj.
  - intros H. rewrite !Sprintf_x_d_canonical2 in H. apply (f_equal fields) in H.
    rewrite !fields_canonical_string2 in H. injection H as Hh Hi.
    rewrite <- !verb_x_lowercase_hex in Hh.
    split; [by apply verb_x_inj|by apply verb_d_inj].
Qed.

(** ** What the threshold test compares *)

Lemma Cmp_dyadic (y m e : Z) :
  big.Cmp (big.Fin y (-256)) (big.Fin m e) = Gt <->
  (inject_Z m * 2 ^ e < inject_Z y / inject_Z (2 ^ 256))%Q.
Proof.
  unfold big.Cmp. set (e0 := Z.min (-256) e).
  rewrite Z.compare_gt_iff, Zlt_Qlt, !inject_Z_mult.
  rewrite !Zpower_Qpower by lia.
  change (inject_Z 2) with 2%Q.
  assert (~ (2 == 0)%Q) as H2 by done.
  assert (0 < 2 ^ (- e0))%Q as Hpos by (by apply Qpower_0_lt).
  replace (e - e0) with (e + - e0) by lia.
  replace (-256 - e0) with (-256 + - e0) by lia.
  rewrite !Qpower_plus by done.
  rewrite !Qmult_assoc, Qmult_lt_r by done.
  unfold Qdiv. rewrite (Zpower_Qpower 2 256) by lia.
  change (inject_Z 2) with 2%Q.
  by rewrite <- Qpower_opp.
Qed.

Lemma SetBytes_fold (l : list ascii) (acc : Z) :
  0 <= acc ->
  0 <= fold_left (fun a c => a * 256 + byte_val c) l acc
    < (acc + 1) * 256 ^ Z.of_nat (length l).
Proof.
  revert acc. induction l as [|c l IH]; intros acc Hacc.
  - simpl. lia.
  - cbn [fold_left length].
    assert (0 <= byte_val c < 256) as Hc.
    { unfold byte_val. pose proof (N_ascii_bounded c). lia. }
    destruct (IH (acc * 256 + byte_val c)) as [Hlo Hhi]; [lia|].
    split; [done|].
    rewrite Nat2Z.inj_succ, Z.pow_succ_r by lia.
    assert (0 < 256 ^ Z.of_nat (length l)) by (apply Z.pow_pos_nonneg; lia).
    nia.
Qed.

Lemma SetBytes_range (hash : string) :
  0 <= big.SetBytes hash < 256 ^ Z.of_nat (String.length hash).
Proof.
  unfold big.SetBytes.
  assert (length (list_ascii_of_string hash) = String.length hash) as Hlen.
  { induction hash as [|c s IH]; [done|]. simpl. by rewrite IH. }
  pose proof (SetBytes_fold (list_ascii_of_string hash) 0 (Z.le_refl 0)) as H.
  rewrite Hlen in H. lia.
Qed.

Lemma hash_ratio_below_one (hash : string) :
  (String.length hash <= 32)%nat -> (hash_ratio hash < 1)%Q.
Proof.
  intros Hlen. unfold hash_ratio.
  pose proof (SetBytes_range hash) as [_ Hhi].
  assert (256 ^ Z.of_nat (String.length hash) <= 2 ^ 256) as Hpow.
  { change 256 with (2 ^ 8). rewrite <- Z.pow_mul_r by lia.
    apply Z.pow_le_mono_r; lia. }
  apply Qlt_shift_div_r; [done|]. rewrite Qmult_1_l, <- Zlt_Qlt. lia.
Qed.

Lemma threshold_dyadic (hash : string) (m e : Z) :
  let over := match big.Cmp (big.Quo_fmax (big.SetInt (big.SetBytes hash))) (big.Fin m e) with
              | Gt => true
              | _ => false
              end in
  (over = true <-> (inject_Z m * 2 ^ e < hash_ratio hash)%Q) /\
  (over = false <-> (hash_ratio hash <= inject_Z m * 2 ^ e)%Q).
Proof.
  intros over. unfold hash_ratio.
  pose proof (Cmp_dyadic (big.SetBytes hash) m e) as Hcmp.
  assert (over = true <-> (inject_Z m * 2 ^ e < inject_Z (big.SetBytes hash) / inject_Z (2 ^ 256))%Q)
    as Hover.
  { rewrite <- Hcmp. subst over. unfold big.Quo_fmax, big.SetInt.
    change (0 - 256) with (-256). by destruct (big.Cmp _ _). }
  split; [done|]. split.
  - intros Hf. apply Qnot_lt_le. intros Hlt. apply Hover in Hlt. congruence.
  - intros Hle. destruct over; [|done].
    exfalso. apply (Qle_not_lt _ _ Hle). by apply Hover.
Qed.

Lemma threshold_exact (hash : string) (diff : float) (q : Q) :
  float_value diff = Some q ->
  (exceeds hash diff = Some true <-> (q < hash_ratio hash)%Q) /\
  (selected hash diff = true <-> (hash_ratio hash <= q)%Q).
Proof.
  unfold float_value, selected, exceeds, big.NewFloat.
  destruct (Prim2SF diff) as [s|s| |s m e]; try done.
  - intros [= <-].
    destruct (threshold_dyadic hash 0 0) as [Ht Hf]. cbv zeta in Ht, Hf.
    change (inject_Z 0 * 2 ^ 0)%Q with 0%Q in Ht, Hf.
    rewrite <- Ht, <- Hf. split; by destruct (match big.Cmp _ _ with Gt => true | _ => false end).
  - intros [= <-].
    destruct (threshold_dyadic hash (if s then Z.neg m else Z.pos m) e) as [Ht Hf].
    cbv zeta in Ht, Hf.
    rewrite <- Ht, <- Hf. split; by destruct (match big.Cmp _ _ with Gt => true | _ => false end).
Qed.

(** X12.  The threshold test compares exactly: under a difficulty that is zero
    or finite, a hash exceeds it when [hash / 2^256] is greater than its value
    as a rational, and is selected otherwise; plus infinity selects every hash
    and minus infinity none. *)
Theorem threshold_meaning (hash : string) (diff : float) :
  (forall q, float_value diff = Some q ->
     (exceeds hash diff = Some true <-> (q < hash_ratio hash)%Q) /\
     (selected hash diff = true <-> (hash_ratio hash <= q)%Q)) /\
  (Prim2SF diff = S754_infinity false -> selected hash diff = true) /\
  (Prim2SF diff = S754_infinity true -> exceeds hash diff = Some true).
Proof.
  split; [by apply threshold_exact|].
  unfold selected, exceeds, big.NewFloat. split; by intros ->.
Qed.

(** The digest of the concrete setting has at most 32 bytes. *)
Lemma Sum256_length (s : string) : (String.length (Sha256.Sum256 s) <= 32)%nat.
Proof.
  unfold Sha256.Sum256, Sha256.string_of_bytes, Sha256.digest.
  set (blocks := Sha256.chunks _ _ _). clearbody blocks.
  assert (forall bs, String.length (string_of_list_ascii bs) = length bs) as Hstr.
  { induction bs as [|c bs IH]; [done|]. simpl. by rewrite IH. }
  rewrite Hstr, List.length_map.
  assert (forall n x, length (Sha256.be_bytes n x) = n) as Hbe.
  { induction n as [|n IH]; intros x; [done|].
    simpl. rewrite List.length_app, IH. simpl. lia. }
  assert (forall ws, length (flat_map (Sha256.be_bytes 4) ws) = (4 * length ws)%nat) as Hflat.
  { induction ws as [|w ws IH]; [done|].
    cbn [flat_map]. rewrite List.length_app, Hbe, IH. simpl. lia. }
  rewrite Hflat.
  assert (forall h, (length (fold_left Sha256.compress blocks h) <= length h)%nat) as Hfold.
  { induction blocks as [|b blocks IH]; intros h; [done|].
    cbn [fold_left]. etransitivity; [apply IH|].
    unfold Sha256.compress. rewrite List.length_map, List.length_combine. lia. }
  specialize (Hfold Sha256.H0).
  assert (length Sha256.H0 = 8%nat) as H8 by (vm_compute; reflexivity).
  lia.
Qed.

Lemma float_value_not_NaN (x : float) (q : Q) : float_value x = Some q -> ~ is_NaN x.
Proof.
  unfold float_value, is_NaN. by destruct (Prim2SF x).
Qed.

Lemma msgIndex_of_tickets (f : Z -> Pos33SortMsg) (idxs : list Z) :
  (forall i, msgIndex (Some (f i)) = Some i) ->
  msgIndex <$> (Some <$> map f idxs) = Some <$> idxs.
Proof.
  intros Hf. induction idxs as [|i idxs IH]; [done|].
  cbn [map]. rewrite !fmap_cons, Hf. by f_equal.
Qed.

Section AllSelected.
Context {ext : Externals} {consts : Consts}.

(** Under a difficulty of 1 or more a hash of at most 32 bytes never
    exceeds, so every ticket of the range is selected. *)
Lemma selectedTickets_all (vrfHash : string) (num count : Z) (diff : float) (q : Q) :
  float_value diff = Some q ->
  (1 <= q)%Q ->
  (forall data, (String.length (hash2 data) <= 32)%nat) ->
  selectedTickets vrfHash num diff count = seqZ 0 count /\
  selectedTickets2 vrfHash diff count = seqZ 0 count.
Proof.
  intros Hq Hone Hlen.
  assert (forall hash, (String.length hash <= 32)%nat -> selected hash diff = true) as Hsel.
  { intros hash Hh.
    apply (threshold_exact hash diff q Hq).
    apply Qlt_le_weak, (Qlt_le_trans _ 1); [by apply hash_ratio_below_one|done]. }
  unfold selectedTickets, selectedTickets2.
  split; (induction (seqZ 0 count) as [|i l IH]; [done|]); simpl;
    rewrite Hsel by apply Hlen; by rewrite IH.
Qed.

(** X13.  Under a difficulty of 1 or more every ticket is selected, the
    digest having at most 32 bytes.  [voterSort], whose difficulty is the
    scaled [diff * (VoterSize / MakerSize)], then returns the messages of
    all its tickets in ticket order, or [Pos33RewardVotes] of them when it
    has more; [makerSort], under [getDiff], returns a message as soon as the
    node has a ticket; [sort], under [calcDiff], returns one message for
    step 0 and for any other step the messages of all its tickets, or
    [Pos33VoterSize] of them when it has more.  The producers of the first
    revision need an address of 16 bytes or more to return. *)
Theorem difficulty_one_selects_all (sort_Sort : list Pos33SortMsg -> list Pos33SortMsg)
    (n1 : Rev1.node) (n2 : Rev2.node) (seed : string)
    (height round num step allw : Z) (diff : float) :
  (forall l, sort_Sort l ≡ₚ l) ->
  (forall data, (String.length (hash2 data) <= 32)%nat) ->
  0 <= Pos33RewardVotes ->
  0 <= Pos33VoterSize ->
  (forall priv q,
     Rev1.getPriv n1 = Some priv ->
     (16 <= String.length (address_PubKeyToAddr (PubKey_Bytes priv)))%nat ->
     float_value (voterDiff diff) = Some q -> (1 <= q)%Q ->
     exists out,
       Rev1.voterSort sort_Sort n1 seed height round num diff = Ret out /\
       length out = Z.to_nat (Z.min (Rev1.myCount n1) Pos33RewardVotes) /\
       (Rev1.myCount n1 <= Pos33RewardVotes ->
        msgIndex <$> out = Some <$> seqZ 0 (Rev1.myCount n1))) /\
  (forall priv q,
     Rev1.getPriv n1 = Some priv ->
     (16 <= String.length (address_PubKeyToAddr (PubKey_Bytes priv)))%nat ->
     float_value (Rev1.getDiff n1 height round) = Some q -> (1 <= q)%Q ->
     0 < Rev1.myCount n1 ->
     exists m, Rev1.makerSort n1 seed height round = Ret [Some m]) /\
  (forall priv q,
     Rev2.getPriv n2 = Some priv ->
     Rev2.myCount n2 <= allw ->
     float_value (Rev2.calcDiff n2 step allw round) = Some q -> (1 <= q)%Q ->
     exists out,
       Rev2.sort sort_Sort n2 seed height round step allw = Ret out /\
       (step = 0 -> 0 < Rev2.myCount n2 -> exists m, out = [Some m]) /\
       (step <> 0 ->
        length out = Z.to_nat (Z.min (Rev2.myCount n2) Pos33VoterSize) /\
        (Rev2.myCount n2 <= Pos33VoterSize ->
         msgIndex <$> out ≡ₚ Some <$> seqZ 0 (Rev2.myCount n2)))).
Proof.
  intros Hperm Hlen HRV HVS. split; [|split].
  - intros priv q Hpriv Haddr Hq Hone.
    destruct (Rev1.voterSort sort_Sort n1 seed height round num diff) as [out|] eqn:Hrun.
    2:{ apply voterSort_panic_iff in Hrun as (priv' & Hpriv' & [[_ Hnan]|[_ Hshort]]).
        - by apply (float_value_not_NaN _ _ Hq) in Hnan.
        - rewrite Hpriv in Hpriv'. injection Hpriv' as <-. lia. }
    exists out. split; [done|].
    apply voterSort_result in Hrun. rewrite Hpriv in Hrun. cbv zeta in Hrun.
    rewrite (proj1 (selectedTickets_all _ num (Rev1.myCount n1) _ q Hq Hone Hlen)) in Hrun.
    set (f := ticket_msg _ _ num) in Hrun.
    assert (length (map f (seqZ 0 (Rev1.myCount n1))) = Z.to_nat (Rev1.myCount n1)) as Hl
      by (by rewrite length_map, length_seqZ).
    rewrite Hl in Hrun. subst out.
    destruct (Z.gtb_spec (Z.of_nat (Z.to_nat (Rev1.myCount n1))) Pos33RewardVotes) as [Hgt|Hle].
    + split; [|lia].
      rewrite length_fmap, length_take, (Permutation_length (Hperm _)), Hl. lia.
    + split; [rewrite length_fmap, Hl; lia|]. intros _. by apply msgIndex_of_tickets.
  - intros priv q Hpriv Haddr Hq Hone Hcount.
    destruct (Rev1.makerSort n1 seed height round) as [out|] eqn:Hrun.
    2:{ apply makerSort_panic_iff in Hrun as (priv' & Hpriv' & [[_ Hnan]|Hshort]).
        - by apply (float_value_not_NaN _ _ Hq) in Hnan.
        - rewrite Hpriv in Hpriv'. injection Hpriv' as <-. lia. }
    apply makerSort_result in Hrun. rewrite Hpriv in Hrun. cbv zeta in Hrun. subst out.
    destruct (fold_left _ _ None) as [m|] eqn:Hfold; [by exists m|].
    apply keep_min_fold_None in Hfold. exfalso.
    change (seqZ 0 3) with [0; 1; 2] in Hfold. cbn [flat_map] in Hfold.
    apply app_eq_nil in Hfold as [Hfold _].
    rewrite (proj1 (selectedTickets_all _ 0 (Rev1.myCount n1) _ q Hq Hone Hlen)) in Hfold.
    apply map_eq_nil in Hfold. by apply seqZ_nonempty in Hfold.
  - intros priv q Hpriv Hallw Hq Hone.
    destruct (Rev2.sort sort_Sort n2 seed height round step allw) as [out|] eqn:Hrun.
    2:{ apply sort_panic_iff in Hrun as (_ & _ & _ & Hnan).
        by apply (float_value_not_NaN _ _ Hq) in Hnan. }
    exists out. split; [done|].
    apply sort_result in Hrun.
    destruct (Z.ltb_spec allw (Rev2.myCount n2)); [lia|].
    rewrite Hpriv in Hrun. cbv zeta in Hrun.
    rewrite (proj2 (selectedTickets_all _ 0 (Rev2.myCount n2) _ q Hq Hone Hlen)) in Hrun.
    set (f := ticket_msg2 _ _) in Hrun.
    assert (length (map f (seqZ 0 (Rev2.myCount n2))) = Z.to_nat (Rev2.myCount n2)) as Hl
      by (by rewrite length_map, length_seqZ).
    rewrite (Permutation_length (Hperm _)), Hl in Hrun.
    destruct (Z.eqb_spec (Z.of_nat (Z.to_nat (Rev2.myCount n2))) 0) as [Hz|Hz].
    { subst out. split; [lia|]. intros _. split; [simpl; lia|].
      intros _.
      assert (seqZ 0 (Rev2.myCount n2) = []) as ->; [|done].
      apply length_zero_iff_nil. rewrite length_seqZ. lia. }
    destruct (Z.eqb_spec step 0) as [Hs|Hs].
    + split; [|done]. intros _ _. subst out.
      destruct (fold_left _ _ None) as [m|] eqn:Hfold; [by exists m|].
      apply keep_min_fold_None in Hfold. apply (f_equal length) in Hfold.
      rewrite Hl in Hfold. simpl in Hfold. lia.
    + split; [done|]. intros _. subst out.
      destruct (Z.gtb_spec (Z.of_nat (Z.to_nat (Rev2.myCount n2))) Pos33VoterSize) as [Hgt|Hle].
      * split; [|lia].
        rewrite length_fmap, length_take, (Permutation_length (Hperm _)), Hl. lia.
      * split; [rewrite length_fmap, (Permutation_length (Hperm _)), Hl; lia|].
        intros _. rewrite (Hperm _). by rewrite msgIndex_of_tickets.
Qed.

End AllSelected.

(** With SHA-256, three tickets and the difficulty 1, scaled to 2:
    [voterSort] returns the messages of the tickets 0, 1 and 2. *)
Lemma difficulty_one_selects_all_witness :
  let c := Demo.consts 1 2 1 5 in
  exists out,
    @Rev1.voterSort Demo.ext c Demo.insertion_sort (Demo.node1 3 1 ∅) "seed" 100 0 0 1 = Ret out /\
    msgIndex <$> out = [Some 0; Some 1; Some 2].
Proof.
  intros c.
  destruct (proj1 (@difficulty_one_selects_all Demo.ext c Demo.insertion_sort
                     (Demo.node1 3 1 ∅) (Demo.node2 1 ∅ ∅) "seed" 100 0 0 1 1 1%float
                     insertion_sort_perm (fun data => Sum256_length _)
                     ltac:(vm_compute; discriminate) ltac:(vm_compute; discriminate))
              "k"%string _ eq_refl ltac:(vm_compute; lia) eq_refl
              ltac:(unfold Qle; simpl; lia))
    as (out & Hrun & _ & Hidx).
  exists out. split; [exact Hrun|]. apply Hidx. vm_compute. discriminate.
Defined.

(** ** The aggregators: when they fail, and which of two equal hashes wins *)

(** The running minimum keeps the first of the entries with the smallest
    key: everything before it is strictly greater. *)
Lemma keep_min_fold_first {X : Type} (key : X -> string) (xs : list X) (r : X) :
  fold_left (keep_min key) xs None = Some r ->
  exists before after,
    xs = before ++ r :: after /\
    (forall x, x ∈ before -> string_gt (key x) (key r) = true) /\
    (forall x, x ∈ after -> String.leb (key r) (key x) = true).
Proof.
  revert r. induction xs as [|x xs IH] using rev_ind; intros r; [done|].
  rewrite fold_left_app. cbn [fold_left]. unfold keep_min at 1.
  destruct (fold_left (keep_min key) xs None) as [c|] eqn:Hfold.
  - destruct (string_gt (key c) (key x)) eqn:Hgt; intros [= <-].
    + exists xs, []. split; [done|]. split; [|by intros y ?%elem_of_nil].
      intros y Hy.
      destruct (string_gt (key y) (key x)) eqn:Hyx; [done|].
      apply string_gt_false_leb in Hyx.
      apply keep_min_fold_min in Hfold as [_ Hmin].
      assert (String.leb (key c) (key x) = true) as Hcx.
      { eapply string_leb_trans; [apply Hmin; by left|done]. }
      apply string_gt_false_leb in Hcx. congruence.
    + destruct (IH c eq_refl) as (before & after & -> & Hb & Ha).
      exists before, (after ++ [x]). split; [by rewrite <- app_assoc|]. split; [done|].
      intros y [Hy| ->%list_elem_of_singleton]%elem_of_app; [by apply Ha|].
      by apply string_gt_false_leb.
  - apply keep_min_fold_None in Hfold as ->. intros [= <-].
    exists [], []. split; [done|]. split; by intros y ?%elem_of_nil.
Qed.

Section AggregatorFailures.
Context {ext : Externals} {consts : Consts}.

Lemma getMakerSorts_slot_panics (n : Rev1.node) (seed : string)
    (cands : list (option Pos33SortMsg)) (st : option Pos33SortMsg) :
  (forall c, st = Some c -> is_Some (MsgSortHash c)) ->
  loop (Rev1.getMakerSorts_body n seed) cands st = Panic <->
  exists s, s ∈ passing1 n seed cands /\ MsgSortHash s = None.
Proof.
  revert st. induction cands as [|x cands IH]; intros st Hst.
  - simpl. split; [done|]. by intros (s & ?%elem_of_nil & _).
  - assert (passing1 n seed (x :: cands)
            = match x with
              | Some s' => match Rev1.checkSort n s' seed 0 with
                           | None => s' :: passing1 n seed cands
                           | Some _ => passing1 n seed cands
                           end
              | None => passing1 n seed cands
              end) as ->.
    { destruct x as [s'|]; [|done]. unfold passing1. cbn [omap list_omap].
      by destruct (Rev1.checkSort n s' seed 0). }
    cbn [loop]. unfold Rev1.getMakerSorts_body at 1.
    destruct x as [s'|]; [|by apply IH].
    destruct (Rev1.checkSort n s' seed 0) eqn:Hc; [by apply IH|].
    destruct (MsgSortHash s') as [b|] eqn:Hb.
    + assert (exists a, MsgSortHash (match st with None => s' | Some cur => cur end) = Some a)
        as [a Ha].
      { destruct st as [cur|]; [by apply Hst|by exists b]. }
      rewrite Ha. rewrite IH.
      * split; intros (s & Hs & Hnone); exists s; (split; [|done]).
        -- by right.
        -- apply elem_of_cons in Hs as [->|Hs]; [congruence|done].
      * intros c [= <-]. destruct (string_gt _ _); [by rewrite Hb|by rewrite Ha].
    + split.
      * intros _. exists s'. split; [by left|done].
      * intros _. by repeat case_match.
Qed.

(** X14.  [getMakerSorts] panics exactly when the seed and the table entry are
    there and one of the three slots holds a candidate that [checkSort] accepts
    although it has no sort hash; in every other case it returns. *)
Theorem getMakerSorts_panics_iff (n : Rev1.node) (height round : Z) :
  Rev1.getMakerSorts n height round = Panic <->
  exists seed rounds slots i s,
    Rev1.getSortSeed n (int64 (height - Pos33SortBlocks)) = inr seed /\
    Rev1.cms n !! height = Some rounds /\ rounds !! round = Some slots /\
    0 <= i < 3 /\
    s ∈ passing1 n seed (default [] (slots !! i)) /\ MsgSortHash s = None.
Proof.
  unfold Rev1.getMakerSorts.
  destruct (Rev1.getSortSeed n _) as [e|seed];
    [split; [done|by intros (? & ? & ? & ? & ? & ? & _)]|].
  destruct (Rev1.cms n !! height) as [rounds|];
    [|split; [done|by intros (? & ? & ? & ? & ? & _ & ? & _)]].
  destruct (rounds !! round) as [slots|] eqn:Hslots;
    [|split; [done|intros (? & ? & ? & ? & ? & _ & [= <-] & ? & _); congruence]].
  assert (forall idxs acc,
    loop (fun pss i =>
            match loop (Rev1.getMakerSorts_body n seed) (default [] (slots !! i)) None with
            | Panic => Panic
            | Ret minSort => Ret (pss ++ [minSort])
            end) idxs acc = Panic <->
    exists i s, i ∈ idxs /\ s ∈ passing1 n seed (default [] (slots !! i)) /\
                MsgSortHash s = None) as Houter.
  { induction idxs as [|i idxs IH]; intros acc.
    - simpl. split; [done|]. by intros (i & s & ?%elem_of_nil & _).
    - cbn [loop].
      pose proof (getMakerSorts_slot_panics n seed (default [] (slots !! i)) None) as Hslot.
      destruct (loop (Rev1.getMakerSorts_body n seed) (default [] (slots !! i)) None) as [m|].
      + rewrite IH. split; intros (j & s & Hj & Hs & Hnone).
        * exists j, s. split; [by right|done].
        * apply elem_of_cons in Hj as [->|Hj]; [|by exists j, s].
          assert (@Ret (option Pos33SortMsg) m = Panic) as Hbad; [|done].
          apply Hslot; [done|]. by exists s.
      + split; [|done]. intros _.
        destruct (proj1 (Hslot ltac:(done)) eq_refl) as (s & Hs & Hnone).
        exists i, s. split; [by left|done]. }
  rewrite Houter. split.
  - intros (i & s & Hi%elem_of_seqZ_bounds & Hs & Hnone).
    exists seed, rounds, slots, i, s. repeat split; try done; lia.
  - intros (? & ? & slots' & i & s & [= <-] & [= <-] & Hs' & Hi & Hs & Hnone).
    rewrite Hslots in Hs'. injection Hs' as <-.
    exists i, s. split; [apply elem_of_seqZ_bounds; lia|done].
Qed.

(** X15.  Of the candidates of a slot that pass and share the smallest sort
    hash, [getMakerSorts] returns the first: every passing candidate before the
    winner has a strictly greater hash, every one after it a hash that is not
    smaller. *)
Theorem getMakerSorts_first_minimum (n : Rev1.node) (height round : Z) (seed : string)
    (rounds : gmap Z (gmap Z (list (option Pos33SortMsg))))
    (slots : gmap Z (list (option Pos33SortMsg))) (out : list (option Pos33SortMsg))
    (i : Z) (w : Pos33SortMsg) :
  Rev1.getSortSeed n (int64 (height - Pos33SortBlocks)) = inr seed ->
  Rev1.cms n !! height = Some rounds ->
  rounds !! round = Some slots ->
  Rev1.getMakerSorts n height round = Ret out ->
  0 <= i < 3 ->
  out !! Z.to_nat i = Some (Some w) ->
  exists before after,
    passing1 n seed (default [] (slots !! i)) = before ++ w :: after /\
    (forall x, x ∈ before -> string_gt (sortKey x) (sortKey w) = true) /\
    (forall x, x ∈ after -> String.leb (sortKey w) (sortKey x) = true).
Proof.
  intros Hseed Hrounds Hslots Hrun Hi Hw.
  apply getMakerSorts_result in Hrun. rewrite Hseed, Hrounds, Hslots in Hrun. subst out.
  assert (i = 0 \/ i = 1 \/ i = 2) as [->|[->| ->]] by lia;
    injection Hw as Hw; by apply keep_min_fold_first.
Qed.

Lemma bp_min_fold (entries : list (string * Pos33SortMsg)) :
  entries <> [] ->
  exists e, e ∈ entries /\
            fold_left Rev2.bp_min entries (EmptyString, None) = (fst e, Some (snd e)).
Proof.
  assert (forall es e0, e0 ∈ entries -> (forall e, e ∈ es -> e ∈ entries) ->
            exists e, e ∈ entries /\
                      fold_left Rev2.bp_min es (fst e0, Some (snd e0)) = (fst e, Some (snd e)))
    as Hgen.
  { induction es as [|e es IH]; intros e0 He0 Hsub.
    - by exists e0.
    - cbn [fold_left]. unfold Rev2.bp_min at 2. cbn [fst snd].
      destruct (String.eqb (fst e0) "");
        [apply (IH e); [apply Hsub; by left|intros; apply Hsub; by right]|].
      destruct (string_gt (fst e0) (fst e)).
      + apply (IH e); [apply Hsub; by left|intros; apply Hsub; by right].
      + apply (IH e0); [done|intros; apply Hsub; by right]. }
  intros Hne. destruct entries as [|e es]; [done|].
  cbn [fold_left]. unfold Rev2.bp_min at 2. cbn [fst String.eqb].
  apply (Hgen es e); [by left|intros; by right].
Qed.

(** The first loop of [bp] keeps, under a key, the last candidate that
    passes with that sort hash. *)
Lemma bp_collect_last (n : Rev2.node) (seed : string) (allw : Z)
    (cands : list (option Pos33SortMsg)) (pss0 pss : gmap string Pos33SortMsg) :
  loop (Rev2.bp_collect n seed allw) cands pss0 = Ret pss ->
  forall k s, pss !! k = Some s ->
    (pss0 !! k = Some s /\
     forall s', Some s' ∈ passing2 n seed allw cands -> sortKey s' <> k) \/
    (exists before after,
       passing2 n seed allw cands = before ++ Some s :: after /\ sortKey s = k /\
       forall s', Some s' ∈ after -> sortKey s' <> k).
Proof.
  revert pss0. induction cands as [|x cands IH]; intros pss0 Hrun k s Hk.
  - injection Hrun as <-. left. split; [done|]. by intros s' ?%elem_of_nil.
  - cbn [loop] in Hrun. unfold Rev2.bp_collect in Hrun at 1.
    unfold passing2. cbn [List.filter]. fold (passing2 n seed allw cands).
    destruct (Rev2.checkSort n x seed allw 0) eqn:Hc; [by apply (IH pss0)|].
    destruct x as [s0|]; [|done]. destruct (MsgSortHash s0) as [sh|] eqn:Hsh; [|done].
    assert (sortKey s0 = Hash sh) as Hkey0 by (unfold sortKey; by rewrite Hsh).
    destruct (IH _ Hrun k s Hk) as [[Hins Hnone]|(before & after & Hpass & Hkey & Hafter)].
    + apply lookup_insert_Some in Hins as [[<- <-]|[Hne Hold]].
      * right. exists [], (passing2 n seed allw cands). split; [done|]. split; [done|].
        intros s' Hs'. by apply Hnone.
      * left. split; [done|]. intros s' [[= ->]|Hs']%elem_of_cons; [congruence|by apply Hnone].
    + right. exists (Some s0 :: before), after. rewrite Hpass. by split.
Qed.

(** X16.  [bp] returns a result when every candidate that [checkSort] accepts is
    a message with a sort hash and a proof; and of the candidates that pass with
    the winning sort hash it reports the last one: no candidate after it has
    that hash. *)
Theorem bp_last_stored (range_pss : gmap string Pos33SortMsg -> list (string * Pos33SortMsg))
    (n : Rev2.node) (height round : Z) (seed : string) :
  (forall pss, range_pss pss ≡ₚ map_to_list pss) ->
  Rev2.getSortSeed n (int64 (height - Pos33SortitionSize)) = inr seed ->
  let allw := Rev2.allCount n (int64 (height - Pos33SortitionSize)) in
  let pass := passing2 n seed allw (candidates2 n height round) in
  (forall x, x ∈ pass ->
     exists s sh p, x = Some s /\ MsgSortHash s = Some sh /\ MsgProof s = Some p) ->
  pass <> [] ->
  exists before s after,
    pass = before ++ Some s :: after /\
    Rev2.bp range_pss n height round = Ret (sortKey s, msgPubkey s) /\
    forall s', Some s' ∈ after -> sortKey s' <> sortKey s.
Proof.
  intros Hrange Hseed allw pass Hall Hne.
  unfold Rev2.bp. fold (candidates2 n height round). rewrite Hseed. cbv zeta.
  fold allw. set (cands := candidates2 n height round) in *.
  destruct (bp_collect_total n seed allw cands ∅) as [pss Hloop].
  { intros x Hx. destruct (Hall x Hx) as (s & sh & p & ? & ? & _). by exists s, sh. }
  rewrite Hloop.
  pose proof (bp_collect_last n seed allw cands ∅ pss Hloop) as Hlast.
  apply bp_collect_loop in Hloop as (_ & _ & Hkeys).
  assert (range_pss pss <> []) as Hentries.
  { destruct pass as [|x l] eqn:Hp; [done|].
    destruct (Hkeys x) as (s & sh & _ & _ & [s' Hs']); [fold pass; rewrite Hp; by left|].
    intros Hnil. assert ((Hash sh, s') ∈ range_pss pss) as Hin.
    { rewrite Hrange. by apply elem_of_map_to_list. }
    rewrite Hnil in Hin. by apply elem_of_nil in Hin. }
  destruct (Z.eqb_spec (Z.of_nat (size pss)) 0) as [Hsize|_].
  { exfalso. apply Hentries. apply Nat2Z.inj_iff with (m := 0%nat), map_size_empty_iff in Hsize.
    apply Permutation_nil_r. by rewrite (Hrange pss), Hsize, map_to_list_empty. }
  destruct (bp_min_fold (range_pss pss) Hentries) as ([k s] & Hin & ->). cbn [fst snd].
  rewrite Hrange in Hin. apply elem_of_map_to_list in Hin.
  destruct (Hlast k s Hin) as [[Hempty _]|(before & after & Hpass & Hkey & Hafter)];
    [by rewrite lookup_empty in Hempty|].
  exists before, s, after. split; [done|]. subst k. split; [|done].
  destruct (Hall (Some s)) as (s1 & sh & p & [= <-] & Hsh & Hp);
    [unfold pass; rewrite Hpass; apply elem_of_app; right; by left|].
  destruct s as [msh mp]. simpl in Hp. subst mp. done.
Qed.

End AggregatorFailures.

(** A candidate without a sort hash that [checkSort] lets through. *)
Lemma getMakerSorts_panics_iff_witness :
  let c := Demo.consts 1 2 1 5 in
  let m := {| MsgSortHash := None; MsgProof := None |} in
  @Rev1.getMakerSorts Demo.ext c (Demo.node1 1 1 (Demo.table1 [Some m])) 100 0 = Panic.
Proof.
  intros c m.
  apply (proj2 (@getMakerSorts_panics_iff Demo.ext c (Demo.node1 1 1 (Demo.table1 [Some m]))
                  100 0)).
  exists "seed"%string, {[ 0 := {[ 0 := [Some m] ]} ]}, {[ 0 := [Some m] ]}, 0, m.
  split; [reflexivity|]. split; [vm_compute; reflexivity|]. split; [vm_compute; reflexivity|].
  split; [lia|]. split; [|reflexivity].
  assert (@passing1 Demo.ext (Demo.node1 1 1 (Demo.table1 [Some m])) "seed"
            (default [] (({[ 0 := [Some m] ]} : gmap Z (list (option Pos33SortMsg))) !! 0))
          = [m]) as -> by (vm_compute; reflexivity).
  apply list_elem_of_singleton. reflexivity.
Defined.

(** Two candidates with the same sort hash: the first wins the slot. *)
Lemma getMakerSorts_first_minimum_witness :
  let c := Demo.consts 1 2 1 5 in
  let a := Demo.candidate "h" 0 "ka" in
  let b := Demo.candidate "h" 1 "kb" in
  let n := Demo.node1 1 1 (Demo.table1 [Some a; Some b]) in
  @Rev1.getMakerSorts Demo.ext c n 100 0 = Ret [Some a; None; None] /\
  exists before after,
    @passing1 Demo.ext n "seed" [Some a; Some b] = before ++ a :: after /\
    (forall x, x ∈ before -> string_gt (sortKey x) (sortKey a) = true) /\
    (forall x, x ∈ after -> String.leb (sortKey a) (sortKey x) = true).
Proof.
  intros c a b n.
  assert (@Rev1.getMakerSorts Demo.ext c n 100 0 = Ret [Some a; None; None]) as Hrun
    by (vm_compute; reflexivity).
  split; [exact Hrun|].
  exact (@getMakerSorts_first_minimum Demo.ext c n 100 0 "seed"
           {[ 0 := {[ 0 := [Some a; Some b] ]} ]} {[ 0 := [Some a; Some b] ]}
           [Some a; None; None] 0 a eq_refl eq_refl eq_refl Hrun
           (conj (Z.le_refl 0) eq_refl) eq_refl).
Defined.

(** Two candidates with the same sort hash in the table of [bp]. *)
Lemma bp_last_stored_witness :
  let c := Demo.consts 1 2 1 5 in
  let a := Demo.candidate "h" 0 "ka" in
  let b := Demo.candidate "h" 1 "kb" in
  let n := Demo.node2 1 ∅ (Demo.table2 [Some a; Some b]) in
  exists before s after,
    @passing2 Demo.ext n "seed" 1 [Some a; Some b] = before ++ Some s :: after /\
    @Rev2.bp Demo.ext c map_to_list n 100 0 = Ret (sortKey s, msgPubkey s) /\
    forall s', Some s' ∈ after -> sortKey s' <> sortKey s.
Proof.
  intros c a b n.
  refine (@bp_last_stored Demo.ext c map_to_list n 100 0 "seed" (fun _ => reflexivity _)
            eq_refl _ _).
  - intros x Hx. apply passing2_elem in Hx as [Hx _].
    assert (candidates2 n 100 0 = [Some a; Some b]) as Hc by (vm_compute; reflexivity).
    rewrite Hc in Hx.
    apply elem_of_cons in Hx as [->|Hx]; [by eexists _, _, _|].
    apply list_elem_of_singleton in Hx as ->. by eexists _, _, _.
  - vm_compute. discriminate.
Defined.
